(** * processing_ex: a shallow embedding of [modules/processing_ex.py]

    The batch image-generation orchestrator of the web UI: seed-deterministic
    noise ([slerp], [create_random_tensors]), scoped option overrides
    ([process_images]), the conditioning cache ([get_conds_with_caching]),
    mask normalisation and latent recomposition of the img2img request, the
    iteration loop, grid assembly and seed expansion of
    [process_images_inner], and [apply_overlay]; then the preparation of
    masks and images in [init], the fill of the latent, [fix_seed], the
    class [Processed], and [old_hires_fix_first_pass_dimensions].

    Tensors hold real numbers: arithmetic is exact, so rounding, infinities
    and NaN of the floating-point tensors are outside the model.  Everything
    the module imports from elsewhere (samplers, the VAE, image operations,
    script hooks, the random generator) enters as a field of an environment
    record. *)

From Stdlib Require Import Reals Lra ZArith QArith Ascii Lia.
From stdpp Require Import gmap strings list pretty.

Set Default Proof Using "Type".

(** ** Computations that may raise

    Python code that works on a state and may raise is a function of the
    state: it returns the outcome, an exception or a value, and the state it
    leaves, which an exception does not undo. *)

Module Eff.

Definition t (S E A : Type) : Type := S -> (E + A) * S.

Section Operations.

Context {S E : Type}.

#[global] Instance ret : MRet (t S E) := fun A a st => (inr a, st).

#[global] Instance bind : MBind (t S E) := fun A B f m st =>
  match m st with
  | (inr a, st') => f a st'
  | (inl e, st') => (inl e, st')
  end.

Definition raise {A} (e : E) : t S E A := fun st => (inl e, st).

Definition get : t S E S := fun st => (inr st, st).

Definition modify (f : S -> S) : t S E unit := fun st => (inr tt, f st).

(** A partial operation: [e] is raised where it has no result. *)
Definition of_option {A} (e : E) (o : option A) : t S E A :=
  match o with
  | Some a => mret a
  | None => raise e
  end.

(** [if b: m] *)
Definition when (b : bool) (m : t S E unit) : t S E unit :=
  if b then m else mret tt.

(** [try: body finally: fin].  [fin] runs on either exit of [body]; an
    exception of [fin] replaces the outcome of [body]. *)
Definition try_finally {A} (body : t S E A) (fin : t S E unit) : t S E A :=
  fun st =>
    let '(r, st1) := body st in
    match fin st1 with
    | (inl e, st2) => (inl e, st2)
    | (inr _, st2) => (r, st2)
    end.

End Operations.

End Eff.

(** ** Tensors of rank three

    A tensor [t] of shape [(d0, d1, d2)] is the nested list with
    [t[i][j][k]] at position [k] of row [j] of block [i].  A matrix of shape
    [(n, d)] is the tensor of shape [(n, d, 1)]: every reduction below runs
    over dimension 1, as [dim=1] does in the source. *)

Module Tensor.

Definition Tensor3 := list (list (list R)).

Definition of_matrix (m : list (list R)) : Tensor3 :=
  map (map (fun x => [x])) m.

(** [t.sum(1)] on one block: the rows added up, entry by entry. *)
Definition sum_dim1 (m : list (list R)) : list R :=
  match m with
  | [] => []
  | r :: rs => foldl (zip_with Rplus) r rs
  end.

(** [torch.norm(t, dim=1, keepdim=True)]; the kept dimension is implicit. *)
Definition norm_dim1 (t : Tensor3) : list (list R) :=
  map (fun m => map sqrt (sum_dim1 (map (map (fun x => x * x)%R) m))) t.

(** [t / n] with [n] of shape [(d0, 1, d2)], broadcast along dimension 1. *)
Definition div_keepdim (t : Tensor3) (n : list (list R)) : Tensor3 :=
  zip_with (fun m nr => map (fun row => zip_with Rdiv row nr) m) t n.

(** [c.unsqueeze(1) * t] with [c] of shape [(d0, d2)]. *)
Definition mul_unsqueeze1 (c : list (list R)) (t : Tensor3) : Tensor3 :=
  zip_with (fun cr m => map (fun row => zip_with Rmult cr row) m) c t.

Definition mul (a b : Tensor3) : Tensor3 :=
  zip_with (zip_with (zip_with Rmult)) a b.

Definition add (a b : Tensor3) : Tensor3 :=
  zip_with (zip_with (zip_with Rplus)) a b.

(** [t * c] for a scalar [c]. *)
Definition scale (t : Tensor3) (c : R) : Tensor3 :=
  map (map (map (fun x => x * c)%R)) t.

(** [d.mean()] of a tensor of shape [(d0, d2)]. *)
Definition mean (d : list (list R)) : R :=
  (foldr Rplus 0 (concat d) / INR (length (concat d)))%R.

(** [t.shape == (d0, d1, d2)] *)
Definition has_shape (d0 d1 d2 : nat) (t : Tensor3) : Prop :=
  length t = d0 /\
  Forall (fun m => length m = d1 /\ Forall (fun row => length row = d2) m) t.

End Tensor.

(** ** Spherical interpolation of noise (lines 194-205) *)

Definition slerp (val : R) (low high : Tensor.Tensor3) : Tensor.Tensor3 :=
  let low_norm := Tensor.div_keepdim low (Tensor.norm_dim1 low) in
  let high_norm := Tensor.div_keepdim high (Tensor.norm_dim1 high) in
  let dot := map Tensor.sum_dim1 (Tensor.mul low_norm high_norm) in
  if Rgt_dec (Tensor.mean dot) 0.9995 then
    Tensor.add (Tensor.scale low val) (Tensor.scale high (1 - val))
  else
    let omega := map (map acos) dot in
    let so := map (map sin) omega in
    let wl := zip_with (zip_with Rdiv)
                (map (map (fun o => sin ((1.0 - val) * o))) omega) so in
    let wh := zip_with (zip_with Rdiv)
                (map (map (fun o => sin (val * o))) omega) so in
    Tensor.add (Tensor.mul_unsqueeze1 wl low) (Tensor.mul_unsqueeze1 wh high).

(** [dot] of line 197: the cosine of the angle between [low] and [high],
    one for each position of dimensions 0 and 2. *)
Definition slerp_dot (low high : Tensor.Tensor3) : list (list R) :=
  map Tensor.sum_dim1
    (Tensor.mul (Tensor.div_keepdim low (Tensor.norm_dim1 low))
                (Tensor.div_keepdim high (Tensor.norm_dim1 high))).

(** The rows [[1, 0]] and [[2, 0]]: the same direction, different lengths. *)
Definition parallel_low : Tensor.Tensor3 := Tensor.of_matrix [[1; 0]]%R.
Definition parallel_high : Tensor.Tensor3 := Tensor.of_matrix [[2; 0]]%R.

(** The rows [[1, 0]] and [[0, 1]], at a right angle. *)
Definition orthogonal_low : Tensor.Tensor3 := Tensor.of_matrix [[1; 0]]%R.
Definition orthogonal_high : Tensor.Tensor3 := Tensor.of_matrix [[0; 1]]%R.

(** ** Noise generation (lines 208-268)

    The state of this part is what a call can read or write besides its
    arguments: [torch]'s global random generator, threaded through every
    draw, and the attribute [p.sampler.sampler_noises].  [torch] raises on a
    slice assignment of the wrong shape and on [torch.stack] of no tensor. *)

Module Noise.

Import Tensor.

(** [shape]: the three dimensions of one noise tensor. *)
Definition Shape : Type := Z * Z * Z.

(** [l[a:b]] for [0 <= a]; a bound past the end is clamped. *)
Definition slice {A} (a b : Z) (l : list A) : list A :=
  take (Z.to_nat (b - a)) (drop (Z.to_nat a) l).

(** [l[a:a+len(new)] = new]. *)
Definition splice {A} (a : Z) (new l : list A) : list A :=
  take (Z.to_nat a) l ++ new ++ drop (Z.to_nat a + length new) l.

(** [x[:, ty:ty+h, tx:tx+w] = v]; [None] when [v] does not have the shape
    of the region it is written to. *)
Definition assign_block (x : Tensor3) (ty h tx w : Z) (v : Tensor3) : option Tensor3 :=
  let fits :=
    bool_decide (length v = length x) &&
    forallb (fun '(xm, vm) =>
      bool_decide (length vm = length (slice ty (ty + h) xm)) &&
      forallb (fun '(xr, vr) =>
        bool_decide (length vr = length (slice tx (tx + w) xr)))
        (zip (slice ty (ty + h) xm) vm))
      (zip x v) in
  if fits then
    Some (zip_with (fun xm vm =>
            splice ty (zip_with (fun xr vr => splice tx vr xr)
                         (slice ty (ty + h) xm) vm) xm) x v)
  else None.

Inductive TorchError := ShapeMismatch | EmptyStack.

(** [torch.stack(ts)]: an error on the empty list. *)
Definition stack {A} (ts : list A) : option (list A) :=
  match ts with
  | [] => None
  | _ => Some ts
  end.

(** The options read here: [opts.eta_noise_seed_delta] (possibly [None])
    and [opts.enable_batch_seeds]. *)
Record Opts := {
  eta_noise_seed_delta : option Z;
  enable_batch_seeds : bool;
}.

(** [p.sampler] and what [p.sampler.number_of_needed_noises(p)] returns. *)
Record Sampler := { number_of_needed_noises : nat }.
Record Processing := { sampler : option Sampler }.

Section Generator.

Context {RngState : Type}.

(** [torch.manual_seed] and one [torch.randn] on the global generator. *)
Record Torch := {
  manual_seed : Z -> RngState;
  torch_randn : Shape -> RngState -> Tensor3 * RngState;
}.

Variable torch : Torch.

Record State := {
  generator : RngState;
  sampler_noises_attr : option (list (list Tensor3));
}.

(** Computations on that state. *)
#[local] Abbreviation Rng := (Eff.t State TorchError).

Definition torch_manual_seed (seed : Z) : Rng unit :=
  Eff.modify (fun st =>
    {| generator := manual_seed torch seed;
       sampler_noises_attr := sampler_noises_attr st |}).

(** [devices.randn_without_seed(shape)]: the next draw of the generator. *)
Definition randn_without_seed (shape : Shape) : Rng Tensor3 :=
  fun st =>
    let '(t, g) := torch_randn torch shape (generator st) in
    (inr t, {| generator := g; sampler_noises_attr := sampler_noises_attr st |}).

(** Modelled from the spec: [devices.randn], of the module [devices] that is
    not among the sources. "For each seed, produce a reproducible noise
    tensor using that seed as sole entropy source": the generator is seeded,
    then drawn from. *)
Definition randn (seed : Z) (shape : Shape) : Rng Tensor3 :=
  _ ← torch_manual_seed seed; randn_without_seed shape.

(** Two states with the same generator, and the two ways a computation can
    be independent of the state it starts in: its outcome and the generator
    it leaves depend on the generator alone, or on nothing at all. *)
Definition agree (st1 st2 : State) : Prop := generator st1 = generator st2.

Definition respects {A} (m : Rng A) : Prop :=
  forall st1 st2, agree st1 st2 ->
    (m st1).1 = (m st2).1 /\ agree (m st1).2 (m st2).2.

Definition resets {A} (m : Rng A) : Prop :=
  forall st1 st2, (m st1).1 = (m st2).1 /\ agree (m st1).2 (m st2).2.

(** [for j in range(cnt): ... randn_without_seed(noise_shape)] *)
Fixpoint draw_noises (cnt : nat) (shape : Shape) : Rng (list Tensor3) :=
  match cnt with
  | O => mret []
  | S c => d ← randn_without_seed shape; ds ← draw_noises c shape; mret (d :: ds)
  end.

Section Call.

Variable opts : Opts.
Variable shape : Shape.
Variable subseeds : option (list Z).
Variable subseed_strength : R.
Variables seed_resize_from_h seed_resize_from_w : Z.
Variable p : option Processing.

Definition eta : Z := default 0%Z (eta_noise_seed_delta opts).

(** The resize branch is taken exactly when a resize is requested: there
    [noise_shape] is a fresh tuple and [shape] the caller's list, which
    Python never finds equal; otherwise they are one object. *)
Definition resized : bool :=
  negb ((seed_resize_from_h <=? 0)%Z || (seed_resize_from_w <=? 0)%Z).

Definition noise_shape : Shape :=
  if resized
  then (shape.1.1, seed_resize_from_h / 8, seed_resize_from_w / 8)%Z
  else shape.

(** Lines 239-251: the noise of the source resolution, centred in noise of
    the target shape. *)
Definition resize_noise (seed : Z) (noise : Tensor3) : Rng Tensor3 :=
  x ← randn seed shape;
  let dx := ((shape.2 - noise_shape.2) / 2)%Z in
  let dy := ((shape.1.2 - noise_shape.1.2) / 2)%Z in
  let w := (if (0 <=? dx)%Z then noise_shape.2 else noise_shape.2 + 2 * dx)%Z in
  let h := (if (0 <=? dy)%Z then noise_shape.1.2 else noise_shape.1.2 + 2 * dy)%Z in
  let tx := (if (dx <? 0)%Z then 0 else dx)%Z in
  let ty := (if (dy <? 0)%Z then 0 else dy)%Z in
  let dx := Z.max (- dx) 0 in
  let dy := Z.max (- dy) 0 in
  Eff.of_option ShapeMismatch
    (assign_block x ty h tx w
       (map (fun m => map (slice dx (dx + w)) (slice dy (dy + h) m)) noise)).

(** [0 if i >= len(subseeds) else subseeds[i]], when there are subseeds. *)
Definition subseed_at (i : nat) : option Z :=
  (fun ss => default 0%Z (ss !! i)) <$> subseeds.

(** Lines 222-251: the noise of one seed, blended with the noise of its
    subseed and resized. *)
Definition noise_of_seed (subseed : option Z) (seed : Z) : Rng Tensor3 :=
  subnoise ← match subseed with
             | Some subseed => n ← randn subseed noise_shape; mret (Some n)
             | None => mret None
             end;
  noise ← randn seed noise_shape;
  let noise := match subnoise with
               | Some sn => slerp subseed_strength noise sn
               | None => noise
               end in
  if resized then resize_noise seed noise else mret noise.

(** Lines 253-260: the draws appended to the sampler's noise lists. *)
Definition sampler_draws (seed : Z) (sampler_noises : option (list (list Tensor3)))
    : Rng (option (list (list Tensor3))) :=
  match sampler_noises, p ≫= sampler with
  | Some sns, Some smp =>
      let cnt := number_of_needed_noises smp in
      _ ← (if (0 <? eta)%Z then torch_manual_seed (seed + eta) else mret tt);
      ds ← draw_noises cnt noise_shape;
      mret (Some (zip_with (fun l d => l ++ [d]) sns ds))
  | _, _ => mret None
  end.

(** One turn of the loop over [enumerate(seeds)] (lines 221-262). *)
Definition seed_noise (i : nat) (seed : Z)
    (sampler_noises : option (list (list Tensor3)))
    : Rng (Tensor3 * option (list (list Tensor3))) :=
  noise ← noise_of_seed (subseed_at i) seed;
  sampler_noises ← sampler_draws seed sampler_noises;
  mret (noise, sampler_noises).

Fixpoint seeds_loop (i : nat) (seeds : list Z) (xs : list Tensor3)
    (sampler_noises : option (list (list Tensor3)))
    : Rng (list Tensor3 * option (list (list Tensor3))) :=
  match seeds with
  | [] => mret (xs, sampler_noises)
  | seed :: rest =>
      '(noise, sampler_noises) ← seed_noise i seed sampler_noises;
      seeds_loop (S i) rest (xs ++ [noise]) sampler_noises
  end.

(** Lines 216-219: one empty list per noise the sampler needs, or [None]. *)
Definition initial_sampler_noises (seeds : list Z) : option (list (list Tensor3)) :=
  match p ≫= sampler with
  | Some smp =>
      if bool_decide (1 < length seeds) && enable_batch_seeds opts
         || (0 <? eta)%Z
      then Some (replicate (number_of_needed_noises smp) [])
      else None
  | None => None
  end.

(** The outcomes of the noises of the seeds at positions [i], [i + 1], ...,
    each computed on its own from the state [st], and what a loop makes of
    the outcomes of its turns: the first error, or all the values. *)
Fixpoint noise_outcomes (i : nat) (seeds : list Z) (st : State)
    : list (TorchError + Tensor3) :=
  match seeds with
  | [] => []
  | seed :: rest =>
      (noise_of_seed (subseed_at i) seed st).1 :: noise_outcomes (S i) rest st
  end.

Fixpoint first_error_or_all {E A} (rs : list (E + A)) : E + list A :=
  match rs with
  | [] => inr []
  | inl e :: _ => inl e
  | inr a :: rs =>
      match first_error_or_all rs with
      | inl e => inl e
      | inr l => inr (a :: l)
      end
  end.

(** Lines 264-268: the assignment to [p.sampler.sampler_noises], and the
    batch. *)
Definition stack_noises (xs : list Tensor3)
    (sampler_noises : option (list (list Tensor3))) : Rng (list Tensor3) :=
  _ ← match sampler_noises with
      | Some sns =>
          sns ← Eff.of_option EmptyStack (mapM stack sns);
          Eff.modify (fun st =>
            {| generator := generator st; sampler_noises_attr := Some sns |})
      | None => mret tt
      end;
  Eff.of_option EmptyStack (stack xs).

Definition create_random_tensors (seeds : list Z) : Rng (list Tensor3) :=
  '(xs, sampler_noises) ← seeds_loop 0 seeds [] (initial_sampler_noises seeds);
  stack_noises xs sampler_noises.

End Call.
End Generator.

(** A generator to run the model on: its state is a counter, and each draw
    is the one-entry tensor holding the counter. *)
Definition counter_torch : Torch (RngState := Z) :=
  {| manual_seed := fun seed => seed;
     torch_randn := fun _ st => ([[[IZR st]]], (st + 1)%Z) |}.

End Noise.

(** ** Scoped option overrides (lines 326-355)

    [process_images] changes the global options for the time of one run.
    Its state is the global one: the options and whatever else the
    collaborators own (the loaded weights). *)

Module Overrides.

Section ProcessImages.

Context {Val Res Err World : Type}.

(** Modelled from the spec: [shared.opts], an object of a class that is not
    among the sources.  The "shared configuration object read throughout"
    is the map [opts.data]; [opts.data[k]] reads it and [setattr(opts, k, v)]
    stores [v] under [k]. *)
Record State := {
  opts_data : gmap string Val;
  world : World;
}.

Inductive Exn :=
  | KeyError (k : string)
  | Raised (e : Err).

(** Computations on the global state. *)
#[local] Abbreviation Eff := (Eff.t State Exn).

Definition setattr_opts (k : string) (v : Val) : Eff unit :=
  Eff.modify (fun st =>
    {| opts_data := <[k := v]> (opts_data st); world := world st |}).

(** The request: [p.override_settings], a dict in insertion order, and
    [p.override_settings_restore_afterwards]. *)
Record Request := {
  override_settings : list (string * Val);
  override_settings_restore_afterwards : bool;
}.

Definition dict_get (k : string) (d : list (string * Val)) : option Val :=
  (fun iv => iv.2.2) <$> list_find (fun kv => kv.1 = k) d.

Definition dict_pop (k : string) (d : list (string * Val)) : list (string * Val) :=
  filter (fun kv => kv.1 <> k) d.

(** The collaborators: whether [sd_models.checkpoint_alisases.get(x)] finds
    a checkpoint, the two reloads, and the run itself.  Each may raise and
    may change the state. *)
Record Env := {
  checkpoint_alias_known : option Val -> bool;
  reload_model_weights : Eff unit;
  reload_vae_weights : Eff unit;
  process_images_inner : Request -> Eff Res;
}.

Variable env : Env.

(** [{k: opts.data[k] for k in p.override_settings.keys()}] *)
Fixpoint store_opts (keys : list string) : Eff (list (string * Val)) :=
  match keys with
  | [] => mret []
  | k :: rest =>
      fun st =>
        match opts_data st !! k with
        | Some v => (stored ← store_opts rest; mret ((k, v) :: stored)) st
        | None => Eff.raise (KeyError k) st
        end
  end.

(** Lines 335-342. *)
Fixpoint apply_overrides (items : list (string * Val)) : Eff unit :=
  match items with
  | [] => mret tt
  | (k, v) :: rest =>
      _ ← setattr_opts k v;
      _ ← Eff.when (bool_decide (k = "sd_model_checkpoint")) (reload_model_weights env);
      _ ← Eff.when (bool_decide (k = "sd_vae")) (reload_vae_weights env);
      apply_overrides rest
  end.

(** Lines 349-353. *)
Fixpoint restore_opts (stored : list (string * Val)) : Eff unit :=
  match stored with
  | [] => mret tt
  | (k, v) :: rest =>
      _ ← setattr_opts k v;
      _ ← Eff.when (bool_decide (k = "sd_vae")) (reload_vae_weights env);
      restore_opts rest
  end.

Definition process_images (p : Request) : Eff Res :=
  stored_opts ← store_opts (override_settings p).*1;
  Eff.try_finally
    (p ← (if checkpoint_alias_known env
               (dict_get "sd_model_checkpoint" (override_settings p))
          then mret p
          else
            _ ← reload_model_weights env;
            mret {| override_settings :=
                      dict_pop "sd_model_checkpoint" (override_settings p);
                    override_settings_restore_afterwards :=
                      override_settings_restore_afterwards p |});
     _ ← apply_overrides (override_settings p);
     process_images_inner env p)
    (Eff.when (override_settings_restore_afterwards p) (restore_opts stored_opts)).

(** The reload of the VAE weights returns and leaves the options alone. *)
Definition vae_reload_quiet : Prop :=
  forall st, exists st',
    reload_vae_weights env st = (inr tt, st') /\ opts_data st' = opts_data st.

(** The same of any collaborator. *)
Definition quiet (m : Eff unit) : Prop :=
  forall st, exists st', m st = (inr tt, st') /\ opts_data st' = opts_data st.

(** A computation that leaves alone the options outside [keys], whether
    it returns or raises. *)
Definition frames (keys : list string) {A} (m : Eff A) : Prop :=
  forall st k, k ∉ keys -> opts_data (m st).2 !! k = opts_data st !! k.

End ProcessImages.

Arguments State : clear implicits.
Arguments Exn : clear implicits.
Arguments Request : clear implicits.
Arguments Env : clear implicits.

(** A run to try the model on.  The collaborators reload nothing; the run
    itself changes an option and then fails. *)
Definition failing_env : Env Z unit string unit :=
  {| checkpoint_alias_known := fun _ => false;
     reload_model_weights := mret tt;
     reload_vae_weights := mret tt;
     process_images_inner := fun _ =>
       _ ← setattr_opts "CLIP_stop_at_last_layers" 7%Z;
       Eff.raise (Raised "NansException") |}.

(** The same collaborators with a run that returns. *)
Definition quiet_env : Env Z unit string unit :=
  {| checkpoint_alias_known := fun _ => false;
     reload_model_weights := mret tt;
     reload_vae_weights := mret tt;
     process_images_inner := fun _ => mret tt |}.

Definition clip_skip_request (restore : bool) : Request Z :=
  {| override_settings := [("CLIP_stop_at_last_layers", 2%Z); ("sd_vae", 5%Z)];
     override_settings_restore_afterwards := restore |}.

Definition default_state : State Z unit :=
  {| opts_data := {[ "CLIP_stop_at_last_layers" := 1%Z; "sd_vae" := 0%Z ]};
     world := tt |}.

(** A run whose VAE file for the override [5] cannot be loaded: the reload
    raises while [sd_vae] holds [5]. *)
Definition broken_vae_env : Env Z unit string unit :=
  {| checkpoint_alias_known := fun _ => false;
     reload_model_weights := mret tt;
     reload_vae_weights :=
       st ← Eff.get;
       if bool_decide (opts_data st !! "sd_vae" = Some 5%Z)
       then Eff.raise (Raised "FileNotFoundError")
       else mret tt;
     process_images_inner := fun _ => mret tt |}.

(** A run during which the VAE that was loaded before the call is lost: the
    reload raises once [sd_vae] holds [0] again. *)
Definition lost_vae_env : Env Z unit string unit :=
  {| checkpoint_alias_known := fun _ => false;
     reload_model_weights := mret tt;
     reload_vae_weights :=
       st ← Eff.get;
       if bool_decide (opts_data st !! "sd_vae" = Some 0%Z)
       then Eff.raise (Raised "FileNotFoundError")
       else mret tt;
     process_images_inner := fun _ => mret tt |}.

(** The VAE first, then the layers of CLIP to skip. *)
Definition vae_first_request : Request Z :=
  {| override_settings := [("sd_vae", 5%Z); ("CLIP_stop_at_last_layers", 2%Z)];
     override_settings_restore_afterwards := true |}.

End Overrides.

(** ** The conditioning cache (lines 408-429)

    [cached_uc] and [cached_c] are Python lists of two elements, created
    once per run and updated in place by [get_conds_with_caching], which
    receives one of them by reference: the arguments used last (or [None])
    and the result stored for them.  The compute function belongs to the
    prompt parser; it may raise, and the model logs its invocations. *)

Module CondCache.

Section Cache.

Context {Model Cond Err World : Type}.

(** [(required_prompts, steps)] *)
Definition Key : Type := list string * Z.

Record Cache := {
  cache_0 : option Key;
  cache_1 : option Cond;
}.

(** [[None, None]] *)
Definition fresh : Cache := {| cache_0 := None; cache_1 := None |}.

(** The two lists, by name. *)
Inductive Slot := cached_uc | cached_c.

#[export] Instance slot_eq_dec : EqDecision Slot.
Proof. solve_decision. Defined.

(** The state: the world the compute function works on, the log of its
    invocations, and the two lists. *)
Record State := {
  world : World;
  calls : list Key;
  uc : Cache;
  c : Cache;
}.

#[local] Abbreviation Eff := (Eff.t State Err).

Definition read (cache : Slot) (st : State) : Cache :=
  match cache with
  | cached_uc => uc st
  | cached_c => c st
  end.

Definition write (cache : Slot) (v : Cache) (st : State) : State :=
  match cache with
  | cached_uc => {| world := world st; calls := calls st; uc := v; c := c st |}
  | cached_c => {| world := world st; calls := calls st; uc := uc st; c := v |}
  end.

(** Each list that holds a key holds a result with it. *)
Definition filled (st : State) : Prop :=
  forall cache, cache_0 (read cache st) <> None -> cache_1 (read cache st) <> None.

(** [shared.sd_model] *)
Variable sd_model : World -> Model.

(** [function(shared.sd_model, required_prompts, steps)], logged. *)
Definition invoke (function : Model -> list string -> Z -> World -> (Err + Cond) * World)
    (required_prompts : list string) (steps : Z) : Eff Cond := fun st =>
  let '(r, w) := function (sd_model (world st)) required_prompts steps (world st) in
  (r, {| world := w; calls := calls st ++ [(required_prompts, steps)];
         uc := uc st; c := c st |}).

Definition get_conds_with_caching
    (function : Model -> list string -> Z -> World -> (Err + Cond) * World)
    (required_prompts : list string) (steps : Z) (cache : Slot)
    : Eff (option Cond) :=
  st ← Eff.get;
  if bool_decide (cache_0 (read cache st) <> None)
     && bool_decide (Some (required_prompts, steps) = cache_0 (read cache st))
  then mret (cache_1 (read cache st))
  else
    r ← invoke function required_prompts steps;
    _ ← Eff.modify (fun st =>
           write cache {| cache_0 := cache_0 (read cache st); cache_1 := Some r |} st);
    _ ← Eff.modify (fun st =>
           write cache {| cache_0 := Some (required_prompts, steps);
                          cache_1 := cache_1 (read cache st) |} st);
    st ← Eff.get;
    mret (cache_1 (read cache st)).

End Cache.

Arguments Cache : clear implicits.
Arguments State : clear implicits.

(** A compute function to try the model on: the conditioning is the number
    of prompts plus the steps plus a counter that every call advances. *)
Definition counting_conds (_ : unit) (prompts : list string) (steps : Z)
    (w : Z) : (string + Z) * Z :=
  (inr (Z.of_nat (length prompts) + steps + w)%Z, (w + 1)%Z).

(** The state a run starts in. *)
Definition start : State Z Z :=
  {| world := 0%Z; calls := []; uc := fresh; c := fresh |}.

End CondCache.

(** ** The img2img request (lines 621-806) *)

Module Img2Img.

Section Request.

Context {Image Mask : Type}.

(** The fields the constructor computes in lines 639-661. *)
Record Request := {
  init_images : list Image;
  image_masks : option (list Mask);
  batch_size : nat;
}.

(** [StableDiffusionProcessingImg2ImgEx.__init__]: [None] is the
    [IndexError] of [masks[0]], evaluated for the parent's constructor,
    on an empty list of masks. *)
Definition init_request (init_images : list Image) (masks : option (list Mask))
    : option Request :=
  _ ← match masks with
      | None => Some None
      | Some ms => m ← head ms; Some (Some m)
      end;
  let batch_size := length init_images in
  let image_masks :=
    match masks with
    | Some ms =>
        if bool_decide (0 < length ms) then
          let ms :=
            if bool_decide (length ms < length init_images) then
              match last ms with
              | Some m => ms ++ replicate (batch_size - length ms) m
              | None => ms
              end
            else ms in
          Some (take batch_size ms)
        else Some ms
    | None => None
    end in
  Some {| init_images := init_images;
          image_masks := image_masks;
          batch_size := batch_size |}.

End Request.

Arguments Request : clear implicits.

(** *** Latent masks and the recomposition after sampling

    A latent tensor is the list of its entries; tensors of different shapes
    are not combined ([None]). *)

(** Lines 772-775 on one pixel of the resized mask: divided by 255 and
    rounded to the nearest integer (no pixel lies halfway). *)
Definition latmask_entry (pixel : Z) : R :=
  IZR ((2 * pixel + 255) / 510).

(** Lines 778-779: [mask] is [1.0 - latmask], and [nmask] is [latmask]. *)
Definition latent_masks (pixels : list Z) : list R * list R :=
  (map (fun px => (1.0 - latmask_entry px)%R) pixels, map latmask_entry pixels).

(** Line 802: [samples * self.nmask + self.init_latent * self.mask]. *)
Definition recomposite (samples nmask init_latent mask : list R) : option (list R) :=
  if bool_decide (length nmask = length samples)
     && bool_decide (length init_latent = length samples)
     && bool_decide (length mask = length samples)
  then Some (zip_with Rplus (zip_with Rmult samples nmask)
                            (zip_with Rmult init_latent mask))
  else None.

(** A tensor of shape (B, 4, h, w) as a batch: the list of its B samples,
    each the list of its entries.  [a * b] and [a + b] pair the entries of
    two batches; a batch of one sample is repeated along the other batch
    (broadcasting), and batches of other sizes are not combined ([None]).
    The samples have one shape, that of the latent: the masks are resized to
    it (line 772) and the noise is asked for it (line 786). *)
Definition broadcast (op : R -> R -> R) (a b : list (list R)) : option (list (list R)) :=
  let a' := match a with [x] => replicate (length b) x | _ => a end in
  let b' := match b with [y] => replicate (length a) y | _ => b end in
  if bool_decide (length a' = length b')
  then mapM (fun xy : list R * list R =>
               if bool_decide (length xy.1 = length xy.2)
               then Some (zip_with op xy.1 xy.2)
               else None)
            (zip a' b')
  else None.

(** Lines 785-788, where masks are given: the latent of the images before
    sampling, by [inpainting_fill]; [noise] is the batch that
    [create_random_tensors] returned for [all_seeds[0:B]], [B] the number of
    images. *)
Definition fill_init_latent (inpainting_fill : Z)
    (init_latent mask nmask noise : list (list R)) : option (list (list R)) :=
  if (inpainting_fill =? 2)%Z then
    kept ← broadcast Rmult init_latent mask;
    fresh ← broadcast Rmult noise nmask;
    broadcast Rplus kept fresh
  else if (inpainting_fill =? 3)%Z then broadcast Rmult init_latent mask
  else Some init_latent.

(** *** The mask list as an object

    [masks] is a Python list, passed by reference: [self.image_masks] is
    first the caller's list itself, which [extend] (line 660) lengthens in
    place, and then a new list, the slice of line 661.  Lists live in a
    store, and a variable holds the name of one. *)

Section Store.

Context {Image Mask : Type}.

Definition Store : Type := gmap positive (list Mask).

(** The fields of lines 639-661, with the list [image_masks] by name. *)
Record Object := {
  self_init_images : list Image;
  self_image_masks : option positive;
  self_batch_size : nat;
}.

(** [StableDiffusionProcessingImg2ImgEx.__init__] on the store; [None] is
    the [IndexError] of [masks[0]]. *)
Definition init_in_store (init_images : list Image) (masks : option positive)
    (store : Store) : option (Object * Store) :=
  match masks with
  | None =>
      Some ({| self_init_images := init_images;
               self_image_masks := None;
               self_batch_size := length init_images |}, store)
  | Some l =>
      ms ← store !! l;
      _ ← head ms;
      let batch_size := length init_images in
      if bool_decide (0 < length ms) then
        let store :=
          if bool_decide (length ms < length init_images) then
            match last ms with
            | Some m => <[l := ms ++ replicate (batch_size - length ms) m]> store
            | None => store
            end
          else store in
        ms ← store !! l;
        let sliced := fresh (dom store) in
        Some ({| self_init_images := init_images;
                 self_image_masks := Some sliced;
                 self_batch_size := batch_size |},
              <[sliced := take batch_size ms]> store)
      else
        Some ({| self_init_images := init_images;
                 self_image_masks := Some l;
                 self_batch_size := batch_size |}, store)
  end.

End Store.

Arguments Store : clear implicits.
Arguments Object : clear implicits.

End Img2Img.

(** ** The preparation of masks and images (lines 663-752)

    The first part of [StableDiffusionProcessingImg2ImgEx.init], up to the
    images that are encoded; the latent masks and the fill that follow the
    encoding are [Img2Img.latent_masks] and [Img2Img.fill_init_latent].
    Masks and images are PIL images alike.  The attributes that [init] only
    reads are one record, those it writes another, which is the state.
    The sampler of line 664 is not among them ([Noise.sampler] is), and
    writing the init image to disk (line 713) leaves no trace here. *)

Module Init.

Section Init.

Context {Image Correction Array Hash : Type}.

(** [(x1, y1, x2, y2)] *)
Definition Region : Type := Z * Z * Z * Z.

(** The operations of PIL, numpy, [modules.images] and [modules.masking]. *)
Record Ops := {
  convert_L : Image -> Image;
  invert : Image -> Image;
  gaussian_blur : Z -> Image -> Image;
  get_crop_region : Image -> Z -> Region;
  expand_crop_region : Region -> Z -> Z -> Z -> Z -> Region;
  image_width : Image -> Z;
  image_height : Image -> Z;
  crop : Image -> Region -> Image;
  resize_image : Z -> Image -> Z -> Z -> Image;
  (** lines 695-697: the mask with its values doubled and clipped *)
  clip_doubled : Image -> Image;
  flatten : Image -> Image;
  (** lines 721-724: the image where the mask, inverted, lets it through *)
  paste_masked : Image -> Image -> Image;
  fill : Image -> Image -> Image;
  setup_color_correction : Image -> Correction;
  md5 : Image -> Hash;
  (** lines 738-739 *)
  to_array : Image -> Array;
}.

Record Opts := {
  img2img_color_correction : bool;
  save_init_img : bool;
}.

(** What [init] reads of the request. *)
Record Request := {
  init_images : list Image;
  image_masks : option (list Image);
  resize_mode : Z;
  mask_blur : Z;
  inpainting_fill : Z;
  inpaint_full_res : bool;
  inpaint_full_res_padding : Z;
  inpainting_mask_invert : Z;
  width : Z;
  height : Z;
}.

(** What it writes. *)
Record Fields := {
  masks_for_overlay : list Image;
  overlay_images : option (list Image);
  paste_to : option (Z * Z * Z * Z);
  color_corrections : option (list Correction);
  init_img_hash : option Hash;
  batch_size : nat;
}.

(** [AttributeError]: [append] on an attribute that is [None]. *)
Inductive Exn := IndexError | AttributeError.

#[local] Abbreviation Eff := (Eff.t Fields Exn).

Variable ops : Ops.
Variable opts : Opts.
Variable self : Request.

Definition append_mask_for_overlay (m : Image) : Eff unit :=
  Eff.modify (fun s =>
    {| masks_for_overlay := masks_for_overlay s ++ [m];
       overlay_images := overlay_images s;
       paste_to := paste_to s;
       color_corrections := color_corrections s;
       init_img_hash := init_img_hash s;
       batch_size := batch_size s |}).

Definition set_paste_to (r : Z * Z * Z * Z) : Eff unit :=
  Eff.modify (fun s =>
    {| masks_for_overlay := masks_for_overlay s;
       overlay_images := overlay_images s;
       paste_to := Some r;
       color_corrections := color_corrections s;
       init_img_hash := init_img_hash s;
       batch_size := batch_size s |}).

Definition set_overlay_images (l : option (list Image)) : Eff unit :=
  Eff.modify (fun s =>
    {| masks_for_overlay := masks_for_overlay s;
       overlay_images := l;
       paste_to := paste_to s;
       color_corrections := color_corrections s;
       init_img_hash := init_img_hash s;
       batch_size := batch_size s |}).

Definition set_color_corrections (l : option (list Correction)) : Eff unit :=
  Eff.modify (fun s =>
    {| masks_for_overlay := masks_for_overlay s;
       overlay_images := overlay_images s;
       paste_to := paste_to s;
       color_corrections := l;
       init_img_hash := init_img_hash s;
       batch_size := batch_size s |}).

Definition set_init_img_hash (h : Hash) : Eff unit :=
  Eff.modify (fun s =>
    {| masks_for_overlay := masks_for_overlay s;
       overlay_images := overlay_images s;
       paste_to := paste_to s;
       color_corrections := color_corrections s;
       init_img_hash := Some h;
       batch_size := batch_size s |}).

Definition set_batch_size (n : nat) : Eff unit :=
  Eff.modify (fun s =>
    {| masks_for_overlay := masks_for_overlay s;
       overlay_images := overlay_images s;
       paste_to := paste_to s;
       color_corrections := color_corrections s;
       init_img_hash := init_img_hash s;
       batch_size := n |}).

(** Lines 675-681: the mask in mode L, inverted and blurred as asked. *)
Definition processed_mask (image_mask : Image) : Image :=
  let image_mask := convert_L ops image_mask in
  let image_mask :=
    if bool_decide (inpainting_mask_invert self <> 0%Z)
    then invert ops image_mask else image_mask in
  if (0 <? mask_blur self)%Z
  then gaussian_blur ops (mask_blur self) image_mask else image_mask.

(** Lines 685-687: the region to crop to, from one mask. *)
Definition crop_region_of (image_mask : Image) : Region :=
  let mask := convert_L ops image_mask in
  expand_crop_region ops (get_crop_region ops mask (inpaint_full_res_padding self))
    (width self) (height self) (image_width ops mask) (image_height ops mask).

(** What lines 684 and 694-697 append to [masks_for_overlay] for a mask. *)
Definition mask_for_overlay (image_mask : Image) : Image :=
  if inpaint_full_res self then processed_mask image_mask
  else clip_doubled ops
         (resize_image ops (resize_mode self) (processed_mask image_mask)
            (width self) (height self)).

(** Line 692, from the region of line 687. *)
Definition paste_to_of (image_mask : Image) : Z * Z * Z * Z :=
  let '(x1, y1, x2, y2) := crop_region_of (processed_mask image_mask) in
  (x1, y1, x2 - x1, y2 - y1)%Z.

(** One turn of the loop of lines 674-697; [crop_region] is the variable of
    that name. *)
Definition prepare_mask (image_mask : Image) (crop_region : option Region)
    : Eff (option Region) :=
  let image_mask := processed_mask image_mask in
  if inpaint_full_res self then
    _ ← append_mask_for_overlay image_mask;
    let crop_region := crop_region_of image_mask in
    let '(x1, y1, x2, y2) := crop_region in
    _ ← set_paste_to (x1, y1, x2 - x1, y2 - y1)%Z;
    mret (Some crop_region)
  else
    let image_mask :=
      resize_image ops (resize_mode self) image_mask (width self) (height self) in
    _ ← append_mask_for_overlay (clip_doubled ops image_mask);
    mret crop_region.

Fixpoint prepare_masks (image_masks : list Image) (crop_region : option Region)
    : Eff (option Region) :=
  match image_masks with
  | [] => mret crop_region
  | image_mask :: rest =>
      crop_region ← prepare_mask image_mask crop_region;
      prepare_masks rest crop_region
  end.

(** One turn of the loop of lines 708-741, for the image at position [i]. *)
Definition prepare_image (crop_region : option Region) (add_color_corrections : bool)
    (i : nat) (img : Image) : Eff Array :=
  _ ← Eff.when (save_init_img opts) (set_init_img_hash (md5 ops img));
  let image := flatten ops img in
  let image :=
    if bool_decide (crop_region = None) && bool_decide (resize_mode self <> 3%Z)
    then resize_image ops (resize_mode self) image (width self) (height self)
    else image in
  _ ← match image_masks self with
      | Some _ =>
          s ← Eff.get;
          mask ← Eff.of_option IndexError (masks_for_overlay s !! i);
          overlays ← Eff.of_option AttributeError (overlay_images s);
          set_overlay_images (Some (overlays ++ [paste_masked ops image mask]))
      | None => mret tt
      end;
  let image :=
    match crop_region with
    | Some region =>
        resize_image ops 2 (crop ops image region) (width self) (height self)
    | None => image
    end in
  image ←
    match image_masks self with
    | Some latent_masks =>
        if bool_decide (inpainting_fill self <> 1%Z) then
          latent_mask ← Eff.of_option IndexError (latent_masks !! i);
          mret (fill ops image latent_mask)
        else mret image
    | None => mret image
    end;
  _ ← (if add_color_corrections then
         s ← Eff.get;
         corrections ← Eff.of_option AttributeError (color_corrections s);
         set_color_corrections
           (Some (corrections ++ [setup_color_correction ops image]))
       else mret tt);
  mret (to_array ops image).

Fixpoint prepare_images (crop_region : option Region) (add_color_corrections : bool)
    (i : nat) (imgs : list Image) : Eff (list Array) :=
  match imgs with
  | [] => mret []
  | img :: rest =>
      a ← prepare_image crop_region add_color_corrections i img;
      arrays ← prepare_images crop_region add_color_corrections (S i) rest;
      mret (a :: arrays)
  end.

(** Lines 663-752. *)
Definition init : Eff (list Array) :=
  crop_region ←
    match image_masks self with
    | Some image_masks =>
        crop_region ← prepare_masks image_masks None;
        _ ← set_overlay_images (Some []);
        mret crop_region
    | None => mret None
    end;
  s ← Eff.get;
  let add_color_corrections :=
    img2img_color_correction opts && bool_decide (color_corrections s = None) in
  _ ← Eff.when add_color_corrections (set_color_corrections (Some []));
  imgs ← prepare_images crop_region add_color_corrections 0 (init_images self);
  _ ← set_batch_size (length imgs);
  mret imgs.

End Init.

Arguments Ops : clear implicits.
Arguments Request : clear implicits.
Arguments Fields : clear implicits.

(** Images as text, to run the model on. *)
Definition symbolic_ops : Ops string string string string :=
  {| convert_L := fun image => image;
     invert := fun image => "inverted " +:+ image;
     gaussian_blur := fun _ image => "blurred " +:+ image;
     get_crop_region := fun _ padding => (padding, padding, 64 - padding, 64 - padding)%Z;
     expand_crop_region := fun region _ _ _ _ => region;
     image_width := fun _ => 64%Z;
     image_height := fun _ => 64%Z;
     crop := fun image _ => "cropped " +:+ image;
     resize_image := fun _ image _ _ => "resized " +:+ image;
     clip_doubled := fun image => "doubled " +:+ image;
     flatten := fun image => image;
     paste_masked := fun image mask => image +:+ " through " +:+ mask;
     fill := fun image mask => image +:+ " filled by " +:+ mask;
     setup_color_correction := fun image => "target of " +:+ image;
     md5 := fun image => "md5 of " +:+ image;
     to_array := fun image => image |}.

(** Two images with a mask each, inpainted at full resolution. *)
Definition two_images : Request string :=
  {| init_images := ["a"; "b"];
     image_masks := Some ["mask a"; "mask b"];
     resize_mode := 0;
     mask_blur := 4;
     inpainting_fill := 0;
     inpaint_full_res := true;
     inpaint_full_res_padding := 8;
     inpainting_mask_invert := 0;
     width := 512;
     height := 512 |}.

(** The attributes as the constructors leave them. *)
Definition constructed : Fields string string string :=
  {| masks_for_overlay := [];
     overlay_images := None;
     paste_to := None;
     color_corrections := None;
     init_img_hash := None;
     batch_size := 2 |}.

End Init.

(** ** Overlay compositing (lines 64-81) *)

Module Overlay.

Section ApplyOverlay.

Context {Image : Type}.

(** The image operations of PIL and [modules.images] used here. *)
Record ImageOps := {
  width : Image -> Z;
  height : Image -> Z;
  new_rgba : Z -> Z -> Image;
  resize_image : Z -> Image -> Z -> Z -> Image;
  paste : Image -> Image -> Z * Z -> Image;
  convert : string -> Image -> Image;
  alpha_composite : Image -> Image -> Image;
}.

Variable ops : ImageOps.

(** [l[i]] for a Python index: negative indices count from the end, and
    [None] is the [IndexError]. *)
Definition py_index {A} (l : list A) (i : Z) : option A :=
  if (0 <=? i)%Z then l !! Z.to_nat i
  else if (- Z.of_nat (length l) <=? i)%Z then l !! Z.to_nat (Z.of_nat (length l) + i)
  else None.

Definition apply_overlay (image : Image) (paste_loc : option (Z * Z * Z * Z))
    (index : Z) (overlays : option (list Image)) : option Image :=
  match overlays with
  | None => Some image
  | Some overlays =>
      if (Z.of_nat (length overlays) <=? index)%Z then Some image
      else
        overlay ← py_index overlays index;
        let image :=
          match paste_loc with
          | Some (x, y, w, h) =>
              let base_image := new_rgba ops (width ops overlay) (height ops overlay) in
              let image := resize_image ops 1 image w h in
              paste ops base_image image (x, y)
          | None => image
          end in
        let image := convert ops "RGBA" image in
        let image := alpha_composite ops image overlay in
        Some (convert ops "RGB" image)
  end.

End ApplyOverlay.

Arguments ImageOps : clear implicits.

(** Images as text, to run the model on: each operation writes itself down. *)
Definition symbolic_ops : ImageOps string :=
  {| width := fun _ => 64%Z;
     height := fun _ => 64%Z;
     new_rgba := fun _ _ => "blank";
     resize_image := fun _ image _ _ => "resized " +:+ image;
     paste := fun base image _ => image +:+ " on " +:+ base;
     convert := fun mode image => image;
     alpha_composite := fun image overlay => overlay +:+ " over " +:+ image |}.

End Overlay.

(** ** The main loop (lines 358-606)

    [process_images_inner] is modelled as far as it decides what is run and
    what is returned: the expansion of prompts and seeds, the loop over the
    iterations with its two exits, the grid, and the result.  What a
    collaborator does (the request's [init] and [sample], decoding, the
    per-image post-processing, saving, the script hooks) is a field of the
    environment; a collaborator works on [shared.state] and on a world of
    its own, and may raise.  The model keeps a trace of what it did. *)

Module Orchestrator.

Section Run.

Context {Image Err World : Type}.

(** [p.prompt] and [p.negative_prompt]: a string or a list of strings. *)
Inductive Prompt :=
  | Single (s : string)
  | Many (l : list string).

(** [p.seed] and [p.subseed]: [None] or [''], an integer, or a list. *)
Inductive Seed :=
  | Unset
  | Scalar (z : Z)
  | Listed (l : list Z).

Record Request := {
  prompt : Prompt;
  negative_prompt : Prompt;
  seed : Seed;
  subseed : Seed;
  subseed_strength : Q;
  batch_size : nat;
  n_iter : nat;
  has_scripts : bool;
  do_not_save_grid : bool;
}.

Record Opts := {
  return_grid : bool;
  grid_save : bool;
  grid_only_if_multiple : bool;
  enable_pnginfo : bool;
}.

(** [shared.state], as far as the loop reads and writes it. *)
Record Shared := {
  skipped : bool;
  interrupted : bool;
  job_count : Z;
}.

Inductive Exn :=
  | AssertionError
  | IndexError
  | Raised (e : Err).

(** What one iteration adds: images, their infotexts, and comments. *)
Record BatchOutput := {
  batch_images : list Image;
  batch_infotexts : list string;
  batch_comments : list string;
}.

(** What the trace records: the interruption flag as read at the start of
    an iteration, a batch sampled and post-processed to the end with what
    it added, and a grid assembled from images. *)
Inductive Event :=
  | Polled (n : nat) (flag : bool)
  | Sampled (n : nat) (b : BatchOutput)
  | GridAssembled (images : list Image).

Record State := {
  shared : Shared;
  world : World;
  trace : list Event;
}.

#[local] Abbreviation Eff := (Eff.t State Exn).

(** A collaborator sees [shared.state] and its world, never the trace. *)
Definition Ext (A : Type) : Type := Shared * World -> (Err + A) * (Shared * World).

Definition call {A} (f : Ext A) : Eff A := fun st =>
  let '(r, (sh, w)) := f (shared st, world st) in
  (match r with inl e => inl (Raised e) | inr a => inr a end,
   {| shared := sh; world := w; trace := trace st |}).

Definition log (e : Event) : Eff unit :=
  Eff.modify (fun st =>
    {| shared := shared st; world := world st; trace := trace st ++ [e] |}).

Definition set_shared (f : Shared -> Shared) : Eff unit :=
  Eff.modify (fun st =>
    {| shared := f (shared st); world := world st; trace := trace st |}).

(** The slices of one iteration. *)
Record Batch := {
  prompts : list string;
  negative_prompts : list string;
  seeds : list Z;
  subseeds : list Z;
}.

Record Env := {
  (** [int(random.randrange(4294967294))] *)
  randrange : Ext Z;
  apply_styles_to_prompt : string -> string;
  apply_negative_styles_to_prompt : string -> string;
  (** lines 366-372 and 399-437: garbage collection, the hijack, the
      embeddings, [p.scripts.process(p)] and [p.init(...)] *)
  prepare : list string -> list Z -> list Z -> Ext unit;
  before_process_batch : nat -> Batch -> Ext unit;
  (** lines 463-574: conditioning, [p.sample], decoding and the
      post-processing of each image of the batch *)
  run_batch : nat -> Batch -> Ext BatchOutput;
  (** [state.nextjob()] *)
  nextjob : Ext unit;
  (** the text of [create_infotext] from the looked-up prompt, negative
      prompt, seed and variation seed *)
  format_infotext : string -> string -> Z -> option Z -> string;
  (** [images.image_grid(output_images, p.batch_size)] *)
  image_grid : list Image -> nat -> Ext Image;
  (** [image.info["parameters"] = text] *)
  set_parameters : Image -> string -> Image;
  (** [images.save_image(grid, ...)] with the first seed and prompt *)
  save_grid : Image -> Z -> string -> string -> Ext unit;
  (** lines 596-599 *)
  deactivate_extra_networks : Ext unit;
  (** [p.scripts.postprocess(p, res)] *)
  postprocess : Ext unit;
}.

Variable env : Env.
Variable opts : Opts.

(** Lines 278-282. *)
Definition get_fixed_seed (seed : Seed) : Eff (Z + list Z) :=
  match seed with
  | Unset => z ← call (randrange env); mret (inl z)
  | Scalar z =>
      if bool_decide (z = (-1)%Z) then z ← call (randrange env); mret (inl z)
      else mret (inl z)
  | Listed l => mret (inr l)
  end.

(** What [get_fixed_seed] returned, stored in the request. *)
Definition as_seed (s : Z + list Z) : Seed :=
  match s with
  | inl z => Scalar z
  | inr l => Listed l
  end.

(** Lines 285-287. *)
Definition fix_seed (p : Request) : Eff Request :=
  fixed_seed ← get_fixed_seed (seed p);
  fixed_subseed ← get_fixed_seed (subseed p);
  mret {| prompt := prompt p;
          negative_prompt := negative_prompt p;
          seed := as_seed fixed_seed;
          subseed := as_seed fixed_subseed;
          subseed_strength := subseed_strength p;
          batch_size := batch_size p;
          n_iter := n_iter p;
          has_scripts := has_scripts p;
          do_not_save_grid := do_not_save_grid p |}.

(** Lines 376-384. *)
Definition expand_prompts (style : string -> string) (count : nat) (prompt : Prompt)
    : list string :=
  match prompt with
  | Many l => map style l
  | Single s => replicate count (style s)
  end.

(** Lines 386-389. *)
Definition expand_seeds (seed : Z + list Z) (subseed_strength : Q)
    (all_prompts : list string) : list Z :=
  match seed with
  | inr l => l
  | inl seed =>
      map (fun x => (seed + (if Qeq_bool subseed_strength 0 then Z.of_nat x else 0))%Z)
          (seq 0 (length all_prompts))
  end.

(** Lines 391-394. *)
Definition expand_subseeds (subseed : Z + list Z) (all_prompts : list string)
    : list Z :=
  match subseed with
  | inr l => l
  | inl subseed => map (fun x => (subseed + Z.of_nat x)%Z) (seq 0 (length all_prompts))
  end.

(** The request with its expanded lists, as the loop reads it. *)
Record Expanded := {
  request : Request;
  all_prompts : list string;
  all_negative_prompts : list string;
  all_seeds : list Z;
  all_subseeds : list Z;
}.

(** Lines 376-394: the lists of the whole run. *)
Definition expand (p : Request) (seed subseed : Z + list Z) : Expanded :=
  let count := batch_size p * n_iter p in
  let expanded := expand_prompts (apply_styles_to_prompt env) count (prompt p) in
  {| request := p;
     all_prompts := expanded;
     all_negative_prompts :=
       expand_prompts (apply_negative_styles_to_prompt env) count (negative_prompt p);
     all_seeds := expand_seeds seed (subseed_strength p) expanded;
     all_subseeds := expand_subseeds subseed expanded |}.

Definition index_or_raise {A} (l : list A) (i : nat) : Eff A :=
  Eff.of_option IndexError (l !! i).

(** Lines 290-323, with the lookups that may fail in the order of the
    source. *)
Definition create_infotext (p : Expanded) (iteration position_in_batch : nat)
    : Eff string :=
  let index := position_in_batch + iteration * batch_size (request p) in
  seed ← index_or_raise (all_seeds p) index;
  variation ←
    (if Qeq_bool (subseed_strength (request p)) 0 then mret None
     else s ← index_or_raise (all_subseeds p) index; mret (Some s));
  negative ← index_or_raise (all_negative_prompts p) index;
  prompt ← index_or_raise (all_prompts p) index;
  mret (format_infotext env prompt negative seed variation).

(** [l[n * size : (n + 1) * size]] *)
Definition batch_slice {A} (n size : nat) (l : list A) : list A :=
  take size (drop (n * size) l).

(** What the loop has collected so far. *)
Record Outputs := {
  output_images : list Image;
  infotexts : list string;
  comments : list string;
}.

(** [comments[comment] = 1] for each comment: a dict used as an ordered set. *)
Definition add_comments (cs new : list string) : list string :=
  foldl (fun acc c => if bool_decide (c ∈ acc) then acc else acc ++ [c]) cs new.

(** The outputs with those of one more batch. *)
Definition collect (out : Outputs) (b : BatchOutput) : Outputs :=
  {| output_images := output_images out ++ batch_images b;
     infotexts := infotexts out ++ batch_infotexts b;
     comments := add_comments (comments out) (batch_comments b) |}.

(** Lines 443-576: the iterations from [n] on, [todo] of them. *)
Fixpoint iterations (p : Expanded) (todo n : nat) (out : Outputs) : Eff Outputs :=
  match todo with
  | O => mret out
  | S todo =>
      _ ← set_shared (fun sh =>
             if skipped sh
             then {| skipped := false; interrupted := interrupted sh;
                     job_count := job_count sh |}
             else sh);
      st ← Eff.get;
      _ ← log (Polled n (interrupted (shared st)));
      if interrupted (shared st) then mret out
      else
        let size := batch_size (request p) in
        let batch := {| prompts := batch_slice n size (all_prompts p);
                        negative_prompts := batch_slice n size (all_negative_prompts p);
                        seeds := batch_slice n size (all_seeds p);
                        subseeds := batch_slice n size (all_subseeds p) |} in
        _ ← Eff.when (has_scripts (request p)) (call (before_process_batch env n batch));
        if bool_decide (length (prompts batch) = 0) then mret out
        else
          b ← call (run_batch env n batch);
          _ ← log (Sampled n b);
          _ ← call (nextjob env);
          iterations p todo (S n) (collect out b)
  end.

(** Lines 580-594. *)
Definition assemble_grid (p : Expanded) (out : Outputs) : Eff (Outputs * nat) :=
  let index_of_first_image := 0 in
  let unwanted_grid_because_of_img_count :=
    bool_decide (length (output_images out) < 2) && grid_only_if_multiple opts in
  if (return_grid opts || grid_save opts)
     && negb (do_not_save_grid (request p))
     && negb unwanted_grid_because_of_img_count
  then
    grid ← call (image_grid env (output_images out) (batch_size (request p)));
    _ ← log (GridAssembled (output_images out));
    '(grid, out, index_of_first_image) ←
      (if return_grid opts then
         text ← create_infotext p 0 0;
         let grid := if enable_pnginfo opts then set_parameters env grid text else grid in
         mret (grid,
               {| output_images := grid :: output_images out;
                  infotexts := text :: infotexts out;
                  comments := comments out |},
               1)
       else mret (grid, out, index_of_first_image));
    _ ← (if grid_save opts then
           seed ← index_or_raise (all_seeds p) 0;
           prompt ← index_or_raise (all_prompts p) 0;
           text ← create_infotext p 0 0;
           call (save_grid env grid seed prompt text)
         else mret tt);
    mret (out, index_of_first_image)
  else mret (out, index_of_first_image).

(** The text of ["\n\n"]. *)
Definition two_newlines : string :=
  String "010"%char (String "010"%char EmptyString).

(** The fields of [Processed] that the run fills in. *)
Record Processed := {
  images : list Image;
  res_seed : Z;
  res_subseed : Z;
  info : string;
  res_comments : string;
  index_of_first_image : nat;
  res_infotexts : list string;
  res_all_prompts : list string;
  res_all_negative_prompts : list string;
  res_all_seeds : list Z;
  res_all_subseeds : list Z;
}.

(** Lines 361-364: the prompt list is not empty.  (A prompt is never
    [None] here.) *)
Definition check_prompt (p : Request) : Eff unit :=
  match prompt p with
  | Many [] => Eff.raise AssertionError
  | _ => mret tt
  end.

(** Lines 361-440: up to the loop. *)
Definition begin (p : Request) : Eff Expanded :=
  _ ← check_prompt p;
  seed ← get_fixed_seed (seed p);
  subseed ← get_fixed_seed (subseed p);
  let p := expand p seed subseed in
  _ ← call (prepare env (all_prompts p) (all_seeds p) (all_subseeds p));
  _ ← set_shared (fun sh =>
         if bool_decide (job_count sh = (-1)%Z)
         then {| skipped := skipped sh; interrupted := interrupted sh;
                 job_count := Z.of_nat (n_iter (request p)) |}
         else sh);
  mret p.

(** Lines 580-606: from the grid on. *)
Definition finish (p : Expanded) (out : Outputs) : Eff Processed :=
  '(out, index_of_first_image) ← assemble_grid p out;
  _ ← call (deactivate_extra_networks env);
  seed0 ← index_or_raise (all_seeds p) 0;
  info ← create_infotext p 0 0;
  subseed0 ← index_or_raise (all_subseeds p) 0;
  let res :=
    {| images := output_images out;
       res_seed := seed0;
       res_subseed := subseed0;
       info := info;
       res_comments := String.concat "" (map (String.append two_newlines) (comments out));
       index_of_first_image := index_of_first_image;
       res_infotexts := match infotexts out with [] => [info] | l => l end;
       res_all_prompts := all_prompts p;
       res_all_negative_prompts := all_negative_prompts p;
       res_all_seeds := all_seeds p;
       res_all_subseeds := all_subseeds p |} in
  _ ← Eff.when (has_scripts (request p)) (call (postprocess env));
  mret res.

Definition process_images_inner (p : Request) : Eff Processed :=
  p ← begin p;
  out ← iterations p (n_iter (request p)) 0
          {| output_images := []; infotexts := []; comments := [] |};
  finish p out.

(** *** Reading the trace *)

(** The state a run starts in. *)
Definition start (sh : Shared) (w : World) : State :=
  {| shared := sh; world := w; trace := [] |}.

(** The batches sampled, with their iterations. *)
Definition sampled (t : list Event) : list (nat * BatchOutput) :=
  omap (fun e => match e with Sampled n b => Some (n, b) | _ => None end) t.

(** The flag as read, with the iterations it was read at. *)
Definition polled (t : list Event) : list (nat * bool) :=
  omap (fun e => match e with Polled n flag => Some (n, flag) | _ => None end) t.

(** The image lists grids were assembled from. *)
Definition grids (t : list Event) : list (list Image) :=
  omap (fun e => match e with GridAssembled imgs => Some imgs | _ => None end) t.

(** The images and the infotexts the sampled batches added, in order. *)
Definition produced_images (t : list Event) : list Image :=
  concat ((fun nb => batch_images nb.2) <$> sampled t).

Definition produced_infotexts (t : list Event) : list string :=
  concat ((fun nb => batch_infotexts nb.2) <$> sampled t).

(** The events of iterations [n], [n + 1], ... that ran to their end. *)
Fixpoint loop_events (n : nat) (bs : list BatchOutput) : list Event :=
  match bs with
  | [] => []
  | b :: bs => Polled n false :: Sampled n b :: loop_events (S n) bs
  end.

(** The collaborators called after the loop return. *)
Definition quiet_after_loop : Prop :=
  (forall imgs size s, exists g s', image_grid env imgs size s = (inr g, s')) /\
  (forall g seed prompt text s, exists s', save_grid env g seed prompt text s = (inr tt, s')) /\
  (forall s, exists s', deactivate_extra_networks env s = (inr tt, s')) /\
  (forall s, exists s', postprocess env s = (inr tt, s')).

(** Every list of the run has a first element. *)
Definition lists_nonempty (p : Request) : Prop :=
  0 < batch_size p * n_iter p /\
  negative_prompt p <> Many [] /\
  seed p <> Listed [] /\
  subseed p <> Listed [].

End Run.

Arguments Request : clear implicits.
Arguments Event : clear implicits.
Arguments Exn : clear implicits.
Arguments State : clear implicits.
Arguments Ext : clear implicits.
Arguments Env : clear implicits.
Arguments Expanded : clear implicits.
Arguments Outputs : clear implicits.
Arguments Processed : clear implicits.
Arguments BatchOutput : clear implicits.

(** A run to try the model on.  Images are texts: a batch returns the
    seeds it was given, and the grid says how many images it tiles.  The
    interruption flag is raised while the batch of the iteration
    [interrupt_during] is sampled. *)
Definition studio_env (interrupt_during : nat) : Env string string unit :=
  {| randrange := fun s => (inr 42%Z, s);
     apply_styles_to_prompt := fun s => s;
     apply_negative_styles_to_prompt := fun s => s;
     prepare := fun _ _ _ s => (inr tt, s);
     before_process_batch := fun _ _ s => (inr tt, s);
     run_batch := fun n batch '(sh, w) =>
       (inr {| batch_images := pretty <$> seeds batch;
               batch_infotexts := prompts batch;
               batch_comments := [] |},
        (if bool_decide (n = interrupt_during)
         then {| skipped := skipped sh; interrupted := true;
                 job_count := job_count sh |}
         else sh, w));
     nextjob := fun s => (inr tt, s);
     format_infotext := fun prompt _ seed _ => prompt +:+ ", Seed: " +:+ pretty seed;
     image_grid := fun imgs _ s => (inr ("grid of " +:+ pretty (length imgs)), s);
     set_parameters := fun image _ => image;
     save_grid := fun _ _ _ _ s => (inr tt, s);
     deactivate_extra_networks := fun s => (inr tt, s);
     postprocess := fun s => (inr tt, s) |}.

(** Four iterations of two images each, from seed 100. *)
Definition studio_request : Request :=
  {| prompt := Single "a photo";
     negative_prompt := Single "";
     seed := Scalar 100;
     subseed := Scalar 7;
     subseed_strength := 0;
     batch_size := 2;
     n_iter := 4;
     has_scripts := true;
     do_not_save_grid := false |}.

Definition studio_opts : Opts :=
  {| return_grid := true;
     grid_save := false;
     grid_only_if_multiple := true;
     enable_pnginfo := true |}.

Definition idle : Shared :=
  {| skipped := false; interrupted := false; job_count := (-1)%Z |}.

End Orchestrator.

(** ** The result object (lines 107-190)

    The class [Processed], as far as its constructor computes: the fields
    copied from the request and from the model are left out. *)

Module Result.

(** The arguments [seed] and [subseed]: [None], the text [''], an integer,
    or a list of integers. *)
Inductive SeedArg :=
  | NoneSeed
  | EmptyText
  | IntSeed (z : Z)
  | ListSeed (l : list Z).

Inductive Exn :=
  | IndexError
  | ValueError.

(** [l or fallback] for [l] a list or [None]; as [None] and the empty list
    are both false, an optional list is a list here. *)
Definition py_or {A} (l fallback : list A) : list A :=
  match l with
  | [] => fallback
  | _ => l
  end.

(** Lines 143-144: [x if type(x) != list else x[0]]. *)
Definition first_prompt (x : Orchestrator.Prompt) : Exn + string :=
  match x with
  | Orchestrator.Single s => inr s
  | Orchestrator.Many l =>
      match head l with
      | Some s => inr s
      | None => inl IndexError
      end
  end.

(** Lines 145-146: [int(x if type(x) != list else x[0]) if x is not None
    else -1]. *)
Definition int_seed (x : SeedArg) : Exn + Z :=
  match x with
  | NoneSeed => inr (-1)%Z
  | EmptyText => inl ValueError
  | IntSeed z => inr z
  | ListSeed l =>
      match head l with
      | Some z => inr z
      | None => inl IndexError
      end
  end.

Section Class.

Context {Image : Type}.

Record Processed := {
  images : list Image;
  prompt : string;
  negative_prompt : string;
  seed : Z;
  subseed : Z;
  info : string;
  comments : string;
  batch_size : nat;
  index_of_first_image : nat;
  all_prompts : list string;
  all_negative_prompts : list string;
  all_seeds : list Z;
  all_subseeds : list Z;
  infotexts : list string;
}.

(** [Processed.__init__]; [p] is the request with the lists of the run. *)
Definition init (p : Orchestrator.Expanded) (images_list : list Image)
    (seed_arg : SeedArg) (info_arg : string) (subseed_arg : SeedArg)
    (all_prompts_arg all_negative_prompts_arg : list string)
    (all_seeds_arg all_subseeds_arg : list Z) (index_of_first_image_arg : nat)
    (infotexts_arg : list string) (comments_arg : string) : Exn + Processed :=
  match first_prompt (Orchestrator.prompt (Orchestrator.request p)) with
  | inl e => inl e
  | inr self_prompt =>
  match first_prompt (Orchestrator.negative_prompt (Orchestrator.request p)) with
  | inl e => inl e
  | inr self_negative_prompt =>
  match int_seed seed_arg with
  | inl e => inl e
  | inr self_seed =>
  match int_seed subseed_arg with
  | inl e => inl e
  | inr self_subseed =>
      inr {| images := images_list;
             prompt := self_prompt;
             negative_prompt := self_negative_prompt;
             seed := self_seed;
             subseed := self_subseed;
             info := info_arg;
             comments := comments_arg;
             batch_size := Orchestrator.batch_size (Orchestrator.request p);
             index_of_first_image := index_of_first_image_arg;
             all_prompts :=
               py_or all_prompts_arg (py_or (Orchestrator.all_prompts p) [self_prompt]);
             all_negative_prompts :=
               py_or all_negative_prompts_arg
                 (py_or (Orchestrator.all_negative_prompts p) [self_negative_prompt]);
             all_seeds :=
               py_or all_seeds_arg (py_or (Orchestrator.all_seeds p) [self_seed]);
             all_subseeds :=
               py_or all_subseeds_arg (py_or (Orchestrator.all_subseeds p) [self_subseed]);
             infotexts := py_or infotexts_arg [info_arg] |}
  end end end end.

(** The two lookups of [js] that may fail (lines 157 and 159):
    [self.all_prompts[0]] and [self.all_negative_prompts[0]]. *)
Definition js_first_prompts (self : Processed) : option (string * string) :=
  first ← head (all_prompts self);
  first_negative ← head (all_negative_prompts self);
  Some (first, first_negative).

Context {Err World : Type}.

Inductive MethodExn :=
  | ZeroDivisionError
  | FromInfotext (e : Orchestrator.Exn Err).

(** [Processed.infotext] (lines 189-190), for an index that is not
    negative.  The prompts, seeds and subseeds are those of the result, the
    negative prompts and the batch size of the index those of [p]. *)
Definition infotext (env : Orchestrator.Env Image Err World) (self : Processed)
    (p : Orchestrator.Expanded) (index : nat)
    : Eff.t (Orchestrator.State Image World) MethodExn string :=
  if bool_decide (batch_size self = 0) then Eff.raise ZeroDivisionError
  else fun st =>
    let position_in_batch := index mod batch_size self in
    let iteration := index / batch_size self in
    match Orchestrator.create_infotext env
            {| Orchestrator.request := Orchestrator.request p;
               Orchestrator.all_prompts := all_prompts self;
               Orchestrator.all_negative_prompts := Orchestrator.all_negative_prompts p;
               Orchestrator.all_seeds := all_seeds self;
               Orchestrator.all_subseeds := all_subseeds self |}
            iteration position_in_batch st with
    | (inl e, st') => (inl (FromInfotext e), st')
    | (inr text, st') => (inr text, st')
    end.

End Class.

Arguments Processed : clear implicits.
Arguments MethodExn : clear implicits.

End Result.

(** ** The first pass of the old high-resolution fix (lines 609-618)

    Python's floats are real numbers here, as the entries of tensors are:
    the division, the square root and the products are exact. *)

Module HiresFix.

Inductive MathError :=
  | ZeroDivisionError
  | ValueError.

(** [math.ceil] *)
Definition ceil (x : R) : Z := (1 - up (- x))%Z.

(** [ZeroDivisionError] is the division by a pixel count of 0, and
    [ValueError] the square root of a negative quotient. *)
Definition old_hires_fix_first_pass_dimensions (width height : Z)
    : MathError + Z * Z :=
  let desired_pixel_count := (512 * 512)%Z in
  let actual_pixel_count := (width * height)%Z in
  if (actual_pixel_count =? 0)%Z then inl ZeroDivisionError
  else if (actual_pixel_count <? 0)%Z then inl ValueError
  else
    let scale := sqrt (IZR desired_pixel_count / IZR actual_pixel_count) in
    let width := (ceil (scale * IZR width / 64) * 64)%Z in
    let height := (ceil (scale * IZR height / 64) * 64)%Z in
    inr (width, height).

End HiresFix.

(** * Properties *)

Lemma sqrt_1_plus_0 : sqrt (1 * 1 + 0 * 0) = 1%R.
Proof.
  replace (1 * 1 + 0 * 0)%R with (1 * 1)%R by lra.
  apply sqrt_square; lra.
Qed.

Lemma sqrt_4_plus_0 : sqrt (2 * 2 + 0 * 0) = 2%R.
Proof.
  replace (2 * 2 + 0 * 0)%R with (2 * 2)%R by lra.
  apply sqrt_square; lra.
Qed.

Lemma parallel_rows_take_lerp (val : R) :
  slerp val parallel_low parallel_high =
  Tensor.add (Tensor.scale parallel_low val) (Tensor.scale parallel_high (1 - val)).
Proof.
  unfold slerp.
  destruct (Rgt_dec _ _) as [_ | Hn]; [reflexivity | exfalso; apply Hn].
  cbn. rewrite sqrt_1_plus_0, sqrt_4_plus_0.
  unfold Tensor.mean. cbn. lra.
Qed.

(** ** Computations that may raise *)

(** What [≫=] does, step by step. *)
Lemma bind_unfold {S E A B} (m : Eff.t S E A) (f : A -> Eff.t S E B) (st : S) :
  (m ≫= f) st =
  match m st with
  | (inr a, st') => f a st'
  | (inl e, st') => (inl e, st')
  end.
Proof. reflexivity. Qed.

Lemma bind_returns {S E A B} (m : Eff.t S E A) (f : A -> Eff.t S E B) (st st' : S) (b : B) :
  (m ≫= f) st = (inr b, st') ->
  exists a st1, m st = (inr a, st1) /\ f a st1 = (inr b, st').
Proof.
  rewrite bind_unfold. destruct (m st) as [[e | a] st1]; [discriminate |]. eauto.
Qed.

(** ** Noise generation *)

Section NoiseProperties.

Import Noise.

Context {RngState : Type} (torch : Torch (RngState := RngState)).

Implicit Types (st : State (RngState := RngState)).

#[local] Abbreviation Rng := (Eff.t (State (RngState := RngState)) TorchError).

Lemma resets_respects {A} (m : Rng A) : resets m -> respects m.
Proof. intros Hm st1 st2 _. apply Hm. Qed.

Lemma respects_ret {A} (a : A) : respects (mret a : Rng A).
Proof. intros st1 st2 Hag. split; [reflexivity | exact Hag]. Qed.

Lemma respects_of_option {A} (e : TorchError) (o : option A) :
  respects (Eff.of_option e o : Rng A).
Proof. destruct o; intros st1 st2 Hag; (split; [reflexivity | exact Hag]). Qed.

Lemma respects_bind {A B} (m : Rng A) (f : A -> Rng B) :
  respects m -> (forall a, respects (f a)) -> respects (m ≫= f).
Proof.
  intros Hm Hf st1 st2 Hag. rewrite !bind_unfold.
  destruct (Hm st1 st2 Hag) as [Hr Hst].
  destruct (m st1) as [[e1 | a1] s1], (m st2) as [[e2 | a2] s2];
    cbn in Hr, Hst; try discriminate.
  - injection Hr as ->. split; [reflexivity | exact Hst].
  - injection Hr as ->. now apply Hf.
Qed.

Lemma resets_bind {A B} (m : Rng A) (f : A -> Rng B) :
  resets m -> (forall a, respects (f a)) -> resets (m ≫= f).
Proof.
  intros Hm Hf st1 st2. rewrite !bind_unfold.
  destruct (Hm st1 st2) as [Hr Hst].
  destruct (m st1) as [[e1 | a1] s1], (m st2) as [[e2 | a2] s2];
    cbn in Hr, Hst; try discriminate.
  - injection Hr as ->. split; [reflexivity | exact Hst].
  - injection Hr as ->. now apply Hf.
Qed.

Lemma respects_if {A} (c : bool) (m1 m2 : Rng A) :
  respects m1 -> respects m2 -> respects (if c then m1 else m2).
Proof. now destruct c. Qed.

(** Seeding fixes the generator, whatever it was. *)
Lemma resets_manual_seed seed : resets (torch_manual_seed torch seed).
Proof. intros st1 st2. split; reflexivity. Qed.

(** An unseeded draw is the next draw of the generator it finds. *)
Lemma respects_randn_without_seed sh : respects (randn_without_seed torch sh).
Proof.
  intros st1 st2 Hag. unfold randn_without_seed. rewrite Hag.
  destruct (torch_randn torch sh (generator st2)) as [t g]. split; reflexivity.
Qed.

(** A seeded draw forgets the generator state it starts from. *)
Lemma resets_randn seed sh : resets (randn torch seed sh).
Proof.
  apply resets_bind; [apply resets_manual_seed |].
  intros _. apply respects_randn_without_seed.
Qed.

Create HintDb noise.
#[local] Hint Resolve respects_ret respects_of_option respects_if
  respects_randn_without_seed resets_respects resets_manual_seed resets_randn : noise.
#[local] Hint Extern 2 (respects (_ ≫= _)) => apply respects_bind; [| intros] : noise.
#[local] Hint Extern 1 (respects (let _ := _ in _)) => cbv zeta : noise.

Lemma respects_draw_noises cnt sh : respects (draw_noises torch cnt sh).
Proof. induction cnt as [| cnt IH]; cbn [draw_noises]; auto 10 with noise. Qed.

Section Call.

Variables (opts : Opts) (shape : Shape) (subseeds : option (list Z)).
Variables (subseed_strength : R) (seed_resize_from_h seed_resize_from_w : Z).
Variable p : option Processing.

#[local] Abbreviation seed_noise' :=
  (seed_noise torch opts shape subseeds subseed_strength
     seed_resize_from_h seed_resize_from_w p).
#[local] Abbreviation seeds_loop' :=
  (seeds_loop torch opts shape subseeds subseed_strength
     seed_resize_from_h seed_resize_from_w p).
#[local] Abbreviation create_random_tensors' :=
  (create_random_tensors torch opts shape subseeds subseed_strength
     seed_resize_from_h seed_resize_from_w p).

Lemma respects_resize_noise seed noise :
  respects (resize_noise torch shape seed_resize_from_h seed_resize_from_w seed noise).
Proof. unfold resize_noise. auto 10 with noise. Qed.

(** The noise of a seed starts with a seeded draw: it is fixed by the
    seed and the subseed, and so is the generator it leaves. *)
Lemma resets_noise_of_seed subseed seed :
  resets (noise_of_seed torch shape subseed_strength
            seed_resize_from_h seed_resize_from_w subseed seed).
Proof.
  pose proof respects_resize_noise.
  unfold noise_of_seed. destruct subseed as [subseed |].
  - apply resets_bind.
    + apply resets_bind; [apply resets_randn | intros; apply respects_ret].
    + intros subnoise. auto 20 with noise.
  - intros st1 st2. rewrite !(bind_unfold (mret None)). cbn -[mbind].
    apply resets_bind; [apply resets_randn |].
    intros noise. auto 20 with noise.
Qed.

Lemma respects_sampler_draws seed sns :
  respects (sampler_draws torch opts shape seed_resize_from_h seed_resize_from_w p seed sns).
Proof.
  pose proof respects_draw_noises.
  unfold sampler_draws.
  destruct sns as [sns' |], (p ≫= sampler) as [smp |]; auto 20 with noise.
Qed.

(** So the whole turn of the loop is fixed by the seed. *)
Lemma resets_seed_noise i seed sns : resets (seed_noise' i seed sns).
Proof.
  unfold seed_noise. apply resets_bind; [apply resets_noise_of_seed |].
  intros noise. apply respects_bind; [apply respects_sampler_draws |].
  intros sns'. apply respects_ret.
Qed.

Lemma respects_seeds_loop seeds : forall i xs sns, respects (seeds_loop' i seeds xs sns).
Proof.
  induction seeds as [| seed rest IH]; intros i xs sns; cbn [seeds_loop].
  - apply respects_ret.
  - apply respects_bind; [apply resets_respects, resets_seed_noise |].
    intros [noise sns']. apply IH.
Qed.

Lemma resets_seeds_loop i seed rest xs sns : resets (seeds_loop' i (seed :: rest) xs sns).
Proof.
  cbn [seeds_loop]. apply resets_bind; [apply resets_seed_noise |].
  intros [noise sns']. apply respects_seeds_loop.
Qed.

(** The end of a call writes the sampler's attribute and reads nothing. *)
Lemma respects_stack_noises xs sns : respects (stack_noises (RngState := RngState) xs sns).
Proof.
  unfold stack_noises. destruct sns as [sns |]; [| auto 10 with noise].
  apply respects_bind; [| auto with noise].
  apply respects_bind; [auto with noise |].
  intros sns' st1 st2 Hag. split; [reflexivity | exact Hag].
Qed.

Lemma stack_noises_outcome xs sns st1 st2 :
  (stack_noises (RngState := RngState) xs sns st1).1 = (stack_noises xs sns st2).1.
Proof.
  unfold stack_noises, mbind, Eff.bind.
  destruct sns as [sns |]; cbn; [destruct (mapM stack sns); cbn |];
    destruct (stack xs); reflexivity.
Qed.

(** *** The batch, seed by seed *)

Lemma draw_noises_returns cnt sh st :
  exists ds st', draw_noises torch cnt sh st = (inr ds, st').
Proof.
  revert st. induction cnt as [| cnt IH]; intros st; cbn [draw_noises].
  - eexists _, _. reflexivity.
  - rewrite bind_unfold. unfold randn_without_seed at 1.
    destruct (torch_randn torch sh (generator st)) as [d g].
    rewrite bind_unfold.
    destruct (IH {| generator := g; sampler_noises_attr := sampler_noises_attr st |})
      as (ds & st' & ->).
    eexists _, _. reflexivity.
Qed.

(** The draws for the sampler never fail, and leave no list empty. *)
Lemma sampler_draws_returns seed sns st :
  exists sns' st',
    sampler_draws torch opts shape seed_resize_from_h seed_resize_from_w p seed sns st
      = (inr sns', st') /\
    forall l, sns' = Some l -> Forall (fun n => n <> []) l.
Proof.
  unfold sampler_draws.
  destruct sns as [sns |], (p ≫= sampler) as [smp |];
    try (eexists _, _; split; [reflexivity | discriminate]).
  rewrite bind_unfold.
  set (m := if (0 <? eta opts)%Z then _ else _).
  assert (Hm : exists st1, m st = (inr tt, st1)).
  { unfold m. destruct (0 <? eta opts)%Z; eexists; reflexivity. }
  destruct Hm as [st1 ->]. rewrite bind_unfold.
  destruct (draw_noises_returns (number_of_needed_noises smp)
              (noise_shape shape seed_resize_from_h seed_resize_from_w) st1)
    as (ds & st2 & ->).
  eexists _, _. split; [reflexivity |].
  intros l [= <-]. clear. revert ds.
  induction sns as [| n sns IH]; intros [| d ds]; cbn; constructor.
  - now destruct n.
  - apply IH.
Qed.

Lemma mapM_stack_nonempty (l : list (list Tensor.Tensor3)) :
  Forall (fun n => n <> []) l -> mapM stack l = Some l.
Proof.
  induction 1 as [| n l Hn _ IH]; [reflexivity |].
  cbn. destruct n; [contradiction |]. cbn. now rewrite IH.
Qed.

Lemma stack_noises_returns xs sns st :
  xs <> [] ->
  (forall l, sns = Some l -> Forall (fun n => n <> []) l) ->
  (stack_noises (RngState := RngState) xs sns st).1 = inr xs.
Proof.
  intros Hxs Hsns. unfold stack_noises. rewrite bind_unfold.
  assert (Hstack : forall st', (Eff.of_option EmptyStack (stack xs) : Rng _) st' = (inr xs, st')).
  { intros st'. destruct xs; [contradiction | reflexivity]. }
  destruct sns as [l |]; cbn -[mbind stack].
  - rewrite bind_unfold, (mapM_stack_nonempty l) by now apply Hsns.
    cbn -[stack]. now rewrite Hstack.
  - now rewrite Hstack.
Qed.

(** The loop returns the noises of its seeds, each the one the seed gives
    on its own, or the first error among them. *)
Lemma seeds_loop_outcome seeds st0 : forall i xs sns st,
  match first_error_or_all
          (noise_outcomes torch shape subseeds subseed_strength
             seed_resize_from_h seed_resize_from_w i seeds st0) with
  | inl e => (seeds_loop' i seeds xs sns st).1 = inl e
  | inr ns =>
      exists sns' st',
        seeds_loop' i seeds xs sns st = (inr (xs ++ ns, sns'), st') /\
        (seeds <> [] \/ (forall l, sns = Some l -> Forall (fun n => n <> []) l) ->
         forall l, sns' = Some l -> Forall (fun n => n <> []) l)
  end.
Proof.
  induction seeds as [| seed rest IH]; intros i xs sns st.
  - cbn. eexists _, _. rewrite app_nil_r. split; [reflexivity |].
    now intros [? | ?].
  - cbn [noise_outcomes first_error_or_all seeds_loop].
    unfold seed_noise. rewrite !bind_unfold.
    destruct (resets_noise_of_seed (subseed_at subseeds i) seed st st0) as [Hr _].
    destruct (noise_of_seed _ _ _ _ _ _ _ st0) as [[e | noise] st0'];
      destruct (noise_of_seed _ _ _ _ _ _ _ st) as [[e1 | noise1] st1];
      cbn in Hr; try discriminate; injection Hr as ->; [reflexivity |].
    rewrite bind_unfold.
    destruct (sampler_draws_returns seed sns st1) as (sns1 & st2 & -> & Hsns1).
    cbn -[seeds_loop].
    specialize (IH (S i) (xs ++ [noise]) sns1 st2).
    destruct (first_error_or_all _) as [e | ns]; [exact IH |].
    destruct IH as (sns' & st' & -> & Hsns').
    eexists _, _. rewrite <- (assoc_L (++)). split; [reflexivity |].
    intros _. apply Hsns'. now right.
Qed.

(** A batch of at least one seed is the list of the noises of its seeds. *)
Lemma create_random_tensors_outcome seed rest st st0 :
  (create_random_tensors' (seed :: rest) st).1
  = first_error_or_all
      (noise_outcomes torch shape subseeds subseed_strength
         seed_resize_from_h seed_resize_from_w 0 (seed :: rest) st0).
Proof.
  unfold create_random_tensors. rewrite bind_unfold.
  pose proof (seeds_loop_outcome (seed :: rest) st0 0 []
                (initial_sampler_noises opts p (seed :: rest)) st) as Hloop.
  destruct (first_error_or_all _) as [e | ns] eqn:Hns.
  - destruct (seeds_loop' _ _ _ _ _) as [[e' | v] st']; cbn in Hloop;
      [| discriminate]. injection Hloop as ->. reflexivity.
  - destruct Hloop as (sns' & st' & -> & Hsns'). cbn -[stack_noises].
    apply stack_noises_returns; [| now apply Hsns'; left].
    cbn in Hns. destruct (noise_of_seed _ _ _ _ _ _ _ st0).1; [discriminate |].
    destruct (first_error_or_all _); [discriminate |]. now injection Hns as <-.
Qed.

Lemma create_random_tensors_forgets seeds st1 st2 :
  (create_random_tensors' seeds st1).1 = (create_random_tensors' seeds st2).1.
Proof.
  destruct seeds as [| seed rest].
  - unfold create_random_tensors. cbn [seeds_loop]. rewrite !bind_unfold. cbn -[stack_noises].
    apply stack_noises_outcome.
  - unfold create_random_tensors.
    apply resets_bind; [apply resets_seeds_loop |].
    intros [xs sns]. apply respects_stack_noises.
Qed.

(** *** What a call raises *)

(** No seed, nothing to stack: [torch.stack] raises, on the sampler's empty
    lists or on the empty batch. *)
Lemma create_random_tensors_nil st :
  (create_random_tensors' [] st).1 = inl EmptyStack /\
  generator (create_random_tensors' [] st).2 = generator st.
Proof.
  unfold create_random_tensors. cbn [seeds_loop]. rewrite bind_unfold.
  cbn -[stack_noises initial_sampler_noises]. unfold stack_noises.
  destruct (initial_sampler_noises opts p []) as [sns |]; [| split; reflexivity].
  rewrite !bind_unfold. destruct (mapM stack sns); split; reflexivity.
Qed.

Lemma first_error_or_all_length {E A} (rs : list (E + A)) l :
  first_error_or_all rs = inr l -> length l = length rs.
Proof.
  revert l. induction rs as [| [e | a] rs IH]; intros l; cbn.
  - now intros [= <-].
  - discriminate.
  - destruct (first_error_or_all rs); [discriminate |].
    intros [= <-]. cbn. f_equal. now apply IH.
Qed.

Lemma noise_outcomes_length i seeds st :
  length (noise_outcomes torch shape subseeds subseed_strength
            seed_resize_from_h seed_resize_from_w i seeds st) = length seeds.
Proof. revert i. induction seeds as [| seed rest IH]; intros i; cbn; [| rewrite IH]; reflexivity. Qed.

Lemma create_random_tensors_length seeds st x :
  (create_random_tensors' seeds st).1 = inr x -> length x = length seeds.
Proof.
  destruct seeds as [| seed rest].
  - destruct (create_random_tensors_nil st) as [-> _]. discriminate.
  - rewrite (create_random_tensors_outcome seed rest st st).
    intros H%first_error_or_all_length. now rewrite noise_outcomes_length in H.
Qed.

(** *** What a call writes *)

(** A computation that leaves [p.sampler.sampler_noises] as it was. *)
Definition keeps_attr {A} (m : Rng A) : Prop :=
  forall st, sampler_noises_attr (m st).2 = sampler_noises_attr st.

Lemma keeps_attr_ret {A} (a : A) : keeps_attr (mret a : Rng A).
Proof. intros st. reflexivity. Qed.

Lemma keeps_attr_of_option {A} (e : TorchError) (o : option A) :
  keeps_attr (Eff.of_option e o : Rng A).
Proof. destruct o; intros st; reflexivity. Qed.

Lemma keeps_attr_bind {A B} (m : Rng A) (f : A -> Rng B) :
  keeps_attr m -> (forall a, keeps_attr (f a)) -> keeps_attr (m ≫= f).
Proof.
  intros Hm Hf st. rewrite bind_unfold. specialize (Hm st).
  destruct (m st) as [[e | a] st1]; cbn in *; [exact Hm |].
  now rewrite Hf.
Qed.

Lemma keeps_attr_if {A} (c : bool) (m1 m2 : Rng A) :
  keeps_attr m1 -> keeps_attr m2 -> keeps_attr (if c then m1 else m2).
Proof. now destruct c. Qed.

Lemma keeps_attr_manual_seed seed : keeps_attr (torch_manual_seed torch seed).
Proof. intros st. reflexivity. Qed.

Lemma keeps_attr_randn_without_seed sh : keeps_attr (randn_without_seed torch sh).
Proof.
  intros st. unfold randn_without_seed.
  destruct (torch_randn torch sh (generator st)). reflexivity.
Qed.

Create HintDb attr.
#[local] Hint Resolve keeps_attr_ret keeps_attr_of_option keeps_attr_if
  keeps_attr_manual_seed keeps_attr_randn_without_seed : attr.
#[local] Hint Extern 2 (keeps_attr (_ ≫= _)) => apply keeps_attr_bind; [| intros] : attr.
#[local] Hint Extern 1 (keeps_attr (let _ := _ in _)) => cbv zeta : attr.
#[local] Hint Unfold randn resize_noise : attr.

Lemma keeps_attr_draw_noises cnt sh : keeps_attr (draw_noises torch cnt sh).
Proof. induction cnt as [| cnt IH]; cbn [draw_noises]; auto 10 with attr. Qed.

Lemma keeps_attr_seed_noise i seed sns : keeps_attr (seed_noise' i seed sns).
Proof.
  pose proof keeps_attr_draw_noises.
  unfold seed_noise, noise_of_seed, sampler_draws, resize_noise, randn.
  destruct (subseed_at subseeds i), sns, (p ≫= sampler); auto 30 with attr.
Qed.

Lemma keeps_attr_seeds_loop seeds : forall i xs sns, keeps_attr (seeds_loop' i seeds xs sns).
Proof.
  induction seeds as [| seed rest IH]; intros i xs sns; cbn [seeds_loop].
  - apply keeps_attr_ret.
  - apply keeps_attr_bind; [apply keeps_attr_seed_noise |].
    intros [noise sns']. apply IH.
Qed.

(** Without lists to fill, the loop hands none to the end of the call. *)
Lemma seeds_loop_none seeds : forall i xs st xs' sns' st',
  seeds_loop' i seeds xs None st = (inr (xs', sns'), st') -> sns' = None.
Proof.
  induction seeds as [| seed rest IH]; intros i xs st xs' sns' st'; cbn [seeds_loop].
  - now intros [= _ <- _].
  - unfold seed_noise. rewrite !bind_unfold.
    destruct (noise_of_seed _ _ _ _ _ _ _ st) as [[e | noise] st1]; [discriminate |].
    cbn -[seeds_loop]. apply IH.
Qed.

Lemma create_random_tensors_keeps_attr seeds st :
  initial_sampler_noises opts p seeds = None ->
  sampler_noises_attr (create_random_tensors' seeds st).2 = sampler_noises_attr st.
Proof.
  intros Hinit. unfold create_random_tensors. rewrite Hinit, bind_unfold.
  pose proof (keeps_attr_seeds_loop seeds 0 [] None st) as Hloop.
  destruct (seeds_loop' 0 seeds [] None st) as [[e | [xs sns]] st1] eqn:Hl; [exact Hloop |].
  apply seeds_loop_none in Hl as ->. cbn in Hloop. rewrite <- Hloop.
  unfold stack_noises. rewrite bind_unfold. cbn. destruct (stack xs); reflexivity.
Qed.

Lemma draw_noises_length cnt sh : forall st ds st',
  draw_noises torch cnt sh st = (inr ds, st') -> length ds = cnt.
Proof.
  induction cnt as [| cnt IH]; intros st ds st'; cbn [draw_noises].
  - now intros [= <- _].
  - rewrite bind_unfold. unfold randn_without_seed at 1.
    destruct (torch_randn torch sh (generator st)) as [d g].
    rewrite bind_unfold.
    destruct (draw_noises torch cnt sh _) as [[e | ds'] st1] eqn:Hd; [discriminate |].
    intros [= <- _]. cbn. f_equal. eapply IH, Hd.
Qed.

(** One more noise on each of the sampler's lists. *)
Lemma sampler_draws_grows smp seed (sns : list (list Tensor.Tensor3)) k st r st' :
  p ≫= sampler = Some smp ->
  length sns = number_of_needed_noises smp ->
  Forall (fun n => length n = k) sns ->
  sampler_draws torch opts shape seed_resize_from_h seed_resize_from_w p seed (Some sns) st
    = (inr r, st') ->
  exists l, r = Some l /\ length l = number_of_needed_noises smp /\
            Forall (fun n => length n = S k) l.
Proof.
  intros Hsmp Hlen Hk. unfold sampler_draws. rewrite Hsmp, bind_unfold.
  set (m := if (0 <? eta opts)%Z then _ else _).
  assert (Hm : exists st1, m st = (inr tt, st1)).
  { unfold m. destruct (0 <? eta opts)%Z; eexists; reflexivity. }
  destruct Hm as [st1 ->]. rewrite bind_unfold.
  destruct (draw_noises torch _ _ st1) as [[e | ds] st2] eqn:Hd; [discriminate |].
  apply draw_noises_length in Hd. intros [= <- _].
  eexists. split; [reflexivity |]. split.
  - rewrite length_zip_with. lia.
  - clear -Hk. revert ds. induction Hk as [| n sns Hn _ IH]; intros [| d ds]; cbn;
      constructor; [| apply IH].
    rewrite length_app. cbn. lia.
Qed.

Lemma seeds_loop_grows smp seeds : forall i xs (sns : list (list Tensor.Tensor3)) k st xs' r st',
  p ≫= sampler = Some smp ->
  length sns = number_of_needed_noises smp ->
  Forall (fun n => length n = k) sns ->
  seeds_loop' i seeds xs (Some sns) st = (inr (xs', r), st') ->
  exists l, r = Some l /\ length l = number_of_needed_noises smp /\
            Forall (fun n => length n = k + length seeds) l.
Proof.
  induction seeds as [| seed rest IH]; intros i xs sns k st xs' r st' Hsmp Hlen Hk;
    cbn [seeds_loop].
  - intros [= _ <- _]. exists sns. rewrite Nat.add_0_r. auto.
  - unfold seed_noise. rewrite !bind_unfold.
    destruct (noise_of_seed _ _ _ _ _ _ _ st) as [[e | noise] st1]; [discriminate |].
    rewrite bind_unfold.
    destruct (sampler_draws _ _ _ _ _ _ _ _ st1) as [[e | sns1] st2] eqn:Hd; [discriminate |].
    destruct (sampler_draws_grows smp seed sns k st1 sns1 st2 Hsmp Hlen Hk Hd)
      as (l1 & -> & Hlen1 & Hk1).
    cbn -[seeds_loop]. intros Hrest.
    destruct (IH _ _ _ _ _ _ _ _ Hsmp Hlen1 Hk1 Hrest) as (l & -> & Hl & Hkl).
    exists l. split; [reflexivity |]. split; [exact Hl |].
    cbn [length]. eapply Forall_impl; [exact Hkl |]. cbn. intros; lia.
Qed.

Lemma create_random_tensors_writes_attr smp seeds st x :
  p ≫= sampler = Some smp ->
  bool_decide (1 < length seeds) && enable_batch_seeds opts || (0 <? eta opts)%Z = true ->
  (create_random_tensors' seeds st).1 = inr x ->
  exists sns,
    sampler_noises_attr (create_random_tensors' seeds st).2 = Some sns /\
    length sns = number_of_needed_noises smp /\
    Forall (fun n => length n = length seeds) sns.
Proof.
  intros Hsmp Hcond. unfold create_random_tensors, initial_sampler_noises.
  rewrite Hsmp, Hcond, bind_unfold.
  destruct (seeds_loop' 0 seeds [] _ st) as [[e | [xs r]] st1] eqn:Hl; [discriminate |].
  apply (seeds_loop_grows smp) with (k := 0) in Hl as (l & -> & Hlen & Hk);
    [| exact Hsmp | apply length_replicate | apply Forall_replicate; reflexivity].
  unfold stack_noises. rewrite !bind_unfold.
  destruct (mapM stack l) as [l' |] eqn:Hm; [| discriminate].
  assert (l' = l) as ->.
  { clear -Hm. revert l' Hm. induction l as [| n l IH]; intros l'; cbn.
    - now intros [= <-].
    - destruct n; [discriminate |]. cbn. destruct (mapM stack l); [| discriminate].
      cbn. intros [= <-]. f_equal. now apply IH. }
  cbn. destruct (stack xs); [| discriminate]. cbn. intros _. eauto.
Qed.

(** *** The sampler's noises, seed by seed *)

Lemma create_random_tensors_single seed st n st' :
  (eta opts <= 0)%Z ->
  noise_of_seed torch shape subseed_strength seed_resize_from_h seed_resize_from_w
    (subseed_at subseeds 0) seed st = (inr n, st') ->
  create_random_tensors torch opts shape subseeds subseed_strength
     seed_resize_from_h seed_resize_from_w p [seed] st = (inr [n], st').
Proof.
  intros Heta Hn. unfold create_random_tensors, initial_sampler_noises.
  cbn [length]. rewrite (bool_decide_eq_false_2 (1 < 1)) by lia.
  rewrite (proj2 (Z.ltb_ge 0 (eta opts))) by lia. cbn [andb orb].
  assert (Hnone : match p ≫= sampler with Some _ => None | None => None end
                  = (None : option (list (list Tensor.Tensor3)))) by (now destruct (p ≫= sampler)).
  rewrite Hnone. cbn [seeds_loop]. unfold seed_noise. rewrite !bind_unfold, Hn.
  cbn. destruct st'. reflexivity.
Qed.

Lemma create_random_tensors_pair smp s1 s2 st x :
  p ≫= sampler = Some smp ->
  enable_batch_seeds opts = true ->
  (eta opts <= 0)%Z ->
  (create_random_tensors torch opts shape subseeds subseed_strength
     seed_resize_from_h seed_resize_from_w p [s1; s2] st).1 = inr x ->
  exists n1 sta dsA sta' n2 stb dsB stb',
    noise_of_seed torch shape subseed_strength seed_resize_from_h seed_resize_from_w
      (subseed_at subseeds 0) s1 st = (inr n1, sta) /\
    draw_noises torch (number_of_needed_noises smp)
      (noise_shape shape seed_resize_from_h seed_resize_from_w) sta = (inr dsA, sta') /\
    noise_of_seed torch shape subseed_strength seed_resize_from_h seed_resize_from_w
      (subseed_at subseeds 1) s2 sta' = (inr n2, stb) /\
    draw_noises torch (number_of_needed_noises smp)
      (noise_shape shape seed_resize_from_h seed_resize_from_w) stb = (inr dsB, stb') /\
    sampler_noises_attr
      (create_random_tensors torch opts shape subseeds subseed_strength
         seed_resize_from_h seed_resize_from_w p [s1; s2] st).2
    = Some (zip_with (fun a b => [a; b]) dsA dsB).
Proof.
  intros Hsmp Hbatch Heta. unfold create_random_tensors, initial_sampler_noises.
  rewrite Hsmp. cbn [length]. rewrite (bool_decide_eq_true_2 (1 < 2)) by lia.
  rewrite Hbatch. cbn [andb orb seeds_loop]. unfold seed_noise, sampler_draws.
  rewrite Hsmp, (proj2 (Z.ltb_ge 0 (eta opts))) by lia.
  rewrite !bind_unfold.
  destruct (noise_of_seed _ _ _ _ _ _ s1 st) as [[e | n1] sta] eqn:Hn1; [discriminate |].
  rewrite !bind_unfold. cbn [mret Eff.ret]. rewrite !bind_unfold.
  destruct (draw_noises _ _ _ sta) as [[e | dsA] sta'] eqn:HdA; [discriminate |].
  cbn -[noise_of_seed draw_noises stack_noises mbind]. rewrite !bind_unfold.
  destruct (noise_of_seed _ _ _ _ _ _ s2 sta') as [[e | n2] stb] eqn:Hn2; [discriminate |].
  rewrite !bind_unfold. cbn -[noise_of_seed draw_noises stack_noises mbind].
  rewrite !bind_unfold.
  destruct (draw_noises _ _ _ stb) as [[e | dsB] stb'] eqn:HdB; [discriminate |].
  cbn -[noise_of_seed draw_noises stack_noises mbind].
  intros _. exists n1, sta, dsA, sta', n2, stb, dsB, stb'.
  split_and!; try reflexivity; try assumption.
  apply draw_noises_length in HdA.
  assert (Hpairs : zip_with (fun l d => l ++ [d])
                     (zip_with (fun l d => l ++ [d])
                        (replicate (number_of_needed_noises smp) []) dsA) dsB
                   = zip_with (fun a b : Tensor.Tensor3 => [a; b]) dsA dsB).
  { rewrite <- HdA. clear. revert dsB.
    induction dsA as [| a dsA IH]; intros [| b dsB]; cbn; try reflexivity.
    now rewrite IH. }
  rewrite Hpairs. unfold stack_noises. rewrite !bind_unfold.
  rewrite mapM_stack_nonempty; [reflexivity |].
  clear. revert dsB. induction dsA as [| a dsA IH]; intros [| b dsB]; cbn; constructor;
    [discriminate | apply IH].
Qed.

End Call.

(** The comment of lines 212-215, for the sampler's noises: with batch seeds
    enabled (and no seed delta), a batch of two seeds that returns has
    written for the sampler, noise by noise, the pair of the draws that the
    generator gives next after the first seed is generated alone and after
    the second seed is generated alone, which are the draws a sampler left
    without pre-generated noises takes. *)
Theorem sampler_noises_batch_independence
    (opts : Opts) (shape : Shape) (subseeds : option (list Z)) (subseed_strength : R)
    (seed_resize_from_h seed_resize_from_w : Z)
    (smp : Sampler) (s1 s2 : Z) (st st1 st2 : State) (x : list Tensor.Tensor3) :
  let p := Some {| sampler := Some smp |} in
  let generate subseeds seeds :=
    create_random_tensors torch opts shape subseeds subseed_strength
      seed_resize_from_h seed_resize_from_w p seeds in
  let draws_after st :=
    (draw_noises torch (number_of_needed_noises smp)
       (noise_shape shape seed_resize_from_h seed_resize_from_w) st).1 in
  enable_batch_seeds opts = true ->
  (eta opts <= 0)%Z ->
  (generate subseeds [s1; s2] st).1 = inr x ->
  exists ds1 ds2,
    draws_after (generate (take 1 <$> subseeds) [s1] st1).2 = inr ds1 /\
    draws_after (generate ((take 1 ∘ drop 1) <$> subseeds) [s2] st2).2 = inr ds2 /\
    sampler_noises_attr (generate subseeds [s1; s2] st).2
    = Some (zip_with (fun a b => [a; b]) ds1 ds2).
Proof.
  intros p generate draws_after Hbatch Heta Hret.
  destruct (create_random_tensors_pair opts shape subseeds subseed_strength
              seed_resize_from_h seed_resize_from_w p smp s1 s2 st x
              eq_refl Hbatch Heta Hret)
    as (n1 & sta & dsA & sta' & n2 & stb & dsB & stb' & Hn1 & HdA & Hn2 & HdB & Hattr).
  exists dsA, dsB. split_and!; [| | exact Hattr].
  - destruct (resets_noise_of_seed shape subseed_strength seed_resize_from_h
                seed_resize_from_w (subseed_at subseeds 0) s1 st1 st) as [Hr Hg].
    rewrite Hn1 in Hr, Hg.
    destruct (noise_of_seed _ _ _ _ _ _ s1 st1) as [[e | n1'] st1a] eqn:Hn1'; [discriminate |].
    cbn in Hr, Hg. injection Hr as ->.
    unfold generate.
    rewrite (create_random_tensors_single opts shape (take 1 <$> subseeds)
               subseed_strength seed_resize_from_h seed_resize_from_w p s1 st1 n1 st1a Heta).
    + unfold draws_after. cbn [snd].
      destruct (respects_draw_noises (number_of_needed_noises smp)
                  (noise_shape shape seed_resize_from_h seed_resize_from_w) st1a sta Hg)
        as [-> _].
      now rewrite HdA.
    + rewrite <- Hn1'. f_equal. destruct subseeds as [[| ? ?] |]; reflexivity.
  - destruct (resets_noise_of_seed shape subseed_strength seed_resize_from_h
                seed_resize_from_w (subseed_at subseeds 1) s2 st2 sta') as [Hr Hg].
    rewrite Hn2 in Hr, Hg.
    destruct (noise_of_seed _ _ _ _ _ _ s2 st2) as [[e | n2'] st2a] eqn:Hn2'; [discriminate |].
    cbn in Hr, Hg. injection Hr as ->.
    unfold generate.
    rewrite (create_random_tensors_single opts shape ((take 1 ∘ drop 1) <$> subseeds)
               subseed_strength seed_resize_from_h seed_resize_from_w p s2 st2 n2 st2a Heta).
    + unfold draws_after. cbn [snd].
      destruct (respects_draw_noises (number_of_needed_noises smp)
                  (noise_shape shape seed_resize_from_h seed_resize_from_w) st2a stb Hg)
        as [-> _].
      now rewrite HdB.
    + rewrite <- Hn2'. f_equal. destruct subseeds as [[| ? [| ? ?]] |]; reflexivity.
Qed.


End NoiseProperties.

(** C3: [create_random_tensors] is deterministic and carries no hidden
    state.  Two calls with the same shape, seeds, subseeds, subseed strength,
    seed-resize parameters, options and request return the same outcome (the
    same batch, or the same error) whatever the global generator and the
    sampler's noise attribute hold when each starts; in particular a second
    call, started in the state the first one left, returns what the first
    returned. *)
Theorem create_random_tensors_deterministic
    {RngState : Type} (torch : Noise.Torch (RngState := RngState))
    (opts : Noise.Opts) (shape : Noise.Shape) (subseeds : option (list Z))
    (subseed_strength : R) (seed_resize_from_h seed_resize_from_w : Z)
    (p : option Noise.Processing) (seeds : list Z)
    (st1 st2 : Noise.State (RngState := RngState)) :
  let call := Noise.create_random_tensors torch opts shape subseeds
                subseed_strength seed_resize_from_h seed_resize_from_w p seeds in
  (call st1).1 = (call st2).1 /\ (call (call st1).2).1 = (call st1).1.
Proof.
  intros call; split; apply create_random_tensors_forgets.
Qed.

Example create_random_tensors_batch :
  Noise.create_random_tensors Noise.counter_torch
    {| Noise.eta_noise_seed_delta := None; Noise.enable_batch_seeds := true |}
    (1, 1, 1)%Z None 0 0 0
    (Some {| Noise.sampler := Some {| Noise.number_of_needed_noises := 2 |} |})
    [100; 101]%Z
    {| Noise.generator := 7%Z; Noise.sampler_noises_attr := None |}
  = (inr [[[[100]]]; [[[101]]]]%R,
     {| Noise.generator := 104%Z;
        Noise.sampler_noises_attr :=
          Some [[[[[101]]]; [[[102]]]]; [[[[102]]]; [[[103]]]]]%R |}).
Proof. reflexivity. Qed.

(** Batch-seed independence (the comment of lines 212-219): the batch for
    two seeds is the batch for the first followed by the batch for the
    second, each generated alone with its own subseed, whatever the options
    and the generator's state; an error of either is the error of the batch,
    the first seed's first. *)
Theorem create_random_tensors_batch_independence
    {RngState : Type} (torch : Noise.Torch (RngState := RngState))
    (opts : Noise.Opts) (shape : Noise.Shape) (subseeds : option (list Z))
    (subseed_strength : R) (seed_resize_from_h seed_resize_from_w : Z)
    (p : option Noise.Processing) (s1 s2 : Z)
    (st st1 st2 : Noise.State (RngState := RngState)) :
  let generate subseeds seeds :=
    Noise.create_random_tensors torch opts shape subseeds
      subseed_strength seed_resize_from_h seed_resize_from_w p seeds in
  (generate subseeds [s1; s2] st).1
  = match (generate (take 1 <$> subseeds) [s1] st1).1,
          (generate ((take 1 ∘ drop 1) <$> subseeds) [s2] st2).1 with
    | inr x1, inr x2 => inr (x1 ++ x2)
    | inl e, _ | inr _, inl e => inl e
    end.
Proof.
  intros generate. unfold generate.
  rewrite (create_random_tensors_outcome _ _ _ subseeds _ _ _ _ s1 [s2] st st),
    (create_random_tensors_outcome _ _ _ (take 1 <$> subseeds) _ _ _ _ s1 [] st1 st),
    (create_random_tensors_outcome _ _ _ ((take 1 ∘ drop 1) <$> subseeds) _ _ _ _ s2 [] st2 st).
  cbn [Noise.noise_outcomes Noise.first_error_or_all].
  replace (Noise.subseed_at (take 1 <$> subseeds) 0) with (Noise.subseed_at subseeds 0)
    by (destruct subseeds as [[| ? ?] |]; reflexivity).
  replace (Noise.subseed_at ((take 1 ∘ drop 1) <$> subseeds) 0)
    with (Noise.subseed_at subseeds 1)
    by (destruct subseeds as [[| ? [| ? ?]] |]; reflexivity).
  destruct (Noise.noise_of_seed _ _ _ _ _ _ s1 st).1 as [e1 | x1]; [reflexivity |].
  destruct (Noise.noise_of_seed _ _ _ _ _ _ s2 st).1 as [e2 | x2]; reflexivity.
Qed.

(** [torch.stack] of no tensor: without seeds the call raises, and the
    generator is as it was. *)
Theorem create_random_tensors_no_seeds
    {RngState : Type} (torch : Noise.Torch (RngState := RngState))
    (opts : Noise.Opts) (shape : Noise.Shape) (subseeds : option (list Z))
    (subseed_strength : R) (seed_resize_from_h seed_resize_from_w : Z)
    (p : option Noise.Processing) (st : Noise.State (RngState := RngState)) :
  let call := Noise.create_random_tensors torch opts shape subseeds
                subseed_strength seed_resize_from_h seed_resize_from_w p [] in
  (call st).1 = inl Noise.EmptyStack /\
  Noise.generator (call st).2 = Noise.generator st.
Proof. apply create_random_tensors_nil. Qed.

(** A batch that is returned holds one noise per seed, in the order of the
    seeds. *)
Theorem create_random_tensors_one_noise_per_seed
    {RngState : Type} (torch : Noise.Torch (RngState := RngState))
    (opts : Noise.Opts) (shape : Noise.Shape) (subseeds : option (list Z))
    (subseed_strength : R) (seed_resize_from_h seed_resize_from_w : Z)
    (p : option Noise.Processing) (seeds : list Z)
    (st : Noise.State (RngState := RngState)) (x : list Tensor.Tensor3) :
  (Noise.create_random_tensors torch opts shape subseeds subseed_strength
     seed_resize_from_h seed_resize_from_w p seeds st).1 = inr x ->
  length x = length seeds.
Proof. apply create_random_tensors_length. Qed.

Lemma create_random_tensors_two_noises :
  let call :=
    Noise.create_random_tensors Noise.counter_torch
      {| Noise.eta_noise_seed_delta := None; Noise.enable_batch_seeds := true |}
      (1, 1, 1)%Z (Some [5%Z]) 0 0 0 None [100; 101]%Z in
  let st := {| Noise.generator := 7%Z; Noise.sampler_noises_attr := None |} in
  exists x, (call st).1 = inr x /\ length x = 2.
Proof.
  cbv zeta. eexists. split; [reflexivity |].
  eapply (create_random_tensors_one_noise_per_seed Noise.counter_torch
            {| Noise.eta_noise_seed_delta := None; Noise.enable_batch_seeds := true |}
            (1, 1, 1)%Z (Some [5%Z]) 0 0 0 None [100; 101]%Z
            {| Noise.generator := 7%Z; Noise.sampler_noises_attr := None |}).
  reflexivity.
Defined.

(** [p.sampler.sampler_noises] is left as it was when there is no request
    or no sampler, and when the noise seed delta is not positive and the
    batch has at most one seed or batch seeds are disabled, whether the call
    returns or raises. *)
Theorem create_random_tensors_leaves_sampler_noises
    {RngState : Type} (torch : Noise.Torch (RngState := RngState))
    (opts : Noise.Opts) (shape : Noise.Shape) (subseeds : option (list Z))
    (subseed_strength : R) (seed_resize_from_h seed_resize_from_w : Z)
    (p : option Noise.Processing) (seeds : list Z)
    (st : Noise.State (RngState := RngState)) :
  p ≫= Noise.sampler = None \/
    ((length seeds <= 1 \/ Noise.enable_batch_seeds opts = false) /\
     (default 0 (Noise.eta_noise_seed_delta opts) <= 0)%Z) ->
  Noise.sampler_noises_attr
    (Noise.create_random_tensors torch opts shape subseeds subseed_strength
       seed_resize_from_h seed_resize_from_w p seeds st).2
  = Noise.sampler_noises_attr st.
Proof.
  intros Hcond. apply create_random_tensors_keeps_attr.
  unfold Noise.initial_sampler_noises.
  destruct Hcond as [-> | [Hbatch Heta]]; [reflexivity |].
  destruct (p ≫= Noise.sampler); [| reflexivity].
  unfold Noise.eta. rewrite (proj2 (Z.ltb_ge 0 _)) by exact Heta.
  destruct Hbatch as [Hlen | ->].
  - rewrite bool_decide_eq_false_2 by lia. reflexivity.
  - now rewrite andb_false_r.
Qed.

Lemma create_random_tensors_leaves_sampler_noises_of_one_seed :
  Noise.sampler_noises_attr
    (Noise.create_random_tensors Noise.counter_torch
       {| Noise.eta_noise_seed_delta := Some 0%Z; Noise.enable_batch_seeds := true |}
       (1, 1, 1)%Z None 0 0 0
       (Some {| Noise.sampler := Some {| Noise.number_of_needed_noises := 2 |} |})
       [100%Z]
       {| Noise.generator := 7%Z; Noise.sampler_noises_attr := Some [[[[[9]]]]]%R |}).2
  = Some [[[[[9]]]]]%R.
Proof.
  apply (create_random_tensors_leaves_sampler_noises Noise.counter_torch
           {| Noise.eta_noise_seed_delta := Some 0%Z; Noise.enable_batch_seeds := true |}
           (1, 1, 1)%Z None 0 0 0
           (Some {| Noise.sampler := Some {| Noise.number_of_needed_noises := 2 |} |})
           [100%Z]
           {| Noise.generator := 7%Z; Noise.sampler_noises_attr := Some [[[[[9]]]]]%R |}).
  right. split; [left; cbn; lia | cbn; lia].
Defined.

(** With a sampler, and a positive noise seed delta or several seeds with
    batch seeds enabled, a call that returns has written
    [p.sampler.sampler_noises]: one stack per noise the sampler needs, each
    of one noise per seed. *)
Theorem create_random_tensors_writes_sampler_noises
    {RngState : Type} (torch : Noise.Torch (RngState := RngState))
    (opts : Noise.Opts) (shape : Noise.Shape) (subseeds : option (list Z))
    (subseed_strength : R) (seed_resize_from_h seed_resize_from_w : Z)
    (smp : Noise.Sampler) (seeds : list Z)
    (st : Noise.State (RngState := RngState)) (x : list Tensor.Tensor3) :
  let call := Noise.create_random_tensors torch opts shape subseeds subseed_strength
                seed_resize_from_h seed_resize_from_w
                (Some {| Noise.sampler := Some smp |}) seeds in
  (1 < length seeds /\ Noise.enable_batch_seeds opts = true) \/
    (0 < default 0 (Noise.eta_noise_seed_delta opts))%Z ->
  (call st).1 = inr x ->
  exists sns,
    Noise.sampler_noises_attr (call st).2 = Some sns /\
    length sns = Noise.number_of_needed_noises smp /\
    Forall (fun n => length n = length seeds) sns.
Proof.
  intros call Hcond Hret.
  apply (create_random_tensors_writes_attr _ _ _ _ _ _ _ _ smp seeds st x);
    [reflexivity | | exact Hret].
  apply orb_true_iff. destruct Hcond as [[Hlen ->] | Heta].
  - left. now rewrite bool_decide_eq_true_2.
  - right. now apply Z.ltb_lt.
Qed.

Lemma create_random_tensors_writes_sampler_noises_for_delta :
  let call :=
    Noise.create_random_tensors Noise.counter_torch
      {| Noise.eta_noise_seed_delta := Some 31337%Z; Noise.enable_batch_seeds := false |}
      (1, 1, 1)%Z None 0 0 0
      (Some {| Noise.sampler := Some {| Noise.number_of_needed_noises := 2 |} |})
      [100%Z] in
  let st := {| Noise.generator := 7%Z; Noise.sampler_noises_attr := None |} in
  Noise.sampler_noises_attr (call st).2 = Some [[[[[31437]]]]; [[[[31438]]]]]%R /\
  exists sns,
    Noise.sampler_noises_attr (call st).2 = Some sns /\
    length sns = 2 /\ Forall (fun n => length n = 1) sns.
Proof.
  cbv zeta. split; [reflexivity |].
  eapply (create_random_tensors_writes_sampler_noises Noise.counter_torch
            {| Noise.eta_noise_seed_delta := Some 31337%Z; Noise.enable_batch_seeds := false |}
            (1, 1, 1)%Z None 0 0 0 {| Noise.number_of_needed_noises := 2 |} [100%Z]
            {| Noise.generator := 7%Z; Noise.sampler_noises_attr := None |}).
  - right. cbn. lia.
  - reflexivity.
Defined.

(** Seeds 100 and 101 on the counting generator, two noises for the
    sampler: the noises written are the draws that follow each seed. *)
Lemma sampler_noises_batch_independence_on_counter :
  let opts := {| Noise.eta_noise_seed_delta := None; Noise.enable_batch_seeds := true |} in
  let p := Some {| Noise.sampler := Some {| Noise.number_of_needed_noises := 2 |} |} in
  let generate subseeds seeds :=
    Noise.create_random_tensors Noise.counter_torch opts (1, 1, 1)%Z subseeds 0 0 0 p seeds in
  let draws_after st := (Noise.draw_noises Noise.counter_torch 2 (1, 1, 1)%Z st).1 in
  let st := {| Noise.generator := 7%Z; Noise.sampler_noises_attr := None |} in
  exists ds1 ds2,
    draws_after (generate (take 1 <$> None) [100%Z] st).2 = inr ds1 /\
    draws_after (generate ((take 1 ∘ drop 1) <$> None) [101%Z] st).2 = inr ds2 /\
    Noise.sampler_noises_attr (generate None [100; 101]%Z st).2
    = Some (zip_with (fun a b => [a; b]) ds1 ds2).
Proof.
  apply (sampler_noises_batch_independence Noise.counter_torch
           {| Noise.eta_noise_seed_delta := None; Noise.enable_batch_seeds := true |}
           (1, 1, 1)%Z None 0 0 0 {| Noise.number_of_needed_noises := 2 |} 100 101
           {| Noise.generator := 7%Z; Noise.sampler_noises_attr := None |}
           {| Noise.generator := 7%Z; Noise.sampler_noises_attr := None |}
           {| Noise.generator := 7%Z; Noise.sampler_noises_attr := None |}
           [[[[100]]]; [[[101]]]]%R).
  - reflexivity.
  - cbn. lia.
  - reflexivity.
Defined.

(** ** Spherical interpolation *)

Lemma sqrt_0_plus_1 : sqrt (0 * 0 + 1 * 1) = 1%R.
Proof.
  replace (0 * 0 + 1 * 1)%R with (1 * 1)%R by lra.
  apply sqrt_square; lra.
Qed.

(** On rows at a right angle [slerp] takes the trigonometric branch, and
    there weight 0 returns [low] and weight 1 returns [high]. *)
Example slerp_orthogonal_endpoints :
  slerp 0 orthogonal_low orthogonal_high = orthogonal_low /\
  slerp 1 orthogonal_low orthogonal_high = orthogonal_high.
Proof.
  assert (Hdot : forall val,
            slerp val orthogonal_low orthogonal_high
            = [[[sin ((1.0 - val) * (PI / 2)) / 1 * 1 + sin (val * (PI / 2)) / 1 * 0];
                [sin ((1.0 - val) * (PI / 2)) / 1 * 0 + sin (val * (PI / 2)) / 1 * 1]]]%R).
  { intros val. unfold slerp.
    destruct (Rgt_dec _ _) as [Hgt | _].
    - exfalso. revert Hgt. cbn. rewrite sqrt_1_plus_0, sqrt_0_plus_1.
      unfold Tensor.mean. cbn. lra.
    - cbn. rewrite sqrt_1_plus_0, sqrt_0_plus_1.
      replace (1 / 1 * (0 / 1) + 0 / 1 * (1 / 1))%R with 0%R by lra.
      rewrite acos_0, sin_PI2. reflexivity. }
  rewrite !Hdot. unfold orthogonal_low, orthogonal_high. cbn.
  replace ((1.0 - 0) * (PI / 2))%R with (PI / 2)%R by lra.
  replace ((1.0 - 1) * (PI / 2))%R with 0%R by lra.
  replace (0 * (PI / 2))%R with 0%R by lra.
  replace (1 * (PI / 2))%R with (PI / 2)%R by lra.
  rewrite sin_0, sin_PI2.
  split; repeat f_equal; lra.
Qed.

(** C1, on the near-parallel rows [[1, 0]] and [[2, 0]] (cosine 1): [slerp]
    takes the linear branch, whose weights are exchanged, so weight 0 returns
    [high] and weight 1 returns [low]. *)
Theorem slerp_parallel_endpoints_exchanged :
  slerp 0 parallel_low parallel_high = parallel_high /\
  slerp 1 parallel_low parallel_high = parallel_low /\
  parallel_high <> parallel_low.
Proof.
  rewrite !parallel_rows_take_lerp. cbn. repeat split.
  - repeat f_equal; lra.
  - repeat f_equal; lra.
  - intros H. injection H as H. lra.
Qed.

(** *** The fallback branch, on tensors of any shape *)

Lemma zip_with_comm_ext {A B} (f : A -> A -> B) :
  (forall x y, f x y = f y x) -> forall l k, zip_with f l k = zip_with f k l.
Proof.
  intros Hf l. induction l as [| x l IH]; intros [| y k]; cbn; try reflexivity.
  now rewrite Hf, IH.
Qed.

Lemma tensor_add_comm (a b : Tensor.Tensor3) : Tensor.add a b = Tensor.add b a.
Proof.
  unfold Tensor.add. repeat (apply zip_with_comm_ext; intros).
  apply Rplus_comm.
Qed.

Lemma slerp_unfold val low high :
  slerp val low high =
  if Rgt_dec (Tensor.mean (slerp_dot low high)) 0.9995 then
    Tensor.add (Tensor.scale low val) (Tensor.scale high (1 - val))
  else
    let omega := map (map acos) (slerp_dot low high) in
    let so := map (map sin) omega in
    let wl := zip_with (zip_with Rdiv)
                (map (map (fun o => sin ((1.0 - val) * o))) omega) so in
    let wh := zip_with (zip_with Rdiv)
                (map (map (fun o => sin (val * o))) omega) so in
    Tensor.add (Tensor.mul_unsqueeze1 wl low) (Tensor.mul_unsqueeze1 wh high).
Proof. reflexivity. Qed.

(** Two tensors of one shape. *)
Lemma add_scale_0_r (a b : Tensor.Tensor3) :
  Forall2 (Forall2 (fun r1 r2 : list R => length r1 = length r2)) a b ->
  Tensor.add a (Tensor.scale b 0) = a.
Proof.
  induction 1 as [| m1 m2 a b Hm _ IH]; cbn; [reflexivity |].
  unfold Tensor.add, Tensor.scale in IH. rewrite IH. f_equal.
  induction Hm as [| r1 r2 m1 m2 Hr _ IHm]; cbn; [reflexivity |].
  rewrite IHm. f_equal. clear -Hr. revert r2 Hr.
  induction r1 as [| x r1 IHr]; intros [| y r2]; cbn; try discriminate; [reflexivity |].
  intros [= H]. rewrite IHr by exact H. f_equal. lra.
Qed.

Lemma has_shape_same d0 d1 d2 a b :
  Tensor.has_shape d0 d1 d2 a -> Tensor.has_shape d0 d1 d2 b ->
  Forall2 (Forall2 (fun r1 r2 : list R => length r1 = length r2)) a b.
Proof.
  intros [Ha Hsa] [Hb Hsb]. subst d0. revert b Hb Hsb.
  induction Hsa as [| m1 a [Hl1 Hr1] _ IH]; intros [| m2 b]; cbn; try discriminate;
    [constructor |].
  intros [= Hb] [[Hl2 Hr2] Hsb]%Forall_cons. constructor; [| now apply IH].
  clear -Hl1 Hr1 Hl2 Hr2. subst d1. revert m2 Hl2 Hr2.
  induction Hr1 as [| r1 m1 H1 _ IHm]; intros [| r2 m2]; cbn; try discriminate;
    [constructor |].
  intros [= Hl2] [H2 Hr2]%Forall_cons. constructor; [congruence | now apply IHm].
Qed.

(** The fallback branch of [slerp] on tensors of one shape: weight 0 returns
    [high] and weight 1 returns [low]. *)
Theorem slerp_near_parallel_endpoints (d0 d1 d2 : nat) (low high : Tensor.Tensor3) :
  Tensor.has_shape d0 d1 d2 low -> Tensor.has_shape d0 d1 d2 high ->
  (Tensor.mean (slerp_dot low high) > 0.9995)%R ->
  slerp 0 low high = high /\ slerp 1 low high = low.
Proof.
  intros Hlow Hhigh Hmean.
  pose proof (has_shape_same d0 d1 d2 low high Hlow Hhigh) as Hlh.
  pose proof (has_shape_same d0 d1 d2 high low Hhigh Hlow) as Hhl.
  assert (Hscale1 : forall t c, c = 1%R -> Tensor.scale t c = t).
  { intros t c ->. unfold Tensor.scale.
    rewrite <- (map_id t) at 2. apply map_ext. intros m.
    rewrite <- (map_id m) at 2. apply map_ext. intros row.
    rewrite <- (map_id row) at 2. apply map_ext. intros x. lra. }
  rewrite !slerp_unfold.
  destruct (Rgt_dec _ _) as [_ | Hn]; [| contradiction].
  split.
  - rewrite (Hscale1 high (1 - 0)%R) by lra. rewrite tensor_add_comm. now apply add_scale_0_r.
  - rewrite (Hscale1 low 1%R) by lra.
    replace (1 - 1)%R with 0%R by lra. now apply add_scale_0_r.
Qed.

Lemma slerp_dot_parallel : slerp_dot parallel_low parallel_high = [[1%R]].
Proof.
  unfold slerp_dot. cbn. rewrite sqrt_1_plus_0, sqrt_4_plus_0.
  repeat f_equal. lra.
Qed.

Lemma slerp_near_parallel_endpoints_on_a_ray :
  slerp 0 parallel_low parallel_high = parallel_high /\
  slerp 1 parallel_low parallel_high = parallel_low.
Proof.
  apply (slerp_near_parallel_endpoints 1 2 1 parallel_low parallel_high).
  - split; [reflexivity |]. repeat constructor.
  - split; [reflexivity |]. repeat constructor.
  - rewrite slerp_dot_parallel. unfold Tensor.mean. cbn. lra.
Defined.

(** ** Scoped option overrides *)

Section OverridesProperties.

Import Overrides.

Context {Val Res Err World : Type}.
Variable env : Env Val Res Err World.

(** What [store_opts] returns pairs each key with its current value, and the
    state is the one it started in. *)
Lemma store_opts_spec keys (st : State Val World) :
  (store_opts (Err := Err) keys st).2 = st /\
  forall stored, (store_opts (Err := Err) keys st).1 = inr stored ->
    stored.*1 = keys /\
    forall k v, (k, v) ∈ stored -> opts_data st !! k = Some v.
Proof.
  induction keys as [| k rest IH]; cbn.
  - split; [reflexivity |]. intros stored [= <-]. split; [reflexivity |].
    intros k v H. inversion H.
  - destruct (opts_data st !! k) as [v |] eqn:Hk; [| split; [reflexivity | discriminate]].
    destruct IH as [IHst IH]. unfold mbind, Eff.bind.
    destruct (store_opts (Err := Err) rest st) as [[e | stored'] st'] eqn:Hrest; cbn in *.
    + split; [assumption | discriminate].
    + split; [assumption |]. intros stored [= <-].
      destruct (IH stored' eq_refl) as [Hkeys Hvals].
      split; [cbn; now rewrite Hkeys |].
      intros k' v' [[= -> ->] | Hin]%elem_of_cons; [assumption | now apply Hvals].
Qed.

Lemma store_opts_missing known k rest (st : State Val World) :
  (forall k', k' ∈ known -> is_Some (opts_data st !! k')) ->
  opts_data st !! k = None ->
  store_opts (Err := Err) (known ++ k :: rest) st = (inl (KeyError k), st).
Proof.
  intros Hknown Hk. induction known as [| k0 known IH]; cbn.
  - now rewrite Hk.
  - destruct (Hknown k0 ltac:(left)) as [v0 ->].
    rewrite bind_unfold, IH; [reflexivity |].
    intros k' Hk'. apply Hknown. now right.
Qed.

(** An override of a key the options do not hold is refused before anything
    is changed (line 327 is outside the [try]): [process_images] raises
    [KeyError] for the first such key, in the state it started in. *)
Theorem process_images_unknown_override (p : Request Val) (st : State Val World)
    (known : list (string * Val)) (k : string) (v : Val) (rest : list (string * Val)) :
  override_settings p = known ++ (k, v) :: rest ->
  (forall k', k' ∈ known.*1 -> is_Some (opts_data st !! k')) ->
  opts_data st !! k = None ->
  process_images env p st = (inl (KeyError k), st).
Proof.
  intros Hp Hknown Hk. unfold process_images.
  rewrite bind_unfold, Hp, fmap_app, fmap_cons. cbn [fst].
  now rewrite store_opts_missing.
Qed.

(** The restore loop, run from any state, returns and puts every stored key
    back, provided the VAE reload it may call is quiet. *)
Lemma restore_opts_spec (data0 : gmap string Val) stored :
  ("sd_vae" ∈ stored.*1 -> vae_reload_quiet env) ->
  (forall k v, (k, v) ∈ stored -> data0 !! k = Some v) ->
  forall (restored : list string) (st : State Val World),
    (forall k, k ∈ restored -> opts_data st !! k = data0 !! k) ->
    (restore_opts env stored st).1 = inr tt /\
    forall k, k ∈ restored ++ stored.*1 ->
      opts_data (restore_opts env stored st).2 !! k = data0 !! k.
Proof.
  induction stored as [| [k v] rest IH]; intros Hvae Hvals restored st Hdone.
  - cbn. split; [reflexivity |]. intros k. rewrite app_nil_r. apply Hdone.
  - set (st1 := {| opts_data := <[k:=v]> (opts_data st); world := world st |}).
    assert (Hst1 : forall k', k' ∈ restored ++ [k] -> opts_data st1 !! k' = data0 !! k').
    { intros k' Hk'. cbn. destruct (decide (k = k')) as [<- | Hne].
      - rewrite lookup_insert_eq. symmetry. apply Hvals. left.
      - rewrite lookup_insert_ne by assumption. apply Hdone.
        apply elem_of_app in Hk' as [? | Hk']; [assumption |].
        apply list_elem_of_singleton in Hk'. congruence. }
    assert (Hnext : exists st2,
               Eff.when (bool_decide (k = "sd_vae")) (reload_vae_weights env) st1 = (inr tt, st2)
               /\ opts_data st2 = opts_data st1).
    { unfold Eff.when. case_bool_decide as Hk; [| eexists; split; reflexivity].
      apply Hvae. subst k. cbn. left. }
    destruct Hnext as (st2 & Hwhen & Hst2).
    assert (Hstep : restore_opts env ((k, v) :: rest) st = restore_opts env rest st2).
    { cbn [restore_opts]. unfold mbind, Eff.bind, setattr_opts, Eff.modify. fold st1.
      now rewrite Hwhen. }
    rewrite Hstep.
    specialize (IH (fun H => Hvae ltac:(cbn; right; exact H))
                   (fun k' v' H => Hvals k' v' ltac:(right; exact H))
                   (restored ++ [k]) st2).
    rewrite <- (assoc_L (++)) in IH. change (((k, v) :: rest).*1) with ([k] ++ rest.*1).
    apply IH.
    intros k' Hk'. rewrite Hst2. now apply Hst1.
Qed.

(** The restore loop, run from any state, when the VAE reload writes none
    of the keys: either it returns and every stored key is back, or the
    reload it called after [sd_vae] was put back raised, and the loop
    ended there with that exception. *)
Lemma restore_opts_cases (data0 : gmap string Val) (keys : list string) stored :
  ("sd_vae" ∈ stored.*1 ->
   forall st k, k ∈ keys ->
     opts_data (reload_vae_weights env st).2 !! k = opts_data st !! k) ->
  (forall k v, (k, v) ∈ stored -> data0 !! k = Some v) ->
  forall (restored : list string) (st : State Val World),
    (forall k, k ∈ restored -> k ∈ keys) ->
    (forall k, k ∈ stored.*1 -> k ∈ keys) ->
    (forall k, k ∈ restored -> opts_data st !! k = data0 !! k) ->
    let run := restore_opts env stored st in
    (run.1 = inr tt /\
     forall k, k ∈ restored ++ stored.*1 -> opts_data run.2 !! k = data0 !! k)
    \/
    (exists e st' before after,
       stored.*1 = before ++ "sd_vae" :: after /\
       opts_data st' !! "sd_vae" = data0 !! "sd_vae" /\
       reload_vae_weights env st' = (inl e, run.2) /\
       run.1 = inl e /\
       forall k, k ∈ restored ++ before ++ ["sd_vae"] ->
         opts_data run.2 !! k = data0 !! k).
Proof.
  induction stored as [| [k v] rest IH];
    intros Hframe Hvals restored st Hrk Hsk Hdone run; subst run.
  - left. cbn. split; [reflexivity |]. intros k. rewrite app_nil_r. apply Hdone.
  - set (st1 := {| opts_data := <[k:=v]> (opts_data st); world := world st |}).
    assert (Hst1 : forall k', k' ∈ restored ++ [k] -> opts_data st1 !! k' = data0 !! k').
    { intros k' Hk'. cbn. destruct (decide (k = k')) as [<- | Hne].
      - rewrite lookup_insert_eq. symmetry. apply Hvals. left.
      - rewrite lookup_insert_ne by assumption. apply Hdone.
        apply elem_of_app in Hk' as [? | Hk']; [assumption |].
        apply list_elem_of_singleton in Hk'. congruence. }
    assert (Hkeys1 : forall k', k' ∈ restored ++ [k] -> k' ∈ keys).
    { intros k' [? | ->%list_elem_of_singleton]%elem_of_app; [now apply Hrk |].
      apply Hsk. left. }
    assert (Hunfold : restore_opts env ((k, v) :: rest) st
            = (_ ← Eff.when (bool_decide (k = "sd_vae")) (reload_vae_weights env);
               restore_opts env rest) st1).
    { reflexivity. }
    rewrite Hunfold, bind_unfold.
    assert (Hrec : forall st2,
              (forall k', k' ∈ restored ++ [k] -> opts_data st2 !! k' = data0 !! k') ->
              let run := restore_opts env rest st2 in
              (run.1 = inr tt /\
               forall k0, k0 ∈ restored ++ ((k, v) :: rest).*1 ->
                 opts_data run.2 !! k0 = data0 !! k0)
              \/
              (exists e st' before after,
                 ((k, v) :: rest).*1 = before ++ "sd_vae" :: after /\
                 opts_data st' !! "sd_vae" = data0 !! "sd_vae" /\
                 reload_vae_weights env st' = (inl e, run.2) /\
                 run.1 = inl e /\
                 forall k0, k0 ∈ restored ++ before ++ ["sd_vae"] ->
                   opts_data run.2 !! k0 = data0 !! k0)).
    { intros st2 Hst2.
      destruct (IH (fun H => Hframe ltac:(cbn; right; exact H))
                   (fun k' v' H => Hvals k' v' ltac:(right; exact H))
                   (restored ++ [k]) st2 Hkeys1
                   (fun k' H => Hsk k' ltac:(cbn; right; exact H)) Hst2)
        as [[Hok Hall] | (e & st' & before & after & Hsplit & Hvae & Hraise & Hout & Hall)].
      - left. split; [exact Hok |]. intros k0 Hk0. apply Hall.
        rewrite <- (assoc_L (++)). exact Hk0.
      - right. exists e, st', (k :: before), after.
        split_and!; [cbn; now rewrite Hsplit | exact Hvae | exact Hraise | exact Hout |].
        intros k0 Hk0. apply Hall. rewrite <- (assoc_L (++)). exact Hk0. }
    unfold Eff.when. case_bool_decide as Hk; [| now apply Hrec].
    subst k.
    pose proof (Hframe ltac:(cbn; left) st1) as Hkeep.
    destruct (reload_vae_weights env st1) as [[e | []] st2] eqn:Hreload; cbn [snd] in Hkeep.
    + right. exists e, st1, [], rest.*1. cbn [fst snd app].
      split_and!; [reflexivity | apply Hst1; set_solver | exact Hreload | reflexivity |].
      intros k0 Hk0. rewrite Hkeep by now apply Hkeys1. now apply Hst1.
    + apply Hrec. intros k' Hk'. rewrite Hkeep by now apply Hkeys1. now apply Hst1.
Qed.

(** C2, amended: when the request asks for the restore
    ([override_settings_restore_afterwards]) and the reload of the VAE
    weights writes none of the overridden options, then after
    [process_images], whether it returned or an exception left it, every
    overridden key of the options holds the value it held before the call,
    with one exception: if the reload that the restore loop runs after it
    put [sd_vae] back (line 353) raises, the loop ends there, that
    exception is what [process_images] raises, and [sd_vae] and the keys
    before it in [override_settings] are the ones that are back. *)
Theorem process_images_restores_overrides (p : Request Val) (st : State Val World) :
  let keys := (override_settings p).*1 in
  let run := process_images env p st in
  override_settings_restore_afterwards p = true ->
  ("sd_vae" ∈ keys ->
   forall st' k, k ∈ keys ->
     opts_data (reload_vae_weights env st').2 !! k = opts_data st' !! k) ->
  (forall k, k ∈ keys -> opts_data run.2 !! k = opts_data st !! k)
  \/
  (exists e st' before after,
     keys = before ++ "sd_vae" :: after /\
     opts_data st' !! "sd_vae" = opts_data st !! "sd_vae" /\
     reload_vae_weights env st' = (inl e, run.2) /\
     run.1 = inl e /\
     forall k, k ∈ before ++ ["sd_vae"] -> opts_data run.2 !! k = opts_data st !! k).
Proof.
  intros keys run Hrestore Hframe.
  assert (Hrun : run = process_images env p st) by reflexivity. clearbody run.
  unfold process_images in Hrun. rewrite bind_unfold in Hrun. fold keys in Hrun.
  destruct (store_opts_spec keys st) as [Hsame Hstored].
  destruct (store_opts (Err := Err) keys st) as [[e | stored] st0] eqn:Hs;
    cbn in Hsame; subst st0; [left; now subst run |].
  destruct (Hstored stored eq_refl) as [Hkeys Hvals].
  unfold Eff.try_finally in Hrun. rewrite Hrestore in Hrun. cbn [Eff.when] in Hrun.
  match type of Hrun with context [let '(r, st1) := ?body st in _] =>
    destruct (body st) as [r st1] end.
  destruct (restore_opts_cases (opts_data st) keys stored
              ltac:(rewrite Hkeys; exact Hframe) Hvals [] st1
              ltac:(intros ? H; inversion H)
              ltac:(rewrite Hkeys; trivial)
              ltac:(intros ? H; inversion H))
    as [[Hok Hall] | (e & st' & before & after & Hsplit & Hvae & Hraise & Hout & Hall)];
    destruct (restore_opts env stored st1) as [[e' | []] st2]; cbn in *;
    try discriminate; subst run; cbn [fst snd].
  - left. intros k Hk. apply Hall. now rewrite Hkeys.
  - right. injection Hout as ->. exists e, st', before, after.
    rewrite Hkeys in Hsplit. split_and!; auto.
Qed.

End OverridesProperties.

(** The run changes an overridden option and fails: the two overridden
    options are back at their values. *)
Lemma process_images_restores_overrides_on_error :
  let run := Overrides.process_images Overrides.failing_env
               (Overrides.clip_skip_request true) Overrides.default_state in
  run.1 = inl (Overrides.Raised "NansException") /\
  forall k, k ∈ ["CLIP_stop_at_last_layers"; "sd_vae"] ->
    Overrides.opts_data run.2 !! k = Overrides.opts_data Overrides.default_state !! k.
Proof.
  split; [reflexivity |].
  destruct (process_images_restores_overrides Overrides.failing_env
              (Overrides.clip_skip_request true) Overrides.default_state eq_refl)
    as [Hall | (e & st' & before & after & _ & _ & Hraise & _)].
  - intros _ st' k _. reflexivity.
  - exact Hall.
  - discriminate Hraise.
Defined.

(** The VAE that was loaded before the call is lost during the run: the
    reload of the restore loop raises, [process_images] raises its
    exception, [sd_vae] is back, and the option after it keeps the
    override. *)
Example process_images_restore_cut_short :
  let run := Overrides.process_images Overrides.lost_vae_env
               Overrides.vae_first_request Overrides.default_state in
  run.1 = inl (Overrides.Raised "FileNotFoundError") /\
  Overrides.opts_data run.2 !! "sd_vae" = Some 0%Z /\
  Overrides.opts_data run.2 !! "CLIP_stop_at_last_layers" = Some 2%Z /\
  Overrides.opts_data Overrides.default_state !! "CLIP_stop_at_last_layers" = Some 1%Z.
Proof. cbv zeta. split_and!; reflexivity. Qed.

(** An override of an option that does not exist, after one that does. *)
Lemma process_images_unknown_override_refused :
  Overrides.process_images Overrides.failing_env
    {| Overrides.override_settings :=
         [("CLIP_stop_at_last_layers", 2%Z); ("no_such_option", 1%Z)];
       Overrides.override_settings_restore_afterwards := true |}
    Overrides.default_state
  = (inl (Overrides.KeyError "no_such_option"), Overrides.default_state).
Proof.
  apply (process_images_unknown_override Overrides.failing_env _ _
           [("CLIP_stop_at_last_layers", 2%Z)] "no_such_option" 1%Z []).
  - reflexivity.
  - intros k' ->%list_elem_of_singleton. exists 1%Z. reflexivity.
  - reflexivity.
Defined.

(** C2 as stated fails: a request that does not ask for the restore leaves
    its override in the options after a run that returned. *)
Lemma process_images_keeps_overrides_without_restore :
  let st' := (Overrides.process_images Overrides.quiet_env
                (Overrides.clip_skip_request false) Overrides.default_state).2 in
  "CLIP_stop_at_last_layers" ∈ (Overrides.override_settings (Overrides.clip_skip_request false)).*1 /\
  Overrides.opts_data st' !! "CLIP_stop_at_last_layers" = Some 2%Z /\
  Overrides.opts_data Overrides.default_state !! "CLIP_stop_at_last_layers" = Some 1%Z.
Proof.
  cbv zeta. split; [left |]. split; reflexivity.
Qed.

(** *** The options outside and inside the overrides *)

Section OverridesFrame.

Import Overrides.

Context {Val Res Err World : Type}.
Variable env : Env Val Res Err World.

#[local] Abbreviation Eff := (Eff.t (State Val World) (Exn Err)).

Lemma frames_ret keys {A} (a : A) : frames keys (mret a : Eff A).
Proof. intros st k _. reflexivity. Qed.

Lemma frames_bind keys {A B} (m : Eff A) (f : A -> Eff B) :
  frames keys m -> (forall a, frames keys (f a)) -> frames keys (m ≫= f).
Proof.
  intros Hm Hf st k Hk. rewrite bind_unfold. specialize (Hm st k Hk).
  destruct (m st) as [[e | a] st1]; cbn in *; [exact Hm |].
  now rewrite Hf.
Qed.

Lemma frames_when keys (c : bool) (m : Eff unit) :
  frames keys m -> frames keys (Eff.when c m).
Proof. destruct c; [trivial | intros _; apply frames_ret]. Qed.

Lemma frames_setattr keys k (v : Val) :
  k ∈ keys -> frames keys (setattr_opts (Err := Err) (World := World) k v).
Proof.
  intros Hk st k' Hk'. cbn. apply lookup_insert_ne. congruence.
Qed.

Lemma frames_try_finally keys {A} (body : Eff A) (fin : Eff unit) :
  frames keys body -> frames keys fin -> frames keys (Eff.try_finally body fin).
Proof.
  intros Hb Hf st k Hk. unfold Eff.try_finally.
  specialize (Hb st k Hk). destruct (body st) as [r st1]. cbn in Hb.
  specialize (Hf st1 k Hk). destruct (fin st1) as [[e | []] st2]; cbn in *; congruence.
Qed.

Lemma frames_apply_overrides keys items :
  (forall k, k ∈ items.*1 -> k ∈ keys) ->
  frames keys (reload_model_weights env) -> frames keys (reload_vae_weights env) ->
  frames keys (apply_overrides env items).
Proof.
  intros Hin Hm Hv. induction items as [| [k v] rest IH]; cbn [apply_overrides].
  - apply frames_ret.
  - apply frames_bind; [apply frames_setattr, Hin; left |]. intros _.
    apply frames_bind; [now apply frames_when |]. intros _.
    apply frames_bind; [now apply frames_when |]. intros _.
    apply IH. intros k' Hk'. apply Hin. now right.
Qed.

Lemma frames_restore_opts keys stored :
  (forall k, k ∈ stored.*1 -> k ∈ keys) ->
  frames keys (reload_vae_weights env) ->
  frames keys (restore_opts env stored).
Proof.
  intros Hin Hv. induction stored as [| [k v] rest IH]; cbn [restore_opts].
  - apply frames_ret.
  - apply frames_bind; [apply frames_setattr, Hin; left |]. intros _.
    apply frames_bind; [now apply frames_when |]. intros _.
    apply IH. intros k' Hk'. apply Hin. now right.
Qed.

Lemma dict_pop_keys (k : string) (d : list (string * Val)) k' :
  k' ∈ (dict_pop k d).*1 -> k' ∈ d.*1.
Proof.
  unfold dict_pop. intros ([k1 v1] & -> & Hin%list_elem_of_filter)%list_elem_of_fmap.
  apply list_elem_of_fmap. exists (k1, v1). split; [reflexivity | apply Hin].
Qed.

(** Round trip: with the restore asked for, a model reload and a run that
    write no option outside the overridden keys, and a VAE reload that
    writes no option and returns whenever [sd_vae] holds the value it held
    before the call, the options after [process_images] are the options
    before it, whether it returned or raised. *)
Theorem process_images_round_trip (p : Request Val) (st : State Val World) :
  let keys := (override_settings p).*1 in
  override_settings_restore_afterwards p = true ->
  frames keys (reload_model_weights env) ->
  (forall p', frames keys (process_images_inner env p')) ->
  (forall st', opts_data (reload_vae_weights env st').2 = opts_data st') ->
  (forall st', opts_data st' !! "sd_vae" = opts_data st !! "sd_vae" ->
     (reload_vae_weights env st').1 = inr tt) ->
  opts_data (process_images env p st).2 = opts_data st.
Proof.
  intros keys Hrestore Hfm Hfi Hwrites Hreturns.
  assert (Hfv : frames keys (reload_vae_weights env)).
  { intros st' k _. now rewrite Hwrites. }
  apply map_eq. intros k.
  unfold process_images. rewrite bind_unfold.
  destruct (store_opts_spec (Err := Err) keys st) as [Hsame Hstored].
  fold keys.
  destruct (store_opts (Err := Err) keys st) as [[e | stored] st0] eqn:Hs;
    cbn in Hsame; subst st0; [reflexivity |].
  destruct (Hstored stored eq_refl) as [Hkeys Hvals].
  destruct (decide (k ∈ keys)) as [Hk | Hk].
  - unfold Eff.try_finally. rewrite Hrestore. cbn [Eff.when].
    match goal with |- context [let '(r, st1) := ?body st in _] =>
      destruct (body st) as [r st1] end.
    destruct (restore_opts_cases env (opts_data st) keys stored
                ltac:(intros _ st' k' _; now rewrite Hwrites) Hvals [] st1
                ltac:(intros ? H; inversion H)
                ltac:(rewrite Hkeys; trivial)
                ltac:(intros ? H; inversion H))
      as [[Hok Hall] | (e & st' & before & after & _ & Hvae & Hraise & _)].
    + specialize (Hall k ltac:(cbn; rewrite Hkeys; exact Hk)).
      destruct (restore_opts env stored st1) as [[e | []] st2]; cbn in *;
        [discriminate | exact Hall].
    + specialize (Hreturns st' Hvae). rewrite Hraise in Hreturns. discriminate Hreturns.
  - match goal with |- context [Eff.try_finally ?b ?f] =>
      apply (frames_try_finally keys b f) end; [| | exact Hk].
    + destruct (checkpoint_alias_known env _).
      * intros st' k' Hk'. rewrite bind_unfold. cbn -[mbind]. revert st' k' Hk'.
        apply frames_bind; [| intros _; apply Hfi].
        apply frames_apply_overrides; auto.
      * intros st' k' Hk'. rewrite bind_unfold, bind_unfold.
        pose proof (Hfm st' k' Hk') as Hst1.
        destruct (reload_model_weights env st') as [[e | []] st1]; cbn -[mbind] in *;
          [exact Hst1 |].
        rewrite <- Hst1. clear Hst1. revert st1 k' Hk'.
        apply frames_bind; [| intros _; apply Hfi].
        apply frames_apply_overrides; auto. cbn. apply dict_pop_keys.
    + rewrite Hrestore. cbn. apply frames_restore_opts; [| exact Hfv].
      now rewrite Hkeys.
Qed.

Lemma store_opts_returns keys (st : State Val World) :
  (forall k, k ∈ keys -> is_Some (opts_data st !! k)) ->
  exists stored, store_opts (Err := Err) keys st = (inr stored, st).
Proof.
  induction keys as [| k rest IH]; intros Hall; cbn.
  - eauto.
  - destruct (Hall k ltac:(left)) as [v ->].
    destruct IH as [stored Hs]; [intros k' Hk'; apply Hall; now right |].
    rewrite bind_unfold, Hs. eauto.
Qed.

(** The overrides, applied one after the other by quiet collaborators. *)
Lemma apply_overrides_spec items : forall (st : State Val World),
  quiet (reload_model_weights env) -> quiet (reload_vae_weights env) ->
  NoDup items.*1 ->
  exists st1,
    apply_overrides env items st = (inr tt, st1) /\
    (forall k v, (k, v) ∈ items -> opts_data st1 !! k = Some v) /\
    (forall k, k ∉ items.*1 -> opts_data st1 !! k = opts_data st !! k).
Proof.
  induction items as [| [k v] rest IH]; intros st Hm Hv Hnd.
  - exists st. split_and!; [reflexivity | | reflexivity].
    intros k v H. inversion H.
  - apply NoDup_cons in Hnd as [Hk Hnd]. cbn [apply_overrides].
    rewrite bind_unfold. unfold setattr_opts at 1, Eff.modify at 1.
    set (st0 := {| opts_data := <[k:=v]> (opts_data st); world := world st |}).
    assert (Hwhen : forall (c : bool) (m : Eff unit) (st' : State Val World), quiet m ->
              exists st'', Eff.when c m st' = (inr tt, st'') /\ opts_data st'' = opts_data st').
    { intros [] m st' Hq; [apply Hq | eexists; split; reflexivity]. }
    destruct (Hwhen (bool_decide (k = "sd_model_checkpoint")) _ st0 Hm) as (sta & Ha & Hoa).
    rewrite bind_unfold, Ha.
    destruct (Hwhen (bool_decide (k = "sd_vae")) _ sta Hv) as (stb & Hb & Hob).
    rewrite bind_unfold, Hb.
    destruct (IH stb Hm Hv Hnd) as (st1 & Hrun & Hset & Hframe).
    exists st1. split_and!; [exact Hrun | |].
    + intros k' v' [[= -> ->] | Hin]%elem_of_cons.
      * rewrite Hframe by exact Hk. rewrite Hob, Hoa. cbn. apply lookup_insert_eq.
      * now apply Hset.
    + intros k' Hk'. cbn in Hk'. apply not_elem_of_cons in Hk' as [Hne Hk'].
      rewrite Hframe by exact Hk'. rewrite Hob, Hoa. cbn.
      apply lookup_insert_ne. congruence.
Qed.

Lemma dict_pop_NoDup (k : string) (d : list (string * Val)) :
  NoDup d.*1 -> NoDup (dict_pop k d).*1.
Proof.
  unfold dict_pop. induction d as [| [k1 v1] d IH]; [constructor |].
  rewrite fmap_cons. cbn [fst]. intros [Hk1 Hnd]%NoDup_cons. rewrite filter_cons. cbn [fst].
  destruct (decide (k1 <> k)); [| now apply IH].
  rewrite fmap_cons. cbn [fst]. apply NoDup_cons. split; [| now apply IH].
  intros Hin. apply Hk1. apply dict_pop_keys in Hin. exact Hin.
Qed.

(** The run sees the overrides: when every overridden key is an option and
    the reloads are quiet, [process_images_inner] is run once, on the
    request without the checkpoint override if that checkpoint is not
    known, in a state where every remaining override holds and every other
    option is as before; and its outcome, result or exception, is the
    outcome of [process_images]. *)
Theorem process_images_runs_under_overrides (p : Request Val) (st : State Val World) :
  let p' :=
    if checkpoint_alias_known env (dict_get "sd_model_checkpoint" (override_settings p))
    then p
    else {| override_settings := dict_pop "sd_model_checkpoint" (override_settings p);
            override_settings_restore_afterwards :=
              override_settings_restore_afterwards p |} in
  NoDup (override_settings p).*1 ->
  (forall k, k ∈ (override_settings p).*1 -> is_Some (opts_data st !! k)) ->
  quiet (reload_model_weights env) -> quiet (reload_vae_weights env) ->
  exists st1,
    (forall k v, (k, v) ∈ override_settings p' -> opts_data st1 !! k = Some v) /\
    (forall k, k ∉ (override_settings p').*1 -> opts_data st1 !! k = opts_data st !! k) /\
    (process_images env p st).1 = (process_images_inner env p' st1).1.
Proof.
  intros p' Hnd Hall Hm Hv.
  destruct (store_opts_returns _ st Hall) as [stored Hs].
  destruct (store_opts_spec (Err := Err) (override_settings p).*1 st) as [_ Hstored].
  rewrite Hs in Hstored. destruct (Hstored stored eq_refl) as [Hkeys Hvals].
  assert (Hstart : exists st0,
            (p0 ← (if checkpoint_alias_known env
                         (dict_get "sd_model_checkpoint" (override_settings p))
                   then mret p
                   else _ ← reload_model_weights env;
                        mret {| override_settings :=
                                  dict_pop "sd_model_checkpoint" (override_settings p);
                                override_settings_restore_afterwards :=
                                  override_settings_restore_afterwards p |});
             mret p0) st = (inr p', st0) /\ opts_data st0 = opts_data st).
  { unfold p'. destruct (checkpoint_alias_known env _).
    - exists st. split; reflexivity.
    - destruct (Hm st) as (st0 & Hr & Ho). exists st0.
      rewrite !bind_unfold, Hr. split; [reflexivity | exact Ho]. }
  destruct Hstart as (st0 & Hp' & Ho0).
  assert (Hnd' : NoDup (override_settings p').*1).
  { unfold p'. destruct (checkpoint_alias_known env _); [exact Hnd |].
    cbn. now apply dict_pop_NoDup. }
  destruct (apply_overrides_spec (override_settings p') st0 Hm Hv Hnd')
    as (st1 & Happly & Hset & Hframe).
  exists st1. split_and!; [exact Hset | |].
  { intros k Hk. rewrite Hframe by exact Hk. now rewrite Ho0. }
  unfold process_images. rewrite bind_unfold, Hs. unfold Eff.try_finally.
  rewrite !bind_unfold in Hp'. rewrite bind_unfold.
  match type of Hp' with (let (_, _) := ?m st in _) = _ =>
    destruct (m st) as [[e | p0] st0'] eqn:Hm0; [discriminate |] end.
  injection Hp' as -> ->.
  rewrite bind_unfold, Happly.
  destruct (process_images_inner env p' st1) as [r st2].
  destruct (restore_opts_spec env (opts_data st) stored
              ltac:(intros _; exact Hv) Hvals [] st2
              ltac:(intros ? H; inversion H)) as [Hok _].
  destruct (override_settings_restore_afterwards p); cbn [Eff.when]; [| reflexivity].
  destruct (restore_opts env stored st2) as [[e | []] st3]; cbn in *;
    [discriminate | reflexivity].
Qed.

End OverridesFrame.

(** The reload fails under the override, before the run: the options are
    back as they were. *)
Lemma process_images_round_trip_on_error :
  let run := Overrides.process_images Overrides.broken_vae_env
               (Overrides.clip_skip_request true) Overrides.default_state in
  run.1 = inl (Overrides.Raised "FileNotFoundError") /\
  Overrides.opts_data run.2 = Overrides.opts_data Overrides.default_state.
Proof.
  split; [reflexivity |].
  apply (process_images_round_trip Overrides.broken_vae_env
           (Overrides.clip_skip_request true) Overrides.default_state).
  - reflexivity.
  - intros st k _. reflexivity.
  - intros p' st k _. reflexivity.
  - intros st'. cbn [Overrides.reload_vae_weights Overrides.broken_vae_env].
    rewrite bind_unfold. cbn.
    destruct (bool_decide (Overrides.opts_data st' !! "sd_vae" = Some 5%Z)); reflexivity.
  - intros st' Hvae. cbn [Overrides.reload_vae_weights Overrides.broken_vae_env].
    rewrite bind_unfold. cbn [Eff.get]. rewrite Hvae. reflexivity.
Defined.

(** Two overrides and no restore: the run starts with both in place. *)
Lemma process_images_runs_under_two_overrides :
  exists st1,
    (forall k v, (k, v) ∈ [("CLIP_stop_at_last_layers", 2%Z); ("sd_vae", 5%Z)] ->
       Overrides.opts_data st1 !! k = Some v) /\
    (forall k, k ∉ ["CLIP_stop_at_last_layers"; "sd_vae"] ->
       Overrides.opts_data st1 !! k = Overrides.opts_data Overrides.default_state !! k) /\
    (Overrides.process_images Overrides.quiet_env
       (Overrides.clip_skip_request false) Overrides.default_state).1
    = (Overrides.process_images_inner Overrides.quiet_env
         (Overrides.clip_skip_request false) st1).1.
Proof.
  apply (process_images_runs_under_overrides Overrides.quiet_env
           (Overrides.clip_skip_request false) Overrides.default_state).
  - cbn. repeat constructor; set_solver.
  - intros k Hk. cbn in Hk.
    apply elem_of_cons in Hk as [-> | ->%list_elem_of_singleton]; eexists; reflexivity.
  - intros st. exists st. split; reflexivity.
  - intros st. exists st. split; reflexivity.
Defined.

(** ** The conditioning cache *)

(** C4: from a state whose cache list does not hold the key (a fresh list,
    say), a call that returns has invoked the compute function once; a
    second call with the same prompts and steps does not invoke it and
    returns the result the first one stored; a further call with another key
    invokes the function again and, when it returns, has stored the new key
    with its result.  The other cache list is never touched. *)
Theorem get_conds_with_caching_memoises
    {Model Cond Err World : Type} (sd_model : World -> Model)
    (function : Model -> list string -> Z -> World -> (Err + Cond) * World)
    (prompts prompts' : list string) (steps steps' : Z) (cache : CondCache.Slot)
    (st0 st1 : CondCache.State Cond World) (r1 : option Cond) :
  CondCache.cache_0 (CondCache.read cache st0) <> Some (prompts, steps) ->
  (prompts', steps') <> (prompts, steps) ->
  CondCache.get_conds_with_caching sd_model function prompts steps cache st0
    = (inr r1, st1) ->
  let '(r2, st2) :=
    CondCache.get_conds_with_caching sd_model function prompts steps cache st1 in
  let '(r3, st3) :=
    CondCache.get_conds_with_caching sd_model function prompts' steps' cache st2 in
  (exists cond,
     (function (sd_model (CondCache.world st0)) prompts steps (CondCache.world st0)).1
       = inr cond /\ r1 = Some cond) /\
  CondCache.calls st1 = CondCache.calls st0 ++ [(prompts, steps)] /\
  r2 = inr r1 /\
  st2 = st1 /\
  CondCache.read cache st2
    = {| CondCache.cache_0 := Some (prompts, steps); CondCache.cache_1 := r1 |} /\
  CondCache.calls st3 = CondCache.calls st0 ++ [(prompts, steps); (prompts', steps')] /\
  (forall r, r3 = inr r ->
     CondCache.read cache st3
       = {| CondCache.cache_0 := Some (prompts', steps'); CondCache.cache_1 := r |}) /\
  (forall other, other <> cache ->
     CondCache.read other st3 = CondCache.read other st0).
Proof.
  intros Hmiss Hother Hfirst.
  assert (Hrw : forall (s : CondCache.Slot) v (st : CondCache.State Cond World),
            CondCache.read s (CondCache.write s v st) = v) by (now intros [] v st).
  assert (Hrw' : forall (s s' : CondCache.Slot) v (st : CondCache.State Cond World),
            s' <> s -> CondCache.read s' (CondCache.write s v st) = CondCache.read s' st)
    by (intros [] [] v st Hne; first [reflexivity | now destruct Hne]).
  (* the first call misses *)
  unfold CondCache.get_conds_with_caching in Hfirst.
  rewrite bind_unfold in Hfirst. unfold Eff.get at 1 in Hfirst.
  assert (Hmiss1 : bool_decide (CondCache.cache_0 (CondCache.read cache st0) <> None)
                   && bool_decide (Some (prompts, steps)
                                   = CondCache.cache_0 (CondCache.read cache st0)) = false).
  { apply andb_false_iff. right. apply bool_decide_eq_false. congruence. }
  rewrite Hmiss1 in Hfirst. rewrite bind_unfold in Hfirst.
  unfold CondCache.invoke at 1 in Hfirst.
  destruct (function (sd_model (CondCache.world st0)) prompts steps (CondCache.world st0))
    as [[e | cond] w1] eqn:Hf; [discriminate |].
  unfold mbind, Eff.bind, Eff.modify, Eff.get, mret, Eff.ret in Hfirst.
  cbn -[CondCache.read CondCache.write] in Hfirst.
  rewrite !Hrw in Hfirst. cbn [CondCache.cache_0 CondCache.cache_1] in Hfirst.
  injection Hfirst as <- <-.
  set (st1 := CondCache.write cache _ (CondCache.write cache _ _)).
  assert (Hread1 : CondCache.read cache st1
                   = {| CondCache.cache_0 := Some (prompts, steps);
                        CondCache.cache_1 := Some cond |}) by apply Hrw.
  assert (Hcalls1 : CondCache.calls st1 = CondCache.calls st0 ++ [(prompts, steps)])
    by (now destruct cache).
  assert (Hothers1 : forall other, other <> cache ->
            CondCache.read other st1 = CondCache.read other st0).
  { intros other Hne. unfold st1. rewrite !Hrw' by exact Hne. now destruct other. }
  (* the second call hits *)
  unfold CondCache.get_conds_with_caching at 1.
  rewrite bind_unfold. unfold Eff.get at 1. rewrite Hread1.
  cbn [CondCache.cache_0 CondCache.cache_1].
  rewrite !bool_decide_eq_true_2 by congruence. cbn [andb].
  unfold mret at 1, Eff.ret at 1.
  (* the third call misses *)
  unfold CondCache.get_conds_with_caching.
  rewrite bind_unfold. unfold Eff.get at 1. rewrite Hread1.
  cbn [CondCache.cache_0].
  rewrite (bool_decide_eq_false_2 (Some (prompts', steps') = Some (prompts, steps)))
    by congruence.
  rewrite andb_false_r, bind_unfold. unfold CondCache.invoke at 1.
  destruct (function (sd_model (CondCache.world st1)) prompts' steps' (CondCache.world st1))
    as [[e | cond'] w3] eqn:Hf'.
  - split_and!.
    + exists cond. split; reflexivity.
    + exact Hcalls1.
    + reflexivity.
    + reflexivity.
    + first [reflexivity | exact Hread1].
    + cbn. rewrite Hcalls1, <- (assoc_L (++)). reflexivity.
    + discriminate.
    + intros other Hne. rewrite <- (Hothers1 other Hne). now destruct other.
  - unfold mbind, Eff.bind, Eff.modify, Eff.get, mret, Eff.ret.
    cbn -[CondCache.read CondCache.write]. rewrite !Hrw.
    cbn [CondCache.cache_0 CondCache.cache_1].
    split_and!.
    + exists cond. split; reflexivity.
    + exact Hcalls1.
    + reflexivity.
    + reflexivity.
    + first [reflexivity | exact Hread1].
    + assert (Hcw : forall (s : CondCache.Slot) v (st : CondCache.State Cond World),
                CondCache.calls (CondCache.write s v st) = CondCache.calls st)
        by (now intros [] v st).
      rewrite !Hcw. cbn [CondCache.calls].
      rewrite Hcalls1, <- (assoc_L (++)). reflexivity.
    + intros r [= <-]. first [reflexivity | apply Hrw].
    + intros other Hne. rewrite !Hrw' by exact Hne.
      rewrite <- (Hothers1 other Hne). now destruct other.
Qed.

(** Fresh lists, the same prompt at 20 steps twice, then at 30 steps. *)
Lemma get_conds_with_caching_memoises_run :
  let run := CondCache.get_conds_with_caching (fun _ : Z => tt) CondCache.counting_conds in
  run ["a photo"] 20%Z CondCache.cached_c CondCache.start
    = (inr (Some 21%Z),
       {| CondCache.world := 1%Z;
          CondCache.calls := [(["a photo"], 20%Z)];
          CondCache.uc := CondCache.fresh;
          CondCache.c := {| CondCache.cache_0 := Some (["a photo"], 20%Z);
                            CondCache.cache_1 := Some 21%Z |} |}) /\
  let st1 := (run ["a photo"] 20%Z CondCache.cached_c CondCache.start).2 in
  let '(r2, st2) := run ["a photo"] 20%Z CondCache.cached_c st1 in
  let '(r3, st3) := run ["a photo"] 30%Z CondCache.cached_c st2 in
  (exists cond,
     (CondCache.counting_conds tt ["a photo"] 20%Z 0%Z).1 = inr cond
     /\ Some 21%Z = Some cond) /\
  CondCache.calls st1 = [] ++ [(["a photo"], 20%Z)] /\
  r2 = inr (Some 21%Z) /\
  st2 = st1 /\
  CondCache.read CondCache.cached_c st2
    = {| CondCache.cache_0 := Some (["a photo"], 20%Z);
         CondCache.cache_1 := Some 21%Z |} /\
  CondCache.calls st3 = [] ++ [(["a photo"], 20%Z); (["a photo"], 30%Z)] /\
  (forall r, r3 = inr r ->
     CondCache.read CondCache.cached_c st3
       = {| CondCache.cache_0 := Some (["a photo"], 30%Z); CondCache.cache_1 := r |}) /\
  (forall other, other <> CondCache.cached_c ->
     CondCache.read other st3 = CondCache.read other CondCache.start).
Proof.
  split; [reflexivity |].
  apply (get_conds_with_caching_memoises (fun _ : Z => tt) CondCache.counting_conds
           ["a photo"] ["a photo"] 20 30 CondCache.cached_c CondCache.start).
  - discriminate.
  - discriminate.
  - reflexivity.
Defined.

Example get_conds_with_caching_third_call :
  let run := CondCache.get_conds_with_caching (fun _ : Z => tt) CondCache.counting_conds in
  let st1 := (run ["a photo"] 20%Z CondCache.cached_c CondCache.start).2 in
  let st2 := (run ["a photo"] 20%Z CondCache.cached_c st1).2 in
  (run ["a photo"] 30%Z CondCache.cached_c st2).1 = inr (Some 32%Z).
Proof. reflexivity. Qed.

(** *** Failures, and what the lists always hold *)

Section CondCacheMore.

Import CondCache.

Context {Model Cond Err World : Type}.
Variable sd_model : World -> Model.
Variable function : Model -> list string -> Z -> World -> (Err + Cond) * World.

(** Exception safety: a call that raises has invoked the compute function
    once and has left both cache lists as they were, so what was cached
    before is still served and the failed key is computed anew. *)
Theorem get_conds_with_caching_raises
    (prompts : list string) (steps : Z) (cache : Slot)
    (st st' : State Cond World) (e : Err) :
  get_conds_with_caching sd_model function prompts steps cache st = (inl e, st') ->
  uc st' = uc st /\ c st' = c st /\
  calls st' = calls st ++ [(prompts, steps)] /\
  cache_0 (read cache st) <> Some (prompts, steps).
Proof.
  unfold get_conds_with_caching. rewrite bind_unfold. unfold Eff.get at 1.
  destruct (bool_decide (cache_0 (read cache st) <> None)
            && bool_decide (Some (prompts, steps) = cache_0 (read cache st))) eqn:Hhit;
    [discriminate |].
  rewrite bind_unfold. unfold invoke at 1.
  destruct (function (sd_model (world st)) prompts steps (world st)) as [[e' | cond] w].
  - intros [= <- <-]. cbn. split_and!; try reflexivity.
    intros Heq. rewrite Heq in Hhit.
    rewrite !bool_decide_eq_true_2 in Hhit by congruence. discriminate.
  - unfold mbind, Eff.bind, Eff.modify, Eff.get, mret, Eff.ret. cbn. discriminate.
Qed.

Lemma read_write (cache other : Slot) v (st : State Cond World) :
  read other (write cache v st) = if decide (other = cache) then v else read other st.
Proof. destruct cache, other; reflexivity. Qed.

(** The lists stay filled, and from filled lists (fresh ones, say) a call
    that returns never returns the [None] a fresh list holds: it returns
    the result stored for the key it leaves in the list. *)
Theorem get_conds_with_caching_keeps_filled
    (prompts : list string) (steps : Z) (cache : Slot)
    (st st' : State Cond World) (r : option Cond) :
  filled st ->
  get_conds_with_caching sd_model function prompts steps cache st = (inr r, st') ->
  filled st' /\
  exists cond, r = Some cond /\
    read cache st' = {| cache_0 := Some (prompts, steps); cache_1 := Some cond |}.
Proof.
  intros Hfilled. unfold get_conds_with_caching. rewrite bind_unfold. unfold Eff.get at 1.
  destruct (bool_decide (cache_0 (read cache st) <> None)
            && bool_decide (Some (prompts, steps) = cache_0 (read cache st))) eqn:Hhit.
  - apply andb_true_iff in Hhit as [Hsome%bool_decide_eq_true Hkey%bool_decide_eq_true].
    intros [= <- <-]. split; [exact Hfilled |].
    specialize (Hfilled cache Hsome).
    destruct (read cache st) as [k [cond |]]; cbn in *; [| contradiction].
    exists cond. split; [reflexivity |]. now rewrite Hkey.
  - rewrite bind_unfold. unfold invoke at 1.
    destruct (function (sd_model (world st)) prompts steps (world st)) as [[e' | cond] w];
      [discriminate |].
    unfold mbind, Eff.bind, Eff.modify, Eff.get, mret, Eff.ret.
    cbn -[read write]. rewrite !read_write. rewrite !decide_True by reflexivity.
    cbn [cache_0 cache_1]. intros [= <- <-]. split.
    + intros other. rewrite !read_write. destruct (decide (other = cache)); [discriminate|].
      intros Hother. specialize (Hfilled other). destruct other; apply Hfilled, Hother.
    + exists cond. split; [reflexivity |]. now rewrite read_write, decide_True.
Qed.

End CondCacheMore.

(** A compute function that runs out of memory. *)
Lemma get_conds_with_caching_raises_out_of_memory :
  let st := CondCache.start in
  let st' := {| CondCache.world := 0%Z; CondCache.calls := [(["a photo"], 20%Z)];
                CondCache.uc := CondCache.fresh; CondCache.c := CondCache.fresh |} in
  CondCache.uc st' = CondCache.uc st /\ CondCache.c st' = CondCache.c st /\
  CondCache.calls st' = CondCache.calls st ++ [(["a photo"], 20%Z)] /\
  CondCache.cache_0 (CondCache.read CondCache.cached_c st) <> Some (["a photo"], 20%Z).
Proof.
  apply (get_conds_with_caching_raises (fun _ : Z => tt)
           (fun _ _ _ w => (inl "out of memory", w))
           ["a photo"] 20 CondCache.cached_c CondCache.start _ "out of memory").
  reflexivity.
Defined.

Lemma get_conds_with_caching_keeps_filled_from_fresh :
  let st' := {| CondCache.world := 1%Z; CondCache.calls := [(["a photo"], 20%Z)];
                CondCache.uc := CondCache.fresh;
                CondCache.c := {| CondCache.cache_0 := Some (["a photo"], 20%Z);
                                  CondCache.cache_1 := Some 21%Z |} |} in
  CondCache.filled st' /\
  exists cond, Some 21%Z = Some cond /\
    CondCache.read CondCache.cached_c st'
    = {| CondCache.cache_0 := Some (["a photo"], 20%Z); CondCache.cache_1 := Some cond |}.
Proof.
  apply (get_conds_with_caching_keeps_filled (fun _ : Z => tt) CondCache.counting_conds
           ["a photo"] 20 CondCache.cached_c CondCache.start).
  - intros [] H; cbn in H; contradiction.
  - reflexivity.
Defined.

(** ** The img2img request *)

(** C5: with at least one mask supplied, the constructor leaves as many
    masks as images.  Fewer masks than images: the last mask fills the gap.
    More masks than images: the first [len(init_images)] masks are kept.
    So three images with one mask get that mask three times, and three
    images with five masks get the first three. *)
Theorem init_request_normalises_masks {Image Mask : Type}
    (init_images : list Image) (masks : list Mask) :
  masks <> [] ->
  exists m ms,
    last masks = Some m /\
    Img2Img.init_request init_images (Some masks)
      = Some {| Img2Img.init_images := init_images;
                Img2Img.image_masks := Some ms;
                Img2Img.batch_size := length init_images |} /\
    length ms = length init_images /\
    (length masks < length init_images ->
       ms = masks ++ replicate (length init_images - length masks) m) /\
    (length init_images <= length masks -> ms = take (length init_images) masks) /\
    (length init_images = 3 -> length masks = 1 -> ms = [m; m; m]) /\
    (length init_images = 3 -> length masks = 5 -> ms = take 3 masks).
Proof.
  intros Hne.
  destruct (last masks) as [m |] eqn:Hlast; [| apply last_None in Hlast; contradiction].
  assert (Hpos : 0 < length masks) by (destruct masks; [contradiction | cbn; lia]).
  exists m. unfold Img2Img.init_request.
  destruct masks as [| m0 masks']; [contradiction |].
  cbn [head mbind option_bind]. rewrite Hlast.
  rewrite (bool_decide_eq_true_2 _ Hpos).
  set (masks := m0 :: masks') in *.
  case_bool_decide as Hlt.
  - eexists. split; [reflexivity |]. split; [reflexivity |].
    assert (Hfill : take (length init_images)
                      (masks ++ replicate (length init_images - length masks) m)
                    = masks ++ replicate (length init_images - length masks) m).
    { apply take_ge. rewrite length_app, length_replicate. lia. }
    rewrite Hfill. repeat split.
    + rewrite length_app, length_replicate. lia.
    + lia.
    + intros H3 H1. rewrite H3, H1.
      destruct masks' as [| ? ?]; [| cbn in H1; lia].
      cbn in Hlast. now injection Hlast as ->.
    + lia.
  - eexists. split; [reflexivity |]. split; [reflexivity |]. repeat split.
    + rewrite length_take. lia.
    + lia.
    + lia.
    + intros H3 _. now rewrite H3.
Qed.

(** Three images and one mask. *)
Lemma init_request_three_images_one_mask :
  ["mask"] <> [] /\
  exists m ms,
    last ["mask"] = Some m /\
    Img2Img.init_request ["a"; "b"; "c"] (Some ["mask"])
      = Some {| Img2Img.init_images := ["a"; "b"; "c"];
                Img2Img.image_masks := Some ms;
                Img2Img.batch_size := 3 |} /\
    length ms = 3 /\
    (1 < 3 -> ms = ["mask"] ++ replicate (3 - 1) m) /\
    (3 <= 1 -> ms = take 3 ["mask"]) /\
    (3 = 3 -> 1 = 1 -> ms = [m; m; m]) /\
    (3 = 3 -> 1 = 5 -> ms = take 3 ["mask"]).
Proof.
  split; [discriminate |].
  apply (init_request_normalises_masks ["a"; "b"; "c"] ["mask"]). discriminate.
Defined.

Example init_request_three_images_five_masks :
  Img2Img.image_masks <$>
    Img2Img.init_request ["a"; "b"; "c"] (Some ["m1"; "m2"; "m3"; "m4"; "m5"])
  = Some (Some ["m1"; "m2"; "m3"]).
Proof. reflexivity. Qed.

Example init_request_no_mask_in_list :
  Img2Img.init_request ["a"; "b"; "c"] (Some (@nil string)) = None.
Proof. reflexivity. Qed.

(** *** The list of masks as an object *)

(** The constructor lengthens the caller's list of masks in place, never
    shortens it, and keeps for itself a new list: the first
    [len(init_images)] masks of the caller's list as it is after the call,
    which are the masks of [init_request]. *)
Theorem init_in_store_extends_the_argument {Image Mask : Type}
    (init_images : list Image) (l : positive) (ms : list Mask)
    (store : Img2Img.Store Mask) :
  store !! l = Some ms -> ms <> [] ->
  exists (m : Mask) (sliced : positive),
    last ms = Some m /\
    let after :=
      if bool_decide (length ms < length init_images)
      then ms ++ replicate (length init_images - length ms) m
      else ms in
    Img2Img.init_in_store init_images (Some l) store
    = Some ({| Img2Img.self_init_images := init_images;
               Img2Img.self_image_masks := Some sliced;
               Img2Img.self_batch_size := length init_images |},
            <[sliced := take (length init_images) after]> (<[l := after]> store)) /\
    sliced <> l /\ store !! sliced = None /\
    Img2Img.image_masks <$> Img2Img.init_request init_images (Some ms)
    = Some (Some (take (length init_images) after)).
Proof.
  unfold Img2Img.Store in *. intros Hl Hne.
  destruct (last ms) as [m |] eqn:Hlast; [| apply last_None in Hlast; contradiction].
  assert (Hpos : 0 < length ms) by (destruct ms; [contradiction | cbn; lia]).
  set (after := if bool_decide (length ms < length init_images)
                then ms ++ replicate (length init_images - length ms) m else ms).
  set (store1 := <[l := after]> store).
  assert (Hdom : dom store1 = dom store).
  { unfold store1. rewrite dom_insert_L. apply elem_of_dom_2 in Hl. set_solver. }
  exists m, (fresh (dom store1)).
  pose proof (is_fresh (dom store1)) as Hfresh.
  split_and!; [reflexivity | | | |].
  - unfold Img2Img.init_in_store. unfold Img2Img.Store. rewrite Hl. cbn [mbind option_bind].
    destruct ms as [| m0 ms']; [contradiction |]. cbn [head mbind option_bind].
    set (ms := m0 :: ms') in *.
    rewrite (bool_decide_eq_true_2 _ Hpos). rewrite Hlast.
    assert (Hstore : (if bool_decide (length ms < length init_images)
                      then <[l := ms ++ replicate (length init_images - length ms) m]> store
                      else store) = store1).
    { unfold store1, after. case_bool_decide; [reflexivity |].
      symmetry. now apply insert_id. }
    assert (Hlk : store1 !! l = Some after) by apply lookup_insert_eq.
    rewrite Hstore, Hlk. reflexivity.
  - intros Heq. apply Hfresh. rewrite Heq. apply elem_of_dom. unfold store1.
    rewrite lookup_insert_eq. eauto.
  - apply not_elem_of_dom. now rewrite <- Hdom.
  - unfold Img2Img.init_request.
    destruct ms as [| m0 ms']; [contradiction |]. cbn [head mbind option_bind].
    set (ms := m0 :: ms') in *. cbn [fmap option_fmap option_map Img2Img.image_masks].
    rewrite (bool_decide_eq_true_2 _ Hpos), Hlast. reflexivity.
Qed.

(** One mask for three images: the caller's list holds the mask three
    times afterwards, and the request a copy of it. *)
Lemma init_in_store_one_mask_for_three :
  exists (m : string) (sliced : positive),
    last ["mask"] = Some m /\
    let after :=
      if bool_decide (length ["mask"] < length ["a"; "b"; "c"])
      then ["mask"] ++ replicate (length ["a"; "b"; "c"] - length ["mask"]) m
      else ["mask"] in
    Img2Img.init_in_store ["a"; "b"; "c"] (Some 1%positive) {[ 1%positive := ["mask"] ]}
    = Some ({| Img2Img.self_init_images := ["a"; "b"; "c"];
               Img2Img.self_image_masks := Some sliced;
               Img2Img.self_batch_size := length ["a"; "b"; "c"] |},
            <[sliced := take (length ["a"; "b"; "c"]) after]>
              (<[1%positive := after]> {[ 1%positive := ["mask"] ]})) /\
    sliced <> 1%positive /\
    ({[ 1%positive := ["mask"] ]} : Img2Img.Store string) !! sliced = None /\
    Img2Img.image_masks <$> Img2Img.init_request ["a"; "b"; "c"] (Some ["mask"])
    = Some (Some (take (length ["a"; "b"; "c"]) after)).
Proof.
  apply (init_in_store_extends_the_argument ["a"; "b"; "c"] 1%positive ["mask"]
           {[ 1%positive := ["mask"] ]}).
  - reflexivity.
  - discriminate.
Defined.

(** *** Latent masks and the recomposition after sampling *)

(** The masks of the preprocessing are binary and complementary. *)
Lemma latent_masks_binary (pixels : list Z) :
  Forall (fun px => 0 <= px <= 255)%Z pixels ->
  forall i m n,
    (Img2Img.latent_masks pixels).1 !! i = Some m ->
    (Img2Img.latent_masks pixels).2 !! i = Some n ->
    (m = 0 \/ m = 1)%R /\ n = (1 - m)%R.
Proof.
  intros Hbytes i m n. unfold Img2Img.latent_masks. cbn [fst snd].
  rewrite !list_lookup_fmap.
  destruct (pixels !! i) as [px |] eqn:Hpx; [cbn | discriminate].
  intros [= <-] [= <-].
  assert (Hpx' : (0 <= px <= 255)%Z).
  { eapply Forall_lookup_1 in Hbytes; [exact Hbytes | exact Hpx]. }
  unfold Img2Img.latmask_entry.
  assert (Hq : ((2 * px + 255) / 510 = 0 \/ (2 * px + 255) / 510 = 1)%Z).
  { assert (0 <= (2 * px + 255) / 510 < 2)%Z; [| lia].
    split; [apply Z.div_pos; lia | apply Z.div_lt_upper_bound; lia]. }
  destruct Hq as [-> | ->]; (split; [| lra]); [right | left]; lra.
Qed.



(** *** The preparation of masks and images *)

Section InitProperties.

Import Init.

Context {Image Correction Array Hash : Type}.
Variable ops : Ops Image Correction Array Hash.
Variable opts : Opts.
Variable self : Request Image.

Implicit Types (s : Fields Image Correction Hash).

(** The loop over the masks appends one mask for overlay per mask; with
    [inpaint_full_res] the region and [paste_to] are those of the last
    mask. *)
Lemma prepare_masks_spec (ms : list Image) : forall crop s,
  exists s',
    prepare_masks ops self ms crop s
    = (inr (if inpaint_full_res self
            then match last ms with
                 | Some m => Some (crop_region_of ops self (processed_mask ops self m))
                 | None => crop
                 end
            else crop), s') /\
    masks_for_overlay s' = masks_for_overlay s ++ (mask_for_overlay ops self <$> ms) /\
    overlay_images s' = overlay_images s /\
    color_corrections s' = color_corrections s /\
    init_img_hash s' = init_img_hash s /\
    batch_size s' = batch_size s /\
    paste_to s' = (if inpaint_full_res self
                   then match last ms with
                        | Some m => Some (paste_to_of ops self m)
                        | None => paste_to s
                        end
                   else paste_to s).
Proof.
  induction ms as [| m ms IH]; intros crop s; cbn [prepare_masks].
  - exists s. rewrite app_nil_r. destruct (inpaint_full_res self); split_and!; reflexivity.
  - rewrite bind_unfold. unfold prepare_mask.
    assert (Hmask : mask_for_overlay ops self m
                    = if inpaint_full_res self then processed_mask ops self m
                      else clip_doubled ops
                             (resize_image ops (resize_mode self) (processed_mask ops self m)
                                (width self) (height self))) by reflexivity.
    assert (Hpaste : forall m, paste_to_of ops self m
                     = let '(x1, y1, x2, y2) :=
                         crop_region_of ops self (processed_mask ops self m) in
                       (x1, y1, x2 - x1, y2 - y1)%Z) by reflexivity.
    rewrite fmap_cons.
    destruct (inpaint_full_res self) eqn:Hfull.
    + pose proof (Hpaste m) as Hpm.
      destruct (crop_region_of ops self (processed_mask ops self m)) as [[[x1 y1] x2] y2] eqn:Hr.
      unfold append_mask_for_overlay, set_paste_to, Eff.modify.
      repeat first [rewrite bind_unfold | progress cbn -[prepare_masks last mbind]].
      match goal with |- context [prepare_masks ops self ms ?c ?s1] =>
        destruct (IH c s1) as (s' & Hrun & Hm & Ho & Hc & Hh & Hb & Hp) end.
      exists s'. rewrite Hrun, Hm, Ho, Hc, Hh, Hb, Hp, Hmask. cbn -[last].
      rewrite <- (assoc_L (++)). cbn -[last].
      destruct ms as [| m' ms']; [cbn; rewrite ?Hr, ?Hpm; split_and!; reflexivity |].
      rewrite !last_cons_cons.
      destruct (last (m' :: ms')) eqn:Hl; [| apply last_None in Hl; discriminate].
      split_and!; reflexivity.
    + unfold append_mask_for_overlay, Eff.modify.
      repeat first [rewrite bind_unfold | progress cbn -[prepare_masks last mbind]].
      match goal with |- context [prepare_masks ops self ms ?c ?s1] =>
        destruct (IH c s1) as (s' & Hrun & Hm & Ho & Hc & Hh & Hb & Hp) end.
      exists s'. rewrite Hrun, Hm, Ho, Hc, Hh, Hb, Hp, Hmask. cbn -[last].
      rewrite <- (assoc_L (++)). split_and!; reflexivity.
Qed.

Ltac run_init :=
  repeat first [rewrite bind_unfold | progress cbn -[prepare_images mbind lookup]].

(** One image, with its mask for overlay and its latent mask in place. *)
Lemma prepare_image_spec crop (add : bool) i img s lm acc mask lmask :
  image_masks self = Some lm ->
  masks_for_overlay s !! i = Some mask -> lm !! i = Some lmask ->
  overlay_images s = Some acc ->
  (add = true -> is_Some (color_corrections s)) ->
  exists a s' o,
    prepare_image ops opts self crop add i img s = (inr a, s') /\
    masks_for_overlay s' = masks_for_overlay s /\
    overlay_images s' = Some (acc ++ [o]) /\
    paste_to s' = paste_to s /\
    (add = true -> is_Some (color_corrections s')).
Proof.
  intros Hlm Hmask Hlmask Hacc Hcc. unfold prepare_image. rewrite Hlm.
  unfold set_init_img_hash, set_overlay_images, set_color_corrections, Eff.when,
    Eff.modify, Eff.get.
  destruct (save_init_img opts); run_init; rewrite Hmask; run_init; rewrite Hacc; run_init;
    (destruct (bool_decide (inpainting_fill self <> 1%Z)); run_init; rewrite ?Hlmask; run_init;
     (destruct add; run_init;
      [ destruct (Hcc eq_refl) as [cc ->]; run_init;
        eexists _, _, _; split_and!; try reflexivity; intros _; eauto
      | eexists _, _, _; split_and!; try reflexivity; discriminate ])).
Qed.

(** One image past the masks for overlay. *)
Lemma prepare_image_fails crop (add : bool) i img s lm :
  image_masks self = Some lm ->
  masks_for_overlay s !! i = None ->
  (prepare_image ops opts self crop add i img s).1 = inl IndexError.
Proof.
  intros Hlm Hmask. unfold prepare_image. rewrite Hlm.
  unfold set_init_img_hash, Eff.when, Eff.modify, Eff.get.
  destruct (save_init_img opts); run_init; rewrite Hmask; reflexivity.
Qed.

Lemma prepare_images_spec crop (add : bool) lm imgs : forall i s acc,
  image_masks self = Some lm ->
  i + length imgs <= length (masks_for_overlay s) ->
  i + length imgs <= length lm ->
  overlay_images s = Some acc ->
  (add = true -> is_Some (color_corrections s)) ->
  exists arrays s' ovs,
    prepare_images ops opts self crop add i imgs s = (inr arrays, s') /\
    length arrays = length imgs /\
    masks_for_overlay s' = masks_for_overlay s /\
    overlay_images s' = Some (acc ++ ovs) /\ length ovs = length imgs /\
    paste_to s' = paste_to s.
Proof.
  induction imgs as [| img imgs IH]; intros i s acc Hlm Hmo Hlen Hacc Hcc;
    cbn [prepare_images].
  - exists [], s, []. rewrite app_nil_r. split_and!; reflexivity || assumption.
  - cbn [length] in Hmo, Hlen.
    destruct (lookup_lt_is_Some_2 (masks_for_overlay s) i) as [mask Hmask]; [lia |].
    destruct (lookup_lt_is_Some_2 lm i) as [lmask Hlmask]; [lia |].
    destruct (prepare_image_spec crop add i img s lm acc mask lmask Hlm Hmask Hlmask Hacc Hcc)
      as (a & s1 & o & Hrun & Hmo1 & Hacc1 & Hp1 & Hcc1).
    rewrite bind_unfold, Hrun.
    destruct (IH (S i) s1 (acc ++ [o]) Hlm ltac:(rewrite Hmo1; lia) ltac:(lia) Hacc1 Hcc1)
      as (arrays & s' & ovs & Hrest & Hlen' & Hmo' & Hacc' & Hovs & Hp').
    rewrite bind_unfold, Hrest. exists (a :: arrays), s', (o :: ovs).
    split_and!; [reflexivity | cbn; lia | congruence | | cbn; lia | congruence].
    rewrite Hacc', <- (assoc_L (++)). reflexivity.
Qed.

Lemma prepare_images_fails crop (add : bool) lm imgs : forall i s acc,
  image_masks self = Some lm ->
  length lm = length (masks_for_overlay s) ->
  i <= length lm < i + length imgs ->
  overlay_images s = Some acc ->
  (add = true -> is_Some (color_corrections s)) ->
  (prepare_images ops opts self crop add i imgs s).1 = inl IndexError.
Proof.
  induction imgs as [| img imgs IH]; intros i s acc Hlm Hmo Hlen Hacc Hcc;
    cbn [prepare_images]; [cbn in Hlen; lia |].
  cbn [length] in Hlen. rewrite bind_unfold.
  destruct (decide (i = length lm)) as [-> | Hne].
  - assert (Hnone : masks_for_overlay s !! length lm = None)
      by (apply lookup_ge_None_2; lia).
    pose proof (prepare_image_fails crop add (length lm) img s lm Hlm Hnone) as Hfail.
    destruct (prepare_image _ _ _ _ _ _ _ s) as [[e | a] s1]; cbn in *; congruence.
  - destruct (lookup_lt_is_Some_2 (masks_for_overlay s) i) as [mask Hmask]; [lia |].
    destruct (lookup_lt_is_Some_2 lm i) as [lmask Hlmask]; [lia |].
    destruct (prepare_image_spec crop add i img s lm acc mask lmask Hlm Hmask Hlmask Hacc Hcc)
      as (a & s1 & o & Hrun & Hmo1 & Hacc1 & Hp1 & Hcc1).
    rewrite Hrun, bind_unfold.
    specialize (IH (S i) s1 (acc ++ [o]) Hlm ltac:(congruence) ltac:(lia) Hacc1 Hcc1).
    destruct (prepare_images _ _ _ _ _ _ _ s1) as [[e | arrays] s2]; cbn in *; congruence.
Qed.

(** The constructor and [init] fit together: on a request with one mask
    per image, as the constructor leaves it, and no mask for overlay yet,
    [init] returns one array per image, and leaves one mask for overlay per
    mask, one overlay image per image, and the number of images as batch
    size; with [inpaint_full_res] the region that [paste_to] holds (and to
    which every image is cropped) is that of the last mask.  With fewer
    masks than images it raises [IndexError]. *)
Theorem init_with_masks (ms : list Image) s :
  image_masks self = Some ms ->
  masks_for_overlay s = [] ->
  (length ms = length (init_images self) ->
   exists arrays s' overlays,
     init ops opts self s = (inr arrays, s') /\
     length arrays = length (init_images self) /\
     batch_size s' = length (init_images self) /\
     masks_for_overlay s' = mask_for_overlay ops self <$> ms /\
     overlay_images s' = Some overlays /\ length overlays = length (init_images self) /\
     (inpaint_full_res self = true ->
      forall m, last ms = Some m -> paste_to s' = Some (paste_to_of ops self m))) /\
  (length ms < length (init_images self) ->
   (init ops opts self s).1 = inl IndexError).
Proof.
  intros Hms Hempty. unfold init. rewrite Hms.
  destruct (prepare_masks_spec ms None s) as (s1 & Hrun & Hmo & Ho & Hc & Hh & Hb & Hp).
  rewrite Hempty in Hmo. cbn [app] in Hmo.
  rewrite !bind_unfold, Hrun.
  unfold set_overlay_images at 1, Eff.modify at 1. run_init.
  set (add := img2img_color_correction opts && bool_decide (color_corrections s1 = None)).
  set (s2 := {| masks_for_overlay := masks_for_overlay s1;
                overlay_images := Some [];
                paste_to := paste_to s1;
                color_corrections := color_corrections s1;
                init_img_hash := init_img_hash s1;
                batch_size := batch_size s1 |}).
  assert (Hs3 : exists s3,
            Eff.when add (set_color_corrections (Some [])) s2 = (inr tt, s3) /\
            masks_for_overlay s3 = masks_for_overlay s1 /\
            overlay_images s3 = Some [] /\
            paste_to s3 = paste_to s1 /\
            (add = true -> is_Some (color_corrections s3))).
  { destruct add; eexists; split_and!; try reflexivity; [cbn; eauto | discriminate]. }
  destruct Hs3 as (s3 & -> & Hmo3 & Ho3 & Hp3 & Hcc3).
  set (crop := if inpaint_full_res self
               then match last ms with
                    | Some m => Some (crop_region_of ops self (processed_mask ops self m))
                    | None => None
                    end
               else None).
  rewrite !bind_unfold.
  split.
  - intros Hlen.
    assert (H1 : 0 + length (init_images self) <= length (masks_for_overlay s3))
      by (rewrite Hmo3, Hmo, length_fmap; cbn; lia).
    assert (H2 : 0 + length (init_images self) <= length ms) by (cbn; lia).
    destruct (prepare_images_spec crop add ms (init_images self) 0 s3 [] Hms H1 H2 Ho3 Hcc3)
      as (arrays & s' & ovs & Himgs & Hla & Hmo' & Ho' & Hlo & Hp').
    rewrite Himgs. unfold set_batch_size, Eff.modify. run_init.
    eexists _, _, ovs. cbn [app] in Ho'.
    split_and!; try reflexivity; cbn; try congruence.
    intros Hfull m Hlast. rewrite Hp', Hp3, Hp, Hfull, Hlast. reflexivity.
  - intros Hlen.
    pose proof (prepare_images_fails crop add ms (init_images self) 0 s3 [] Hms) as Hfail.
    destruct (prepare_images _ _ _ _ _ _ _ s3) as [[e | arrays] s4]; cbn in *.
    + apply Hfail; [now rewrite Hmo3, Hmo, length_fmap | lia | exact Ho3 | exact Hcc3].
    + exfalso. enough (@inr Exn _ arrays = inl IndexError) by discriminate.
      apply Hfail; [now rewrite Hmo3, Hmo, length_fmap | lia | exact Ho3 | exact Hcc3].
Qed.

End InitProperties.

(** Two images, two masks: the region is that of the second mask. *)
Lemma init_with_two_masks :
  (length ["mask a"; "mask b"] = length (Init.init_images Init.two_images) ->
   exists arrays s' overlays,
     Init.init Init.symbolic_ops
       {| Init.img2img_color_correction := true; Init.save_init_img := false |}
       Init.two_images Init.constructed = (inr arrays, s') /\
     length arrays = length (Init.init_images Init.two_images) /\
     Init.batch_size s' = length (Init.init_images Init.two_images) /\
     Init.masks_for_overlay s'
     = Init.mask_for_overlay Init.symbolic_ops Init.two_images <$> ["mask a"; "mask b"] /\
     Init.overlay_images s' = Some overlays /\
     length overlays = length (Init.init_images Init.two_images) /\
     (Init.inpaint_full_res Init.two_images = true ->
      forall m, last ["mask a"; "mask b"] = Some m ->
        Init.paste_to s' = Some (Init.paste_to_of Init.symbolic_ops Init.two_images m))) /\
  (length ["mask a"; "mask b"] < length (Init.init_images Init.two_images) ->
   (Init.init Init.symbolic_ops
      {| Init.img2img_color_correction := true; Init.save_init_img := false |}
      Init.two_images Init.constructed).1 = inl Init.IndexError).
Proof.
  apply (init_with_masks Init.symbolic_ops
           {| Init.img2img_color_correction := true; Init.save_init_img := false |}
           Init.two_images ["mask a"; "mask b"] Init.constructed).
  - reflexivity.
  - reflexivity.
Defined.

Example init_of_two_images :
  Init.init Init.symbolic_ops
    {| Init.img2img_color_correction := true; Init.save_init_img := false |}
    Init.two_images Init.constructed
  = (inr ["resized cropped a filled by mask a"; "resized cropped b filled by mask b"],
     {| Init.masks_for_overlay := ["blurred mask a"; "blurred mask b"];
        Init.overlay_images :=
          Some ["a through blurred mask a"; "b through blurred mask b"];
        Init.paste_to := Some (8, 8, 48, 48)%Z;
        Init.color_corrections :=
          Some ["target of resized cropped a filled by mask a";
                "target of resized cropped b filled by mask b"];
        Init.init_img_hash := None;
        Init.batch_size := 2 |}).
Proof. reflexivity. Qed.

(** *** The fill before sampling *)

(** Two batches that combine: each is taken as it is or, of one sample,
    repeated along the other, and the result pairs the samples. *)
Lemma broadcast_spec (op : R -> R -> R) (a b r : list (list R)) :
  Img2Img.broadcast op a b = Some r ->
  exists a' b' : list (list R),
    (a' = a \/ exists x, a = [x] /\ a' = replicate (length b) x) /\
    (b' = b \/ exists y, b = [y] /\ b' = replicate (length a) y) /\
    length a' = length b' /\ length r = length a' /\
    forall i x y, a' !! i = Some x -> b' !! i = Some y ->
      length x = length y /\ r !! i = Some (zip_with op x y).
Proof.
  unfold Img2Img.broadcast. intros Hr.
  set (a' := match a with [x] => replicate (length b) x | _ => a end) in Hr.
  set (b' := match b with [y] => replicate (length a) y | _ => b end) in Hr.
  case_bool_decide as Hlen; [| discriminate].
  apply mapM_Some_1 in Hr.
  exists a', b'. split_and!.
  - unfold a'. destruct a as [| x [| x' a]]; eauto.
  - unfold b'. destruct b as [| y [| y' b]]; eauto.
  - exact Hlen.
  - apply Forall2_length in Hr. rewrite length_zip in Hr. lia.
  - intros i x y Hx Hy.
    assert (Hxy : zip a' b' !! i = Some (x, y)).
    { rewrite lookup_zip_with, Hx. cbn. now rewrite Hy. }
    destruct (Forall2_lookup_l _ _ _ _ _ Hr Hxy) as (ri & Hri & Hf).
    cbn in Hf. case_bool_decide as Hl; [| discriminate].
    injection Hf as <-. split; [exact Hl | exact Hri].
Qed.

(** Of two batches of one size, neither is repeated. *)
Lemma broadcast_same_size {A} (a a' : list A) (n : nat) :
  length a = n ->
  (a' = a \/ exists x, a = [x] /\ a' = replicate n x) -> a' = a.
Proof.
  intros Hn [-> | (x & -> & ->)]; [reflexivity |]. cbn in Hn. now subst n.
Qed.

Lemma zip_with_concat {A B C} (f : A -> B -> C) (a : list (list A)) (b : list (list B)) :
  Forall2 (fun x y => length x = length y) a b ->
  zip_with f (concat a) (concat b) = concat (zip_with (zip_with f) a b).
Proof.
  induction 1 as [| x y a b Hxy _ IH]; [reflexivity |]. cbn.
  rewrite zip_with_app by exact Hxy. now rewrite IH.
Qed.

Lemma concat_length_Forall2 {A B} (a : list (list A)) (b : list (list B)) :
  Forall2 (fun x y => length x = length y) a b ->
  length (concat a) = length (concat b).
Proof.
  induction 1 as [| x y a b Hxy _ IH]; [reflexivity |]. cbn.
  rewrite !length_app. lia.
Qed.

(** Whatever [inpainting_fill] put into the masked part of the latent, the
    recomposition after sampling gives what it gives for the latent as it
    was encoded: with binary masks, the kept part comes from the images. *)
Theorem recomposite_after_fill (inpainting_fill : Z) (samples : list R)
    (init_latent mask nmask noise filled : list (list R)) :
  length mask = length init_latent ->
  Forall2 (fun ms ns => length ms = length ns) mask nmask ->
  (forall b ms ns i m n,
     mask !! b = Some ms -> nmask !! b = Some ns ->
     ms !! i = Some m -> ns !! i = Some n ->
     (m = 0 \/ m = 1)%R /\ n = (1 - m)%R) ->
  0 < length noise <= length init_latent ->
  Img2Img.fill_init_latent inpainting_fill init_latent mask nmask noise = Some filled ->
  Img2Img.recomposite samples (concat nmask) (concat filled) (concat mask)
  = Img2Img.recomposite samples (concat nmask) (concat init_latent) (concat mask).
Proof.
  intros Hm Hshape Hbin Hk Hfill.
  assert (Hn : length nmask = length init_latent).
  { apply Forall2_length in Hshape. congruence. }
  assert (Hsame : forall filled' : list (list R),
            length filled' = length init_latent ->
            (forall b f x ms, filled' !! b = Some f -> init_latent !! b = Some x ->
               mask !! b = Some ms ->
               length f = length x /\ length x = length ms /\
               zip_with Rmult f ms = zip_with Rmult x ms) ->
            Img2Img.recomposite samples (concat nmask) (concat filled') (concat mask)
            = Img2Img.recomposite samples (concat nmask) (concat init_latent) (concat mask)).
  { intros filled' Hl Hentries.
    assert (Hfx : Forall2 (fun f x => length f = length x) filled' init_latent).
    { apply Forall2_same_length_lookup. split; [exact Hl |].
      intros b f x Hf Hx.
      destruct (lookup_lt_is_Some_2 mask b) as [ms Hms].
      { rewrite Hm. eapply lookup_lt_Some, Hx. }
      now destruct (Hentries b f x ms Hf Hx Hms). }
    assert (Hfm : Forall2 (fun f ms => length f = length ms) filled' mask).
    { apply Forall2_same_length_lookup. split; [congruence |].
      intros b f ms Hf Hms.
      destruct (lookup_lt_is_Some_2 init_latent b) as [x Hx].
      { rewrite <- Hl. eapply lookup_lt_Some, Hf. }
      destruct (Hentries b f x ms Hf Hx Hms) as (? & ? & _). congruence. }
    assert (Hxm : Forall2 (fun x ms => length x = length ms) init_latent mask).
    { apply Forall2_same_length_lookup. split; [congruence |].
      intros b x ms Hx Hms.
      destruct (lookup_lt_is_Some_2 filled' b) as [f Hf].
      { rewrite Hl. eapply lookup_lt_Some, Hx. }
      now destruct (Hentries b f x ms Hf Hx Hms) as (_ & ? & _). }
    unfold Img2Img.recomposite.
    rewrite (concat_length_Forall2 _ _ Hfx).
    destruct (_ && _ && _); [| reflexivity]. f_equal. f_equal.
    rewrite (zip_with_concat _ _ _ Hfm), (zip_with_concat _ _ _ Hxm). f_equal.
    apply list_eq. intros b. rewrite !lookup_zip_with.
    destruct (filled' !! b) as [f |] eqn:Hf, (init_latent !! b) as [x |] eqn:Hx; cbn.
    - destruct (mask !! b) as [ms |] eqn:Hms; cbn; [| reflexivity].
      f_equal. now destruct (Hentries b f x ms Hf Hx Hms) as (_ & _ & ?).
    - apply lookup_lt_Some in Hf. apply lookup_ge_None in Hx. lia.
    - apply lookup_lt_Some in Hx. apply lookup_ge_None in Hf. lia.
    - reflexivity. }
  assert (Hentry : forall (ms ns f x : list R) b,
            mask !! b = Some ms -> nmask !! b = Some ns ->
            length x = length ms ->
            (forall i fi, f !! i = Some fi ->
               exists xi mi ni zi, x !! i = Some xi /\ ms !! i = Some mi /\
                 ns !! i = Some ni /\ fi = (xi * mi + zi * ni)%R) ->
            length f = length x ->
            zip_with Rmult f ms = zip_with Rmult x ms).
  { intros ms ns f x b Hms Hns Hlx Hf Hlf. apply list_eq. intros i.
    rewrite !lookup_zip_with.
    destruct (f !! i) as [fi |] eqn:Hfi; cbn.
    - destruct (Hf i fi Hfi) as (xi & mi & ni & zi & Hxi & Hmi & Hni & ->).
      rewrite Hxi, Hmi. cbn.
      destruct (Hbin b ms ns i mi ni Hms Hns Hmi Hni) as [[-> | ->] ->]; f_equal; lra.
    - apply lookup_ge_None in Hfi. rewrite (lookup_ge_None_2 x i) by lia. reflexivity. }
  unfold Img2Img.fill_init_latent in Hfill.
  destruct (inpainting_fill =? 2)%Z.
  - destruct (Img2Img.broadcast Rmult init_latent mask) as [kept |] eqn:Hkept; [| discriminate].
    destruct (Img2Img.broadcast Rmult noise nmask) as [fresh |] eqn:Hfresh; [| discriminate].
    cbn in Hfill.
    apply broadcast_spec in Hkept as (a1 & b1 & Ha1 & Hb1 & _ & Hlk & Hkept).
    apply (broadcast_same_size _ _ _ (eq_sym Hm)) in Ha1.
    apply (broadcast_same_size _ _ _ Hm) in Hb1. subst a1 b1.
    apply broadcast_spec in Hfresh as (noise' & b2 & _ & Hb2 & Hl2 & Hlf & Hfresh).
    assert (b2 = nmask) as ->.
    { destruct Hb2 as [-> | (y & -> & ->)]; [reflexivity |].
      cbn in Hn. replace (length noise) with 1 by lia. reflexivity. }
    apply broadcast_spec in Hfill as (a3 & b3 & Ha3 & Hb3 & _ & Hl3 & Hfill).
    apply (broadcast_same_size _ _ (length fresh)) in Ha3; [| congruence].
    apply (broadcast_same_size _ _ (length kept)) in Hb3; [| congruence]. subst a3 b3.
    apply Hsame; [congruence |].
    intros b f x ms Hf Hx Hms.
    destruct (Hkept b x ms Hx Hms) as [Hlx Hkb].
    destruct (lookup_lt_is_Some_2 nmask b) as [ns Hns].
    { rewrite Hn. eapply lookup_lt_Some, Hx. }
    destruct (lookup_lt_is_Some_2 noise' b) as [z Hz].
    { rewrite Hl2. eapply lookup_lt_Some, Hns. }
    destruct (Hfresh b z ns Hz Hns) as [Hlz Hfb].
    destruct (Hfill b _ _ Hkb Hfb) as [Hlkf Hr]. rewrite Hf in Hr. injection Hr as ->.
    rewrite !length_zip_with in Hlkf.
    assert (Hlf' : length (zip_with Rplus (zip_with Rmult x ms) (zip_with Rmult z ns))
                   = length x).
    { rewrite !length_zip_with. lia. }
    split_and!; [exact Hlf' | exact Hlx |].
    eapply (Hentry ms ns _ x b Hms Hns Hlx); [| exact Hlf'].
    intros i fi Hfi. rewrite !lookup_zip_with in Hfi.
    destruct (x !! i) as [xi |]; [| discriminate]. cbn in Hfi.
    destruct (ms !! i) as [mi |]; [| discriminate]. cbn in Hfi.
    destruct (z !! i) as [zi |]; [| discriminate]. cbn in Hfi.
    destruct (ns !! i) as [ni |]; [| discriminate]. injection Hfi as <-.
    exists xi, mi, ni, zi. split_and!; reflexivity.
  - destruct (inpainting_fill =? 3)%Z.
    + apply broadcast_spec in Hfill as (a1 & b1 & Ha1 & Hb1 & _ & Hlk & Hkept).
      apply (broadcast_same_size _ _ _ (eq_sym Hm)) in Ha1.
      apply (broadcast_same_size _ _ _ Hm) in Hb1. subst a1 b1.
      apply Hsame; [exact Hlk |].
      intros b f x ms Hf Hx Hms.
      destruct (Hkept b x ms Hx Hms) as [Hl Hr]. rewrite Hf in Hr. injection Hr as ->.
      split_and!; [rewrite length_zip_with; lia | exact Hl |].
      destruct (lookup_lt_is_Some_2 nmask b) as [ns Hns].
      { rewrite Hn. eapply lookup_lt_Some, Hx. }
      eapply (Hentry ms ns _ x b Hms Hns Hl); [| rewrite length_zip_with; lia].
      intros i fi Hfi. rewrite lookup_zip_with in Hfi.
      destruct (x !! i) as [xi |]; [| discriminate]. cbn in Hfi.
      destruct (ms !! i) as [mi |] eqn:Hmi; [| discriminate]. injection Hfi as <-.
      destruct (lookup_lt_is_Some_2 ns i) as [ni Hni].
      { rewrite <- (Forall2_lookup_lr _ _ _ _ _ _ Hshape Hms Hns).
        eapply lookup_lt_Some, Hmi. }
      exists xi, mi, ni, 0%R. split_and!; auto. lra.
    + injection Hfill as <-. reflexivity.
Qed.

(** Two images and one seed: the one noise is used for both latents, and
    the kept part of each comes from its image all the same. *)
Lemma recomposite_after_noise_fill :
  let init_latent := [[1; 2]; [3; 4]]%R in
  let masks := Img2Img.latent_masks <$> [[0; 255]; [200; 30]]%Z in
  let mask := fst <$> masks in
  let nmask := snd <$> masks in
  exists filled,
    Img2Img.fill_init_latent 2 init_latent mask nmask [[9; 9]%R] = Some filled /\
    Img2Img.recomposite [5; 6; 7; 8]%R (concat nmask) (concat filled) (concat mask)
    = Img2Img.recomposite [5; 6; 7; 8]%R (concat nmask) (concat init_latent) (concat mask).
Proof.
  eexists. split; [reflexivity |].
  apply (recomposite_after_fill 2 [5; 6; 7; 8]%R [[1; 2]; [3; 4]]%R
           (fst <$> (Img2Img.latent_masks <$> [[0; 255]; [200; 30]]%Z))
           (snd <$> (Img2Img.latent_masks <$> [[0; 255]; [200; 30]]%Z))
           [[9; 9]%R]).
  - reflexivity.
  - repeat constructor.
  - intros b ms ns i m n Hms Hns.
    destruct b as [| [| b]]; [| | discriminate Hms];
      injection Hms as <-; injection Hns as <-.
    + apply (latent_masks_binary [0; 255]%Z). repeat constructor; lia.
    + apply (latent_masks_binary [200; 30]%Z). repeat constructor; lia.
  - cbn. lia.
  - reflexivity.
Defined.

(** ** The main loop *)

Section OrchestratorProperties.

Import Orchestrator.

Context {Image Err World : Type}.
Variable env : Env Image Err World.
Variable opts : Opts.

Implicit Types (st : State Image World) (out : Outputs Image)
  (b : BatchOutput Image) (p : Expanded).

(** A collaborator leaves the trace alone. *)
Lemma call_trace {A} (f : Ext Err World A) st :
  trace (call f st).2 = trace st.
Proof.
  unfold call. destruct (f (shared st, world st)) as [r [sh w]]. reflexivity.
Qed.

Lemma call_trace_eq {A} (f : Ext Err World A) st r st' :
  call f st = (r, st') -> trace st' = trace st.
Proof. intros H. rewrite <- (call_trace f st), H. reflexivity. Qed.

(** A call that returns: what the collaborator gave, for the shared state
    and the world of the caller. *)
Lemma call_returns {A} (f : Ext Err World A) st a st' :
  call f st = (inr a, st') ->
  exists s', f (shared st, world st) = (inr a, s') /\ trace st' = trace st.
Proof.
  unfold call. destruct (f (shared st, world st)) as [[e | a'] [sh w]]; [discriminate |].
  intros [= -> <-]. eauto.
Qed.

Lemma when_call_trace_eq (c : bool) (f : Ext Err World unit) st r st' :
  Eff.when c (call f) st = (r, st') -> trace st' = trace st.
Proof.
  destruct c; cbn; [apply call_trace_eq | now intros [= _ ->]].
Qed.

(** *** The shape of the loop's trace *)

Lemma sampled_loop_events n (bs : list (BatchOutput Image)) flags :
  sampled (loop_events n bs ++ ((fun '(k, f) => Polled k f) <$> flags))
  = zip (seq n (length bs)) bs.
Proof.
  revert n. induction bs as [| b bs IH]; intros n; cbn.
  - induction flags as [| [k f] flags IH]; [reflexivity | exact IH].
  - unfold sampled in *. cbn. now rewrite IH.
Qed.

Lemma polled_loop_events n (bs : list (BatchOutput Image)) flags :
  polled (loop_events n bs ++ ((fun '(k, f) => Polled k f) <$> flags))
  = ((fun k => (k, false)) <$> seq n (length bs)) ++ flags.
Proof.
  revert n. induction bs as [| b bs IH]; intros n; cbn.
  - induction flags as [| [k f] flags IH]; [reflexivity |].
    unfold polled in *. cbn. now rewrite IH.
  - unfold polled in *. cbn. now rewrite IH.
Qed.

Lemma grids_loop_events n (bs : list (BatchOutput Image)) flags :
  grids (loop_events n bs ++ ((fun '(k, f) => Polled k f) <$> flags)) = [].
Proof.
  revert n. induction bs as [| b bs IH]; intros n; cbn.
  - induction flags as [| [k f] flags IH]; [reflexivity | exact IH].
  - unfold grids in *. cbn. now rewrite IH.
Qed.

(** The loop adds to the trace the events of the iterations that ran to
    their end, then at most one reading of the flag: the one that stopped
    the loop, or the one of an iteration that did not get to its end. *)
Lemma iterations_spec p todo : forall n out st r st',
  iterations env p todo n out st = (r, st') ->
  exists (bs : list (BatchOutput Image)) (flags : list (nat * bool)),
    trace st' = trace st ++ loop_events n bs ++ ((fun '(k, f) => Polled k f) <$> flags) /\
    length bs <= todo /\
    (flags = [] \/ exists f, flags = [(n + length bs, f)]) /\
    (forall out', r = inr out' -> out' = foldl collect out bs) /\
    (flags = [(n + length bs, true)] -> r = inr (foldl collect out bs)).
Proof.
  induction todo as [| todo IH]; intros n out st r st' Hrun.
  - injection Hrun as <- <-. exists [], []. cbn. rewrite app_nil_r.
    split_and!; [reflexivity | lia | now left | now intros out' [= <-] | discriminate].
  - cbn [iterations] in Hrun. rewrite bind_unfold in Hrun.
    unfold set_shared at 1, Eff.modify at 1 in Hrun.
    set (st1 := {| shared := _; world := world st; trace := trace st |}) in Hrun.
    rewrite bind_unfold in Hrun. unfold Eff.get at 1 in Hrun.
    rewrite bind_unfold in Hrun. unfold log at 1, Eff.modify at 1 in Hrun.
    set (st2 := {| shared := shared st1; world := world st1;
                   trace := trace st1 ++ [Polled n (interrupted (shared st1))] |}) in Hrun.
    destruct (interrupted (shared st1)) eqn:Hflag.
    { (* interrupted: the loop stops *)
      injection Hrun as <- <-.
      exists [], [(n, true)]. cbn. rewrite Nat.add_0_r.
      split_and!; [reflexivity | lia | eauto | now intros out' [= <-] | reflexivity]. }
    assert (Hstop : trace st' = trace st2 ->
              (forall out', r = inr out' -> out' = out) ->
              exists (bs : list (BatchOutput Image)) (flags : list (nat * bool)),
                trace st' = trace st ++ loop_events n bs
                              ++ ((fun '(k, f) => Polled k f) <$> flags) /\
                length bs <= S todo /\
                (flags = [] \/ exists f, flags = [(n + length bs, f)]) /\
                (forall out', r = inr out' -> out' = foldl collect out bs) /\
                (flags = [(n + length bs, true)] -> r = inr (foldl collect out bs))).
    { intros Htr Hout. exists [], [(n, false)]. cbn. rewrite Nat.add_0_r.
      split_and!; [now rewrite Htr | lia | eauto | exact Hout | discriminate]. }
    rewrite bind_unfold in Hrun.
    destruct (Eff.when _ _ st2) as [[e | []] st3] eqn:Hhook;
      apply when_call_trace_eq in Hhook.
    { injection Hrun as <- <-. apply Hstop; [exact Hhook | discriminate]. }
    case_bool_decide as Hempty.
    { injection Hrun as <- <-. apply Hstop; [exact Hhook | now intros out' [= <-]]. }
    rewrite bind_unfold in Hrun.
    destruct (call (run_batch env n _) st3) as [[e | b] st4] eqn:Hbatch;
      apply call_trace_eq in Hbatch.
    { injection Hrun as <- <-. apply Hstop; [congruence | discriminate]. }
    rewrite bind_unfold in Hrun. unfold log at 1, Eff.modify at 1 in Hrun.
    set (st5 := {| shared := shared st4; world := world st4;
                   trace := trace st4 ++ [Sampled n b] |}) in Hrun.
    rewrite bind_unfold in Hrun.
    destruct (call (nextjob env) st5) as [[e | []] st6] eqn:Hnext;
      apply call_trace_eq in Hnext.
    { injection Hrun as <- <-.
      exists [b], []. cbn. rewrite Hnext. cbn. rewrite Hbatch, Hhook. cbn.
      rewrite <- (assoc_L (++)). cbn.
      split_and!; [reflexivity | lia | now left | discriminate | discriminate]. }
    destruct (IH (S n) (collect out b) st6 r st' Hrun)
      as (bs & flags & Htr & Hlen & Hflags & Hout & Hint).
    exists (b :: bs), flags. cbn [length loop_events foldl].
    rewrite Nat.add_succ_r. split_and!.
    + rewrite Htr, Hnext. cbn. rewrite Hbatch, Hhook. cbn.
      rewrite <- !(assoc_L (++)). reflexivity.
    + lia.
    + exact Hflags.
    + exact Hout.
    + exact Hint.
Qed.

(** What the loop has collected is what its batches added, in order. *)
Lemma collect_images (bs : list (BatchOutput Image)) out :
  output_images (foldl collect out bs)
  = output_images out ++ concat (batch_images <$> bs).
Proof.
  revert out. induction bs as [| b bs IH]; intros out; cbn.
  - now rewrite app_nil_r.
  - rewrite IH. cbn. now rewrite (assoc_L (++)).
Qed.

Lemma collect_infotexts (bs : list (BatchOutput Image)) out :
  infotexts (foldl collect out bs)
  = infotexts out ++ concat (batch_infotexts <$> bs).
Proof.
  revert out. induction bs as [| b bs IH]; intros out; cbn.
  - now rewrite app_nil_r.
  - rewrite IH. cbn. now rewrite (assoc_L (++)).
Qed.

(** *** Before the loop *)

Lemma get_fixed_seed_spec (s : Seed) st r st' :
  get_fixed_seed env s st = (r, st') ->
  trace st' = trace st /\
  forall l, r = inr (inr l) -> s = Listed l.
Proof.
  assert (Hrandom : forall r st',
            (call (randrange env) ≫= fun z => mret (inl z)) st = (r, st') ->
            trace st' = trace st /\ forall l, r = inr (inr l) -> s = Listed l).
  { clear r st'. intros r st'. rewrite bind_unfold.
    destruct (call (randrange env) st) as [[e | z] st1] eqn:Hcall;
      apply call_trace_eq in Hcall; intros [= <- <-]; split; try assumption;
      discriminate. }
  destruct s as [| z | l]; cbn [get_fixed_seed].
  - apply Hrandom.
  - case_bool_decide; [apply Hrandom |].
    intros [= <- <-]. split; [reflexivity | discriminate].
  - intros [= <- <-]. split; [reflexivity | now intros ? [= <-]].
Qed.

Lemma begin_spec (p : Request) st r st' :
  begin env p st = (r, st') ->
  trace st' = trace st /\
  forall p', r = inr p' ->
    exists seed subseed,
      p' = expand env p seed subseed /\
      prompt p <> Many [] /\
      (forall l, seed = inr l -> Orchestrator.seed p = Listed l) /\
      (forall l, subseed = inr l -> Orchestrator.subseed p = Listed l).
Proof.
  unfold begin. rewrite bind_unfold.
  assert (Hfail : forall (e : Exn Err) st1,
            trace st1 = trace st -> (inl e, st1) = (r, st') ->
            trace st' = trace st /\
            forall p', r = inr p' ->
              exists seed subseed,
                p' = expand env p seed subseed /\
                prompt p <> Many [] /\
                (forall l, seed = inr l -> Orchestrator.seed p = Listed l) /\
                (forall l, subseed = inr l -> Orchestrator.subseed p = Listed l)).
  { intros e st1 Htr [= <- <-]. split; [exact Htr | discriminate]. }
  assert (Hcheck : (check_prompt (Err := Err) p st = (inr tt, st) /\ prompt p <> Many [])
                   \/ check_prompt (Err := Err) p st = (inl AssertionError, st)).
  { unfold check_prompt. destruct (prompt p) as [| [|]]; [left | right | left];
      try (split; [reflexivity | congruence]); reflexivity. }
  destruct Hcheck as [[-> Hprompt] | ->]; [| now apply Hfail].
  rewrite bind_unfold.
  destruct (get_fixed_seed env (Orchestrator.seed p) st) as [[e | seed] st1] eqn:Hseed;
    apply get_fixed_seed_spec in Hseed as [Htr1 Hseed].
  { now apply Hfail. }
  rewrite bind_unfold.
  destruct (get_fixed_seed env (Orchestrator.subseed p) st1) as [[e | subseed] st2] eqn:Hsub;
    apply get_fixed_seed_spec in Hsub as [Htr2 Hsub].
  { apply Hfail. congruence. }
  rewrite bind_unfold.
  destruct (call _ st2) as [[e | []] st3] eqn:Hprep; apply call_trace_eq in Hprep.
  { apply Hfail. congruence. }
  rewrite bind_unfold. unfold set_shared, Eff.modify. cbn.
  intros [= <- <-]. cbn. split; [congruence |].
  intros p' [= <-]. exists seed, subseed. split_and!; [reflexivity | exact Hprompt | |].
  - intros l ->. now apply Hseed.
  - intros l ->. now apply Hsub.
Qed.

(** The expanded lists of a request whose lists are not empty. *)
Lemma expand_nonempty (p : Request) seed subseed :
  lists_nonempty p ->
  prompt p <> Many [] ->
  (forall l, seed = inr l -> Orchestrator.seed p = Listed l) ->
  (forall l, subseed = inr l -> Orchestrator.subseed p = Listed l) ->
  let p' := expand env p seed subseed in
  is_Some (all_prompts p' !! 0) /\ is_Some (all_negative_prompts p' !! 0) /\
  is_Some (all_seeds p' !! 0) /\ is_Some (all_subseeds p' !! 0).
Proof.
  intros (Hcount & Hneg & Hseed & Hsub) Hprompt Hs Hss. cbn.
  assert (Hexp : forall style (q : Prompt), q <> Many [] ->
            0 < length (expand_prompts style (batch_size p * n_iter p) q)).
  { intros style [s | [| s l]] Hq; cbn; [rewrite length_replicate; lia | congruence | lia]. }
  assert (Hseeds : forall (fs : Z + list Z) (f : nat -> Z) (n : nat),
            0 < n -> (forall l, fs = inr l -> l <> []) ->
            0 < length (match fs with inr l => l | inl z => map f (seq 0 n) end)).
  { intros [z | l] f n Hn Hl; [rewrite length_map, length_seq; lia |].
    specialize (Hl l eq_refl). destruct l; [congruence | cbn; lia]. }
  split_and!; apply lookup_lt_is_Some_2.
  - now apply Hexp.
  - now apply Hexp.
  - unfold expand_seeds.
    destruct seed as [z | l]; [rewrite length_map, length_seq; now apply Hexp |].
    specialize (Hs l eq_refl). destruct l; [congruence | cbn; lia].
  - unfold expand_subseeds.
    destruct subseed as [z | l]; [rewrite length_map, length_seq; now apply Hexp |].
    specialize (Hss l eq_refl). destruct l; [congruence | cbn; lia].
Qed.

(** *** After the loop *)

(** The infotext depends on the request alone. *)
Lemma create_infotext_state p i j st st0 :
  create_infotext env p i j st = ((create_infotext env p i j st0).1, st).
Proof.
  unfold create_infotext, index_or_raise.
  rewrite !bind_unfold.
  destruct (all_seeds p !! _) as [seed |]; cbn; [| reflexivity].
  rewrite !bind_unfold.
  destruct (Qeq_bool _ _); cbn.
  - rewrite !bind_unfold.
    destruct (all_negative_prompts p !! _) as [neg |]; cbn; [| reflexivity].
    rewrite !bind_unfold.
    destruct (all_prompts p !! _) as [pr |]; reflexivity.
  - rewrite !bind_unfold.
    destruct (all_subseeds p !! _) as [sub |]; cbn; [| reflexivity].
    rewrite !bind_unfold.
    destruct (all_negative_prompts p !! _) as [neg |]; cbn; [| reflexivity].
    rewrite !bind_unfold.
    destruct (all_prompts p !! _) as [pr |]; reflexivity.
Qed.

Lemma create_infotext_returns p st0 :
  is_Some (all_prompts p !! 0) -> is_Some (all_negative_prompts p !! 0) ->
  is_Some (all_seeds p !! 0) -> is_Some (all_subseeds p !! 0) ->
  exists text, (create_infotext env p 0 0 st0).1 = inr text.
Proof.
  intros [pr Hpr] [neg Hneg] [seed Hseed] [sub Hsub].
  unfold create_infotext, index_or_raise. cbn [Nat.add Nat.mul].
  rewrite Hseed, Hsub, Hneg, Hpr. cbn. rewrite !bind_unfold. cbn.
  destruct (Qeq_bool _ _); cbn; eauto.
Qed.

(** The grid stage, when it returns: what it added to the trace and to the
    outputs.  The grid is the image that [image_grid] returned for the
    images collected and the batch size. *)
Lemma assemble_grid_inv p out st out' idx st' :
  assemble_grid env opts p out st = (inr (out', idx), st') ->
  let wanted :=
    (return_grid opts || grid_save opts) && negb (do_not_save_grid (request p))
    && negb (bool_decide (length (output_images out) < 2) && grid_only_if_multiple opts) in
  trace st' = trace st ++ (if wanted then [GridAssembled (output_images out)] else []) /\
  if wanted
  then exists grid s',
         image_grid env (output_images out) (batch_size (request p)) (shared st, world st)
         = (inr grid, s') /\
         if return_grid opts
         then exists text,
                (forall st0, (create_infotext env p 0 0 st0).1 = inr text) /\
                output_images out'
                = (if enable_pnginfo opts then set_parameters env grid text else grid)
                  :: output_images out /\
                infotexts out' = text :: infotexts out /\
                idx = 1
         else out' = out /\ idx = 0
  else out' = out /\ idx = 0.
Proof.
  intros Hrun wanted. unfold assemble_grid in Hrun. fold wanted in Hrun.
  destruct wanted.
  2: { injection Hrun as <- <- <-. cbn. now rewrite app_nil_r. }
  apply bind_returns in Hrun as (grid & st1 & Hgrid & Hrun).
  apply call_returns in Hgrid as (s' & Hcall & Hgrid).
  apply bind_returns in Hrun as ([] & st2 & Hlog & Hrun).
  unfold log, Eff.modify in Hlog. injection Hlog as <-.
  apply bind_returns in Hrun as ([[grid' out1] idx1] & st3 & Hret & Hrun).
  apply bind_returns in Hrun as ([] & st4 & Hsave & Hrun).
  injection Hrun as <- <- <-.
  assert (Hst4 : trace st4 = trace st3).
  { destruct (grid_save opts); [| now injection Hsave as <-].
    apply bind_returns in Hsave as (seed & st5 & Hseed & Hsave).
    apply bind_returns in Hsave as (prompt & st6 & Hprompt & Hsave).
    apply bind_returns in Hsave as (text & st7 & Htext & Hsave).
    apply call_trace_eq in Hsave.
    rewrite (create_infotext_state p 0 0 st6 st6) in Htext.
    unfold index_or_raise in Hseed, Hprompt.
    destruct (all_seeds p !! 0); [| discriminate].
    destruct (all_prompts p !! 0); [| discriminate].
    injection Hseed as _ <-. injection Hprompt as _ <-. injection Htext as _ <-.
    exact Hsave. }
  destruct (return_grid opts).
  - apply bind_returns in Hret as (text & st5 & Htext & Hret).
    rewrite (create_infotext_state p 0 0 _ st) in Htext.
    injection Htext as Htext <-. injection Hret as <- <- <- <-.
    split; [rewrite Hst4; cbn; now rewrite Hgrid |].
    exists grid, s'. split; [exact Hcall |].
    exists text. split_and!; try reflexivity.
    intros st0. rewrite <- Htext.
    now rewrite (create_infotext_state p 0 0 st0 st).
  - injection Hret as <- <- <- <-.
    split; [rewrite Hst4; cbn; now rewrite Hgrid |].
    exists grid, s'. split; [exact Hcall | split; reflexivity].
Qed.

(** With quiet collaborators and first elements in every list, the grid
    stage returns. *)
Lemma assemble_grid_returns p out st :
  quiet_after_loop env ->
  is_Some (all_prompts p !! 0) -> is_Some (all_negative_prompts p !! 0) ->
  is_Some (all_seeds p !! 0) -> is_Some (all_subseeds p !! 0) ->
  exists r st', assemble_grid env opts p out st = (inr r, st').
Proof.
  intros (Hgrid & Hsave & _ & _) Hpr Hneg Hseed Hsub.
  destruct (create_infotext_returns p st Hpr Hneg Hseed Hsub) as [text Htext].
  destruct Hpr as [pr Hpr], Hseed as [seed Hseed].
  unfold assemble_grid.
  destruct (_ && _ && negb _); [| eauto].
  rewrite bind_unfold. unfold call at 1.
  destruct (Hgrid (output_images out) (batch_size (request p)) (shared st, world st))
    as (g & [sh1 w1] & ->).
  rewrite bind_unfold. unfold log at 1, Eff.modify at 1.
  assert (Hsaved : forall g' st1, exists st2,
            (if grid_save opts
             then seed ← index_or_raise (all_seeds p) 0;
                  prompt ← index_or_raise (all_prompts p) 0;
                  text ← create_infotext env p 0 0;
                  call (save_grid env g' seed prompt text)
             else mret tt) st1 = (inr tt, st2)).
  { intros g' st1. destruct (grid_save opts); [| eauto].
    unfold index_or_raise. rewrite Hseed, Hpr.
    rewrite bind_unfold. cbn -[create_infotext call].
    rewrite bind_unfold. cbn -[create_infotext call].
    rewrite bind_unfold, (create_infotext_state p 0 0 st1 st), Htext. unfold call.
    destruct (Hsave g' seed pr text (shared st1, world st1)) as ([sh2 w2] & ->). eauto. }
  rewrite bind_unfold.
  destruct (return_grid opts).
  - rewrite bind_unfold, (create_infotext_state p 0 0 _ st), Htext. cbn.
    rewrite bind_unfold.
    match goal with |- context [(if grid_save opts then _ else _) ?st1] =>
      destruct (Hsaved (if enable_pnginfo opts then set_parameters env g text else g) st1)
        as [st2 ->] end.
    eauto.
  - cbn. rewrite bind_unfold.
    match goal with |- context [(if grid_save opts then _ else _) ?st1] =>
      destruct (Hsaved g st1) as [st2 ->] end.
    eauto.
Qed.

(** The part after the loop, when it returns. *)
Lemma finish_inv p out st res st' :
  finish env opts p out st = (inr res, st') ->
  let wanted :=
    (return_grid opts || grid_save opts) && negb (do_not_save_grid (request p))
    && negb (bool_decide (length (output_images out) < 2) && grid_only_if_multiple opts) in
  trace st' = trace st ++ (if wanted then [GridAssembled (output_images out)] else []) /\
  if wanted
  then exists grid s',
         image_grid env (output_images out) (batch_size (request p)) (shared st, world st)
         = (inr grid, s') /\
         if return_grid opts
         then images res
              = (if enable_pnginfo opts then set_parameters env grid (info res) else grid)
                :: output_images out /\
              res_infotexts res = info res :: infotexts out /\
              index_of_first_image res = 1
         else images res = output_images out /\ index_of_first_image res = 0
  else images res = output_images out /\ index_of_first_image res = 0.
Proof.
  intros Hrun wanted. unfold finish in Hrun.
  apply bind_returns in Hrun as ([out1 idx] & st1 & Hgrid & Hrun).
  apply assemble_grid_inv in Hgrid as [Htr Hgrid]. fold wanted in Htr, Hgrid.
  apply bind_returns in Hrun as ([] & st2 & Hdeact & Hrun).
  apply call_trace_eq in Hdeact.
  apply bind_returns in Hrun as (seed0 & st3 & Hseed & Hrun).
  assert (st3 = st2) as ->.
  { unfold index_or_raise in Hseed. destruct (all_seeds p !! 0); now injection Hseed. }
  apply bind_returns in Hrun as (text & st4 & Htext & Hrun).
  rewrite (create_infotext_state p 0 0 st2 st) in Htext.
  injection Htext as Htext <-.
  apply bind_returns in Hrun as (subseed0 & st5 & Hsub & Hrun).
  assert (st5 = st2) as ->.
  { unfold index_or_raise in Hsub. destruct (all_subseeds p !! 0); now injection Hsub. }
  apply bind_returns in Hrun as ([] & st6 & Hpost & Hrun).
  apply when_call_trace_eq in Hpost.
  injection Hrun as <- <-. cbn.
  split; [congruence |].
  destruct wanted; [| destruct Hgrid as [-> ->]; split; reflexivity].
  destruct Hgrid as (grid & s' & Hcall & Hgrid).
  exists grid, s'. split; [exact Hcall |].
  destruct (return_grid opts).
  - destruct Hgrid as (text' & Htext' & -> & -> & ->).
    specialize (Htext' st). assert (text' = text) as -> by congruence.
    split_and!; reflexivity.
  - destruct Hgrid as [-> ->]. split; reflexivity.
Qed.

Lemma finish_returns p out st :
  quiet_after_loop env ->
  is_Some (all_prompts p !! 0) -> is_Some (all_negative_prompts p !! 0) ->
  is_Some (all_seeds p !! 0) -> is_Some (all_subseeds p !! 0) ->
  exists res st', finish env opts p out st = (inr res, st').
Proof.
  intros Hquiet Hpr Hneg Hseed Hsub.
  destruct (assemble_grid_returns p out st Hquiet Hpr Hneg Hseed Hsub)
    as ([out1 idx] & st1 & Hgrid).
  destruct (create_infotext_returns p st Hpr Hneg Hseed Hsub) as [text Htext].
  destruct Hquiet as (_ & _ & Hdeact & Hpost).
  destruct Hseed as [seed Hseed], Hsub as [sub Hsub].
  unfold finish. rewrite bind_unfold, Hgrid. rewrite bind_unfold. unfold call at 1.
  destruct (Hdeact (shared st1, world st1)) as ([sh2 w2] & ->).
  unfold index_or_raise. rewrite Hseed, Hsub.
  rewrite bind_unfold. cbn -[create_infotext call].
  rewrite bind_unfold, (create_infotext_state p 0 0 _ st), Htext.
  cbn -[create_infotext call].
  rewrite bind_unfold. cbn -[create_infotext call].
  rewrite bind_unfold.
  destruct (has_scripts (request p)); cbn -[call]; [| eauto].
  unfold call.
  match goal with |- context [postprocess env ?s] =>
    destruct (Hpost s) as ([sh3 w3] & ->) end.
  eauto.
Qed.

(** *** Steps that leave the trace alone *)

Definition silent {A} (m : Eff.t (State Image World) (Exn Err) A) : Prop :=
  forall st r st', m st = (r, st') -> trace st' = trace st.

Lemma silent_ret {A} (a : A) : silent (mret a).
Proof. now intros st r st' [= _ <-]. Qed.

Lemma silent_raise {A} (e : Exn Err) : silent (Eff.raise (A := A) e).
Proof. now intros st r st' [= _ <-]. Qed.

Lemma silent_bind {A B} (m : Eff.t (State Image World) (Exn Err) A)
    (f : A -> Eff.t (State Image World) (Exn Err) B) :
  silent m -> (forall a, silent (f a)) -> silent (m ≫= f).
Proof.
  intros Hm Hf st r st'. rewrite bind_unfold.
  destruct (m st) as [[e | a] st1] eqn:Hst1; apply Hm in Hst1.
  - now intros [= _ <-].
  - intros Hst'%Hf. congruence.
Qed.

Lemma silent_call {A} (f : Ext Err World A) : silent (call f).
Proof. intros st r st'. apply call_trace_eq. Qed.

Lemma silent_when (c : bool) (m : Eff.t (State Image World) (Exn Err) unit) :
  silent m -> silent (Eff.when c m).
Proof. destruct c; [trivial | intros _; apply silent_ret]. Qed.

Lemma silent_index {A} (l : list A) (i : nat) : silent (index_or_raise l i).
Proof.
  unfold index_or_raise. destruct (l !! i); [apply silent_ret | apply silent_raise].
Qed.

Lemma silent_create_infotext p i j : silent (create_infotext env p i j).
Proof.
  intros st r st'. rewrite (create_infotext_state p i j st st). now intros [= _ <-].
Qed.

Lemma silent_if {A} (c : bool) (m1 m2 : Eff.t (State Image World) (Exn Err) A) :
  silent m1 -> silent m2 -> silent (if c then m1 else m2).
Proof. now destruct c. Qed.

Create HintDb silent.
#[local] Hint Resolve silent_ret silent_raise silent_call silent_when silent_index
  silent_create_infotext silent_if : silent.
#[local] Hint Extern 2 (silent (_ ≫= _)) => apply silent_bind; [| intros] : silent.
#[local] Hint Extern 2 (silent (let '(_, _) := ?x in _)) => destruct x : silent.

(** Whatever the outcome of the part after the loop, it adds to the trace
    at most the grid it assembled. *)
Lemma finish_trace p out st r st' :
  finish env opts p out st = (r, st') ->
  exists c : bool,
    trace st' = trace st ++ (if c then [GridAssembled (output_images out)] else []).
Proof.
  assert (Hrest : forall (r1 : Outputs Image * nat),
            silent (let '(out, index_of_first_image) := r1 in
                    _ ← call (deactivate_extra_networks env);
                    seed0 ← index_or_raise (all_seeds p) 0;
                    info ← create_infotext env p 0 0;
                    subseed0 ← index_or_raise (all_subseeds p) 0;
                    _ ← Eff.when (has_scripts (request p)) (call (postprocess env));
                    mret {| images := output_images out;
                            res_seed := seed0;
                            res_subseed := subseed0;
                            info := info;
                            res_comments :=
                              String.concat "" (map (String.append two_newlines) (comments out));
                            index_of_first_image := index_of_first_image;
                            res_infotexts := match infotexts out with [] => [info] | l => l end;
                            res_all_prompts := all_prompts p;
                            res_all_negative_prompts := all_negative_prompts p;
                            res_all_seeds := all_seeds p;
                            res_all_subseeds := all_subseeds p |})).
  { intros [out1 idx]. auto 20 with silent. }
  intros Hrun. unfold finish in Hrun. rewrite bind_unfold in Hrun.
  destruct (assemble_grid env opts p out st) as [r1 st1] eqn:Hgrid.
  assert (Hst1 : exists c : bool,
            trace st1 = trace st ++ (if c then [GridAssembled (output_images out)] else [])).
  { unfold assemble_grid in Hgrid.
    destruct (_ && _ && negb _).
    2: { injection Hgrid as _ <-. exists false. now rewrite app_nil_r. }
    rewrite bind_unfold in Hgrid.
    destruct (call _ st) as [[e | grid] st2] eqn:Hcall; apply call_trace_eq in Hcall.
    { injection Hgrid as _ <-. exists false. now rewrite app_nil_r. }
    rewrite bind_unfold in Hgrid. unfold log at 1, Eff.modify at 1 in Hgrid.
    exists true. rewrite <- Hcall.
    match type of Hgrid with ?m ?s = _ =>
      assert (Hs : silent m) by auto 20 with silent; apply Hs in Hgrid end.
    exact Hgrid. }
  destruct Hst1 as [c Hst1]. exists c. rewrite <- Hst1.
  destruct r1 as [e | r1]; [now injection Hrun as _ <- |].
  exact (Hrest r1 _ _ _ Hrun).
Qed.

(** A reading of the flag is in the trace when it is among the readings. *)
Lemma elem_of_polled (t : list (Event Image)) n f :
  Polled n f ∈ t <-> (n, f) ∈ polled t.
Proof.
  unfold polled. rewrite list_elem_of_omap. split.
  - intros H. exists (Polled n f). now split.
  - intros (e & He & Hsome). destruct e; try discriminate. now injection Hsome as -> ->.
Qed.

End OrchestratorProperties.

Example studio_run_interrupted :
  let run := Orchestrator.process_images_inner (Orchestrator.studio_env 1)
               Orchestrator.studio_opts Orchestrator.studio_request
               (Orchestrator.start Orchestrator.idle tt) in
  exists res,
    run.1 = inr res /\
    Orchestrator.images res = ["grid of 4"; "100"; "101"; "102"; "103"] /\
    Orchestrator.index_of_first_image res = 1 /\
    Orchestrator.polled (Orchestrator.trace run.2) = [(0, false); (1, false); (2, true)].
Proof. vm_compute. eexists. split_and!; reflexivity. Qed.

(** *** The whole run *)

Section RunProperties.

Import Orchestrator.

Context {Image Err World : Type}.
Variable env : Env Image Err World.
Variable opts : Opts.

(** The trace of a run that got past the loop: the iterations that ran to
    their end, at most one more reading of the flag, and the grid. *)
Lemma process_images_inner_trace (p : Request) sh w r st' :
  process_images_inner env opts p (start sh w) = (r, st') ->
  (trace st' = [] /\ exists e, r = inl e) \/
  exists (p' : Expanded) (bs : list (BatchOutput Image)) (flags : list (nat * bool))
         st2 r2,
    (exists seed subseed,
        p' = expand env p seed subseed /\
        prompt p <> Many [] /\
        (forall l, seed = inr l -> Orchestrator.seed p = Listed l) /\
        (forall l, subseed = inr l -> Orchestrator.subseed p = Listed l)) /\
    (flags = [] \/ exists f, flags = [(length bs, f)]) /\
    trace st2 = loop_events 0 bs ++ ((fun '(k, f) => Polled k f) <$> flags) /\
    (forall out, r2 = inr out ->
       out = foldl collect {| output_images := []; infotexts := []; comments := [] |} bs) /\
    (flags = [(length bs, true)] ->
       r2 = inr (foldl collect {| output_images := []; infotexts := []; comments := [] |} bs)) /\
    match r2 with
    | inl e => r = inl e /\ st' = st2
    | inr out => finish env opts p' out st2 = (r, st')
    end.
Proof.
  unfold process_images_inner. rewrite bind_unfold.
  destruct (begin env p (start sh w)) as [[e | p'] st1] eqn:Hbegin;
    apply begin_spec in Hbegin as [Htr1 Hp'].
  { intros [= <- <-]. left. split; [exact Htr1 | eauto]. }
  specialize (Hp' p' eq_refl). rewrite bind_unfold.
  destruct (iterations env p' _ 0 _ st1) as [r2 st2] eqn:Hloop.
  destruct (iterations_spec env p' _ _ _ _ _ _ Hloop)
    as (bs & flags & Htr2 & _ & Hflags & Hout & Hint).
  rewrite Htr1 in Htr2. cbn in Htr2, Hflags, Hint.
  intros Hrun. right. exists p', bs, flags.
  destruct r2 as [e | out].
  - injection Hrun as <- <-. exists st2, (inl e). split_and!; auto.
  - exists st2, (inr out). split_and!; auto.
Qed.

(** The one reading of the flag that can be true is the last one. *)
Lemma polled_true_last n k (len : nat) (flags : list (nat * bool)) :
  (flags = [] \/ exists f, flags = [(k + len, f)]) ->
  (n, true) ∈ ((fun j => (j, false)) <$> seq k len) ++ flags ->
  flags = [(n, true)] /\ n = k + len.
Proof.
  intros Hflags [Hin | Hin]%elem_of_app.
  - apply list_elem_of_fmap in Hin as (j & Heq & _). discriminate.
  - destruct Hflags as [-> | [f ->]]; [inversion Hin |].
    apply list_elem_of_singleton in Hin as [= -> <-]. split; reflexivity.
Qed.

Lemma fmap_snd_zip_seq {A B} (f : A -> B) n (l : list A) :
  (fun nb : nat * A => f nb.2) <$> zip (seq n (length l)) l = f <$> l.
Proof.
  revert n. induction l as [| a l IH]; intros n; cbn; [reflexivity |].
  now rewrite IH.
Qed.

(** The grid adds neither a reading of the flag nor a batch. *)
Lemma trace_with_grid (t : list (Event Image)) (c : bool) imgs :
  polled (t ++ (if c then [GridAssembled imgs] else [])) = polled t /\
  sampled (t ++ (if c then [GridAssembled imgs] else [])) = sampled t /\
  grids (t ++ (if c then [GridAssembled imgs] else []))
    = grids t ++ (if c then [imgs] else []).
Proof.
  unfold polled, sampled, grids. rewrite !omap_app.
  destruct c; cbn; rewrite ?app_nil_r; split_and!; reflexivity.
Qed.

(** C7: the interruption flag is read at the start of an iteration only.
    When it is read as set at the start of iteration [n], the batches of
    the iterations [0] to [n - 1] have been sampled to their end, each after
    the flag was read as clear, and no other batch is sampled.  The images
    of the result from [index_of_first_image] on (after the grid, if one is
    returned) are the images of those batches; and the run does return a
    result when its collaborators after the loop return and its lists have
    first elements. *)
Theorem interruption_at_iteration_boundary (p : Request) (sh : Shared) (w : World) (n : nat) :
  let run := process_images_inner env opts p (start sh w) in
  Polled n true ∈ trace run.2 ->
  exists batches : list (BatchOutput Image),
    length batches = n /\
    polled (trace run.2) = ((fun k => (k, false)) <$> seq 0 n) ++ [(n, true)] /\
    sampled (trace run.2) = zip (seq 0 n) batches /\
    (forall res : Processed Image, run.1 = inr res ->
       drop (index_of_first_image res) (images res)
       = concat (batch_images <$> batches)) /\
    (quiet_after_loop env -> lists_nonempty p ->
       exists res : Processed Image, run.1 = inr res).
Proof.
  intros run Hpoll. subst run.
  destruct (process_images_inner env opts p (start sh w)) as [r st'] eqn:Hrun.
  cbn [fst snd] in *.
  apply process_images_inner_trace in Hrun
    as [[Hnil _] | (p' & bs & flags & st2 & r2 & Hp' & Hflags & Htr & Hout & Hint & Hfin)].
  { rewrite Hnil in Hpoll. inversion Hpoll. }
  destruct Hp' as (seed & subseed & -> & Hprompt & Hseed & Hsub).
  assert (Hloop : Polled n true ∈ trace st2 -> flags = [(n, true)] /\ n = length bs).
  { rewrite elem_of_polled, Htr, polled_loop_events. now apply polled_true_last. }
  destruct r2 as [e | out].
  { destruct Hfin as [-> ->]. destruct (Hloop Hpoll) as [-> ->].
    now specialize (Hint eq_refl). }
  destruct (finish_trace env opts _ _ _ _ _ Hfin) as [c Htr3].
  destruct (trace_with_grid (trace st2) c (output_images out)) as (Hpolled & Hsampled & _).
  rewrite <- Htr3 in Hpolled, Hsampled.
  destruct (Hloop ltac:(now rewrite elem_of_polled, <- Hpolled, <- elem_of_polled))
    as [-> ->].
  specialize (Hout out eq_refl).
  exists bs. split_and!.
  - reflexivity.
  - now rewrite Hpolled, Htr, polled_loop_events.
  - now rewrite Hsampled, Htr, sampled_loop_events.
  - intros res ->. apply finish_inv in Hfin as [_ Himages].
    assert (Himgs : output_images out = concat (batch_images <$> bs)).
    { rewrite Hout, collect_images. reflexivity. }
    match type of Himages with if ?c then _ else _ => destruct c end.
    + destruct Himages as (grid & s' & _ & Himages). destruct (return_grid opts).
      * destruct Himages as (-> & _ & ->). cbn. exact Himgs.
      * destruct Himages as [-> ->]. cbn. exact Himgs.
    + destruct Himages as [-> ->]. cbn. exact Himgs.
  - intros Hquiet Hlists.
    destruct (expand_nonempty env p seed subseed Hlists Hprompt Hseed Hsub)
      as (Hpr & Hneg & Hs & Hss).
    destruct (finish_returns env opts _ out st2 Hquiet Hpr Hneg Hs Hss)
      as (res & st3 & Hres).
    exists res. congruence.
Qed.

(** C8: in a run that returns, no grid is assembled when fewer than two
    images were produced and [grid_only_if_multiple] is set; otherwise,
    when [return_grid] or [grid_save] is set and the request does not
    suppress the grid, one grid is assembled: [image_grid] is called with
    the images produced and the batch size, and returns the grid.  When
    moreover [return_grid] is set, the result holds that grid (with the
    infotext as its parameters when [enable_pnginfo] is set) before the
    images, the grid's infotext before theirs, and
    [index_of_first_image = 1]; in every other run the result holds the
    images alone and [index_of_first_image = 0]. *)
Theorem grid_assembled_and_prepended (p : Request) (sh : Shared) (w : World)
    (res : Processed Image) :
  let run := process_images_inner env opts p (start sh w) in
  run.1 = inr res ->
  let produced := produced_images (trace run.2) in
  let unwanted := bool_decide (length produced < 2) && grid_only_if_multiple opts in
  let enabled := (return_grid opts || grid_save opts) && negb (do_not_save_grid p) in
  grids (trace run.2) = (if negb unwanted && enabled then [produced] else []) /\
  if negb unwanted && enabled
  then exists grid s s',
         image_grid env produced (batch_size p) s = (inr grid, s') /\
         if return_grid opts
         then images res
              = (if enable_pnginfo opts then set_parameters env grid (info res) else grid)
                :: produced /\
              res_infotexts res = info res :: produced_infotexts (trace run.2) /\
              index_of_first_image res = 1
         else images res = produced /\ index_of_first_image res = 0
  else images res = produced /\ index_of_first_image res = 0.
Proof.
  intros run Hres. subst run.
  destruct (process_images_inner env opts p (start sh w)) as [r st'] eqn:Hrun.
  cbn [fst snd] in *. subst r.
  apply process_images_inner_trace in Hrun
    as [[_ [e [=]]] | (p' & bs & flags & st2 & r2 & Hp' & Hflags & Htr & Hout & Hint & Hfin)].
  destruct Hp' as (seed & subseed & -> & _).
  destruct r2 as [e | out]; [now destruct Hfin |].
  specialize (Hout out eq_refl).
  apply finish_inv in Hfin as [Htr3 Himages]. cbn [request expand] in Htr3, Himages.
  assert (Himgs : output_images out = concat (batch_images <$> bs)).
  { rewrite Hout, collect_images. reflexivity. }
  assert (Htexts : infotexts out = concat (batch_infotexts <$> bs)).
  { rewrite Hout, collect_infotexts. reflexivity. }
  destruct (trace_with_grid (trace st2)
              ((return_grid opts || grid_save opts) && negb (do_not_save_grid p)
               && negb (bool_decide (length (output_images out) < 2)
                        && grid_only_if_multiple opts))
              (output_images out)) as (_ & Hsampled & Hgrids).
  rewrite <- Htr3 in Hsampled, Hgrids.
  assert (Hprod : produced_images (trace st') = output_images out).
  { unfold produced_images. rewrite Hsampled, Htr, sampled_loop_events, Himgs.
    now rewrite fmap_snd_zip_seq. }
  assert (Hprodt : produced_infotexts (trace st') = infotexts out).
  { unfold produced_infotexts. rewrite Hsampled, Htr, sampled_loop_events, Htexts.
    now rewrite fmap_snd_zip_seq. }
  rewrite Hprod, Hprodt, Hgrids, Htr, grids_loop_events. cbn [app].
  replace (negb (bool_decide (length (output_images out) < 2) && grid_only_if_multiple opts)
           && ((return_grid opts || grid_save opts) && negb (do_not_save_grid p)))
    with ((return_grid opts || grid_save opts) && negb (do_not_save_grid p)
          && negb (bool_decide (length (output_images out) < 2)
                   && grid_only_if_multiple opts))
    by apply andb_comm.
  split; [reflexivity |].
  destruct (_ && _ && negb _); [| exact Himages].
  destruct Himages as (grid & s' & Hcall & Himages).
  exists grid, (shared st2, world st2), s'. split; [exact Hcall | exact Himages].
Qed.

End RunProperties.

(** In the studio, the flag goes up during the second of four iterations:
    the two batches sampled are kept, and the last two are never run. *)
Lemma interruption_during_second_iteration :
  let run := Orchestrator.process_images_inner (Orchestrator.studio_env 1)
               Orchestrator.studio_opts Orchestrator.studio_request
               (Orchestrator.start Orchestrator.idle tt) in
  Orchestrator.Polled 2 true ∈ Orchestrator.trace run.2 /\
  exists batches,
    length batches = 2 /\
    Orchestrator.polled (Orchestrator.trace run.2)
      = ((fun k => (k, false)) <$> seq 0 2) ++ [(2, true)] /\
    Orchestrator.sampled (Orchestrator.trace run.2) = zip (seq 0 2) batches /\
    (forall res, run.1 = inr res ->
       drop (Orchestrator.index_of_first_image res) (Orchestrator.images res)
       = concat (Orchestrator.batch_images <$> batches)) /\
    (Orchestrator.quiet_after_loop (Orchestrator.studio_env 1) ->
     Orchestrator.lists_nonempty Orchestrator.studio_request ->
     exists res, run.1 = inr res).
Proof.
  assert (Hpoll : Orchestrator.Polled 2 true
                  ∈ Orchestrator.trace
                      (Orchestrator.process_images_inner (Orchestrator.studio_env 1)
                         Orchestrator.studio_opts Orchestrator.studio_request
                         (Orchestrator.start Orchestrator.idle tt)).2).
  { vm_compute. repeat constructor. }
  split; [exact Hpoll |].
  exact (interruption_at_iteration_boundary (Orchestrator.studio_env 1)
           Orchestrator.studio_opts Orchestrator.studio_request Orchestrator.idle tt 2
           Hpoll).
Defined.

(** The studio's collaborators are quiet, and its request has no empty
    list. *)
Example studio_is_quiet n :
  Orchestrator.quiet_after_loop (Orchestrator.studio_env n) /\
  Orchestrator.lists_nonempty Orchestrator.studio_request.
Proof.
  split.
  - split_and!; intros; eexists; try eexists; reflexivity.
  - split_and!; [cbn; lia | discriminate | discriminate | discriminate].
Qed.

(** In the studio, a run of four iterations that nothing interrupts: the
    grid of its eight images comes first in the result. *)
Lemma grid_of_uninterrupted_run :
  let run := Orchestrator.process_images_inner (Orchestrator.studio_env 9)
               Orchestrator.studio_opts Orchestrator.studio_request
               (Orchestrator.start Orchestrator.idle tt) in
  exists res,
    run.1 = inr res /\
    Orchestrator.images res
      = ["grid of 8"; "100"; "101"; "102"; "103"; "104"; "105"; "106"; "107"] /\
    let produced := Orchestrator.produced_images (Orchestrator.trace run.2) in
    let unwanted := bool_decide (length produced < 2)
                    && Orchestrator.grid_only_if_multiple Orchestrator.studio_opts in
    let enabled := (Orchestrator.return_grid Orchestrator.studio_opts
                    || Orchestrator.grid_save Orchestrator.studio_opts)
                   && negb (Orchestrator.do_not_save_grid Orchestrator.studio_request) in
    Orchestrator.grids (Orchestrator.trace run.2)
      = (if negb unwanted && enabled then [produced] else []) /\
    if negb unwanted && enabled
    then exists grid s s',
           Orchestrator.image_grid (Orchestrator.studio_env 9) produced
             (Orchestrator.batch_size Orchestrator.studio_request) s = (inr grid, s') /\
           if Orchestrator.return_grid Orchestrator.studio_opts
           then Orchestrator.images res
                = (if Orchestrator.enable_pnginfo Orchestrator.studio_opts
                   then Orchestrator.set_parameters (Orchestrator.studio_env 9) grid
                          (Orchestrator.info res)
                   else grid) :: produced /\
                Orchestrator.res_infotexts res
                = Orchestrator.info res
                  :: Orchestrator.produced_infotexts (Orchestrator.trace run.2) /\
                Orchestrator.index_of_first_image res = 1
           else Orchestrator.images res = produced /\
                Orchestrator.index_of_first_image res = 0
    else Orchestrator.images res = produced /\ Orchestrator.index_of_first_image res = 0.
Proof.
  eexists. split; [vm_compute; reflexivity |]. split; [reflexivity |].
  apply (grid_assembled_and_prepended (Orchestrator.studio_env 9)
           Orchestrator.studio_opts Orchestrator.studio_request Orchestrator.idle tt).
  vm_compute. reflexivity.
Defined.

(** *** The expansion of the seeds *)

(** C9: from a scalar seed, [all_seeds[i]] is [seed + i] when the subseed
    strength is 0 and [seed] otherwise; from a scalar subseed,
    [all_subseeds[i]] is [subseed + i] in both cases.  Both lists are as
    long as [all_prompts]. *)
Theorem expand_scalar_seeds {Image Err World : Type}
    (env : Orchestrator.Env Image Err World) (p : Orchestrator.Request)
    (seed subseed : Z) (i : nat) :
  let p' := Orchestrator.expand env p (inl seed) (inl subseed) in
  i < length (Orchestrator.all_prompts p') ->
  (Orchestrator.subseed_strength p == 0 ->
     Orchestrator.all_seeds p' !! i = Some (seed + Z.of_nat i)%Z) /\
  (~ Orchestrator.subseed_strength p == 0 ->
     Orchestrator.all_seeds p' !! i = Some seed) /\
  Orchestrator.all_subseeds p' !! i = Some (subseed + Z.of_nat i)%Z /\
  length (Orchestrator.all_seeds p') = length (Orchestrator.all_prompts p') /\
  length (Orchestrator.all_subseeds p') = length (Orchestrator.all_prompts p').
Proof.
  intros p' Hi. subst p'. cbn in *.
  set (prompts := Orchestrator.expand_prompts _ _ _) in *.
  assert (Hseq : seq 0 (length prompts) !! i = Some i).
  { rewrite lookup_seq. split; [reflexivity | exact Hi]. }
  split_and!.
  - intros Hzero%Qeq_bool_iff. rewrite list_lookup_fmap, Hseq, Hzero. reflexivity.
  - intros Hnonzero. rewrite list_lookup_fmap, Hseq. cbn.
    destruct (Qeq_bool _ 0) eqn:Hq; [now apply Qeq_bool_iff in Hq |].
    f_equal. lia.
  - rewrite list_lookup_fmap, Hseq. reflexivity.
  - now rewrite length_fmap, length_seq.
  - now rewrite length_fmap, length_seq.
Qed.

(** Four prompts from seed 100 with a subseed strength of one half: the
    third seed is still 100, the third subseed is 7 + 2. *)
Lemma expand_scalar_seeds_with_variation :
  let p := {| Orchestrator.prompt := Orchestrator.Single "a photo";
              Orchestrator.negative_prompt := Orchestrator.Single "";
              Orchestrator.seed := Orchestrator.Scalar 100;
              Orchestrator.subseed := Orchestrator.Scalar 7;
              Orchestrator.subseed_strength := 1 # 2;
              Orchestrator.batch_size := 2;
              Orchestrator.n_iter := 2;
              Orchestrator.has_scripts := false;
              Orchestrator.do_not_save_grid := false |} in
  let p' := Orchestrator.expand (Orchestrator.studio_env 9) p (inl 100%Z) (inl 7%Z) in
  2 < length (Orchestrator.all_prompts p') /\
  ~ Orchestrator.subseed_strength p == 0 /\
  Orchestrator.all_seeds p' !! 2 = Some 100%Z /\
  Orchestrator.all_subseeds p' !! 2 = Some 9%Z.
Proof.
  intros p p'.
  assert (Hlen : 2 < length (Orchestrator.all_prompts p')) by (cbn; lia).
  assert (Hq : ~ Orchestrator.subseed_strength p == 0) by (intros H; discriminate H).
  destruct (expand_scalar_seeds (Orchestrator.studio_env 9) p 100 7 2 Hlen)
    as (_ & Hseeds & Hsub & _).
  split_and!; [exact Hlen | exact Hq | exact (Hseeds Hq) | exact Hsub].
Defined.

Example studio_seeds :
  let p' := Orchestrator.expand (Orchestrator.studio_env 9)
              Orchestrator.studio_request (inl 100%Z) (inl 7%Z) in
  Orchestrator.all_seeds p' = [100; 101; 102; 103; 104; 105; 106; 107]%Z /\
  Orchestrator.all_subseeds p' = [7; 8; 9; 10; 11; 12; 13; 14]%Z.
Proof. split; reflexivity. Qed.

(** *** What the loop samples, and what it collects *)

Section OrchestratorMore.

Import Orchestrator.

Context {Image Err World : Type}.
Variable env : Env Image Err World.
Variable opts : Opts.

Implicit Types (st : State Image World) (out : Outputs Image)
  (b : BatchOutput Image) (p : Expanded).

(** An empty list of prompts is refused before anything is done. *)
Theorem process_images_inner_refuses_no_prompt (p : Request) st :
  prompt p = Many [] ->
  process_images_inner env opts p st = (inl AssertionError, st).
Proof.
  intros Hp. unfold process_images_inner, begin, check_prompt.
  rewrite Hp. reflexivity.
Qed.

(** A batch is sampled only in an iteration that has prompts. *)
Lemma iterations_sampled p todo : forall n out st r st',
  iterations env p todo n out st = (r, st') ->
  forall k b, Sampled k b ∈ trace st' ->
    Sampled k b ∈ trace st \/
    (n <= k < n + todo /\
     batch_slice k (batch_size (request p)) (all_prompts p) <> []).
Proof.
  induction todo as [| todo IH]; intros n out st r st' Hrun k b Hin.
  - injection Hrun as <- <-. now left.
  - cbn [iterations] in Hrun. rewrite bind_unfold in Hrun.
    unfold set_shared at 1, Eff.modify at 1 in Hrun.
    set (st1 := {| shared := _; world := world st; trace := trace st |}) in Hrun.
    rewrite bind_unfold in Hrun. unfold Eff.get at 1 in Hrun.
    rewrite bind_unfold in Hrun. unfold log at 1, Eff.modify at 1 in Hrun.
    set (st2 := {| shared := shared st1; world := world st1;
                   trace := trace st1 ++ [Polled n (interrupted (shared st1))] |}) in Hrun.
    assert (Hst2 : forall st3, trace st3 = trace st2 -> Sampled k b ∈ trace st3 ->
              Sampled k b ∈ trace st).
    { intros st3 -> [H | H%list_elem_of_singleton]%elem_of_app; [exact H | discriminate]. }
    destruct (interrupted (shared st1)) eqn:Hflag.
    { injection Hrun as <- <-. left. now apply (Hst2 st2). }
    rewrite bind_unfold in Hrun.
    destruct (Eff.when _ _ st2) as [[e | []] st3] eqn:Hhook;
      apply when_call_trace_eq in Hhook.
    { injection Hrun as <- <-. left. now apply (Hst2 st3). }
    case_bool_decide as Hempty.
    { injection Hrun as <- <-. left. now apply (Hst2 st3). }
    rewrite bind_unfold in Hrun.
    destruct (call (run_batch env n _) st3) as [[e | b'] st4] eqn:Hbatch;
      apply call_trace_eq in Hbatch.
    { injection Hrun as <- <-. left. apply (Hst2 st4); [congruence | exact Hin]. }
    assert (Hhere : batch_slice n (batch_size (request p)) (all_prompts p) <> []).
    { cbn in Hempty. intros Heq. apply Hempty. now rewrite Heq. }
    rewrite bind_unfold in Hrun. unfold log at 1, Eff.modify at 1 in Hrun.
    set (st5 := {| shared := shared st4; world := world st4;
                   trace := trace st4 ++ [Sampled n b'] |}) in Hrun.
    assert (Hst5 : forall st6, trace st6 = trace st5 -> Sampled k b ∈ trace st6 ->
              Sampled k b ∈ trace st \/
              (n <= k < n + S todo /\
               batch_slice k (batch_size (request p)) (all_prompts p) <> [])).
    { intros st6 -> [H | H%list_elem_of_singleton]%elem_of_app.
      - left. apply (Hst2 st4); [congruence | exact H].
      - right. injection H as -> _. split; [lia | exact Hhere]. }
    rewrite bind_unfold in Hrun.
    destruct (call (nextjob env) st5) as [[e | []] st6] eqn:Hnext;
      apply call_trace_eq in Hnext.
    { injection Hrun as <- <-. now apply (Hst5 st6). }
    destruct (IH (S n) (collect out b') st6 r st' Hrun k b Hin) as [H | [Hk Hslice]].
    + now apply (Hst5 st6).
    + right. split; [lia | exact Hslice].
Qed.

Lemma batch_slice_nonempty {A} (n size : nat) (l : list A) :
  batch_slice n size l <> [] -> n * size < length l.
Proof.
  unfold batch_slice. intros Hne.
  destruct (decide (n * size < length l)) as [| Hge]; [assumption |].
  exfalso. apply Hne. rewrite drop_ge by lia. apply take_nil.
Qed.

(** The loop never samples more than [n_iter] batches, and never a batch
    for which no prompt is left: batch [n] is sampled only if [n < n_iter]
    and [n * batch_size] is below the number of prompts of the run.  (The
    hook before a batch is a collaborator on [shared.state] and its world:
    it does not change the slice it is shown.) *)
Theorem sampled_batches_have_prompts (p : Request) (sh : Shared) (w : World)
    (n : nat) (b : BatchOutput Image) :
  let run := process_images_inner env opts p (start sh w) in
  Sampled n b ∈ trace run.2 ->
  n < n_iter p /\
  n * batch_size p < match prompt p with
                     | Many l => length l
                     | Single _ => batch_size p * n_iter p
                     end.
Proof.
  intros run. unfold run, process_images_inner. rewrite bind_unfold.
  destruct (begin env p (start sh w)) as [[e | p'] st1] eqn:Hbegin;
    apply begin_spec in Hbegin as [Htr1 Hp'].
  { cbn. rewrite Htr1. intros H. inversion H. }
  destruct (Hp' p' eq_refl) as (seed & subseed & -> & _).
  rewrite bind_unfold.
  destruct (iterations env _ _ 0 _ st1) as [r2 st2] eqn:Hloop.
  pose proof (iterations_sampled _ _ _ _ _ _ _ Hloop n b) as Hsampled.
  assert (Hgoal : Sampled n b ∈ trace st2 ->
            n < n_iter p /\
            n * batch_size p < match prompt p with
                               | Many l => length l
                               | Single _ => batch_size p * n_iter p
                               end).
  { intros Hin. destruct (Hsampled Hin) as [H | [Hn Hslice]].
    - rewrite Htr1 in H. inversion H.
    - cbn in Hn, Hslice. split; [lia |].
      apply batch_slice_nonempty in Hslice. unfold expand_prompts in Hslice.
      destruct (prompt p); [now rewrite length_replicate in Hslice |].
      now rewrite length_map in Hslice. }
  destruct r2 as [e | out]; [exact Hgoal |].
  destruct (finish env opts _ out st2) as [r st'] eqn:Hfinish.
  apply finish_trace in Hfinish as [c Hfinish]. cbn [snd]. rewrite Hfinish.
  intros [H | H]%elem_of_app; [now apply Hgoal |].
  destruct c; [apply list_elem_of_singleton in H; discriminate | inversion H].
Qed.

(** *** Comments *)

Lemma add_comments_spec (new cs : list string) :
  NoDup cs ->
  NoDup (add_comments cs new) /\
  forall c, c ∈ add_comments cs new <-> c ∈ cs \/ c ∈ new.
Proof.
  unfold add_comments. revert cs. induction new as [| x new IH]; intros cs Hnd; cbn.
  - split; [exact Hnd |]. intros c. split; [now left | intros [H | H]; [exact H | inversion H]].
  - case_bool_decide as Hx.
    + destruct (IH cs Hnd) as [Hnd' Hin]. split; [exact Hnd' |].
      intros c. rewrite Hin, elem_of_cons. split; [tauto |].
      intros [H | [-> | H]]; auto.
    + destruct (IH (cs ++ [x])) as [Hnd' Hin].
      { apply NoDup_app. split_and!; [exact Hnd | | apply NoDup_singleton].
        intros y Hy ->%list_elem_of_singleton. contradiction. }
      split; [exact Hnd' |].
      intros c. rewrite Hin, elem_of_app, list_elem_of_singleton, elem_of_cons. tauto.
Qed.

(** The comments of a run (lines 490-492 and 601): every comment of every
    batch is among them, each once. *)
Theorem comments_collected_once (bs : list (BatchOutput Image)) :
  let out := foldl collect {| output_images := []; infotexts := []; comments := [] |} bs in
  NoDup (comments out) /\
  forall c, c ∈ comments out <-> exists b, b ∈ bs /\ c ∈ batch_comments b.
Proof.
  cbv zeta.
  assert (Hgen : forall out0 : Outputs Image, NoDup (comments out0) ->
            NoDup (comments (foldl collect out0 bs)) /\
            forall c, c ∈ comments (foldl collect out0 bs) <->
                      c ∈ comments out0 \/ exists b, b ∈ bs /\ c ∈ batch_comments b).
  { induction bs as [| b bs IH]; intros out0 Hnd; cbn [foldl].
    - split; [exact Hnd |]. intros c. split; [now left |].
      intros [H | (b & Hb & _)]; [exact H | inversion Hb].
    - destruct (add_comments_spec (batch_comments b) (comments out0) Hnd) as [Hnd1 Hin1].
      destruct (IH (collect out0 b) Hnd1) as [Hnd2 Hin2].
      split; [exact Hnd2 |]. intros c. rewrite Hin2. cbn [collect comments].
      rewrite Hin1. split.
      + intros [[H | H] | (b' & Hb' & H)]; [now left | right | right].
        * exists b. split; [left | exact H].
        * exists b'. split; [now right | exact H].
      + intros [H | (b' & [-> | Hb']%elem_of_cons & H)]; [tauto | tauto |].
        right. eauto. }
  destruct (Hgen {| output_images := []; infotexts := []; comments := [] |}) as [Hnd Hin].
  { constructor. }
  split; [exact Hnd |]. intros c. rewrite Hin. cbn. split; [| now right].
  intros [H | H]; [inversion H | exact H].
Qed.

(** *** Slices *)

(** The slices of lines 452-455 cut a list into consecutive pieces: those
    of the first [k] iterations, put together, are its first
    [k * batch_size] elements. *)
Theorem batch_slices_partition {A} (size k : nat) (l : list A) :
  concat ((fun n => batch_slice n size l) <$> seq 0 k) = take (k * size) l.
Proof.
  induction k as [| k IH]; [reflexivity |].
  rewrite seq_S, fmap_app, concat_app, IH. cbn [fmap list_fmap concat].
  rewrite app_nil_r. unfold batch_slice. rewrite take_take_drop. f_equal. lia.
Qed.

(** *** Infotexts *)

(** [create_infotext] changes nothing, and raises exactly when its index is
    past the end of a list it reads: the seeds, the prompts, the negative
    prompts and, with a variation strength other than 0, the subseeds. *)
Theorem create_infotext_index_error p (iteration position_in_batch : nat) st :
  let index := position_in_batch + iteration * batch_size (request p) in
  let outcome := create_infotext env p iteration position_in_batch st in
  outcome.2 = st /\
  (forall e, outcome.1 = inl e -> e = IndexError) /\
  ((exists text, outcome.1 = inr text) <->
   index < length (all_seeds p) /\
   (Qeq_bool (subseed_strength (request p)) 0 = false -> index < length (all_subseeds p)) /\
   index < length (all_negative_prompts p) /\
   index < length (all_prompts p)).
Proof.
  intros index outcome. unfold outcome, create_infotext. fold index.
  unfold index_or_raise. rewrite !bind_unfold.
  destruct (all_seeds p !! index) as [seed |] eqn:Hseed; cbn -[mbind].
  2: { apply lookup_ge_None in Hseed. split_and!; [reflexivity | now intros e [= <-] |].
       split; [intros [? [=]] | lia]. }
  apply lookup_lt_Some in Hseed. rewrite !bind_unfold.
  destruct (Qeq_bool (subseed_strength (request p)) 0) eqn:Hq; cbn -[mbind].
  - rewrite !bind_unfold.
    destruct (all_negative_prompts p !! index) as [neg |] eqn:Hneg; cbn -[mbind].
    2: { apply lookup_ge_None in Hneg. split_and!; [reflexivity | now intros e [= <-] |].
         split; [intros [? [=]] | lia]. }
    apply lookup_lt_Some in Hneg. rewrite !bind_unfold.
    destruct (all_prompts p !! index) as [pr |] eqn:Hpr; cbn -[mbind].
    2: { apply lookup_ge_None in Hpr. split_and!; [reflexivity | now intros e [= <-] |].
         split; [intros [? [=]] | lia]. }
    apply lookup_lt_Some in Hpr.
    split_and!; [reflexivity | discriminate |].
    split; [intros _; split_and!; [lia | discriminate | lia | lia] | eauto].
  - rewrite !bind_unfold.
    destruct (all_subseeds p !! index) as [sub |] eqn:Hsub; cbn -[mbind].
    2: { apply lookup_ge_None in Hsub. split_and!; [reflexivity | now intros e [= <-] |].
         split; [intros [? [=]] | intros (_ & H & _); specialize (H eq_refl); lia]. }
    apply lookup_lt_Some in Hsub. rewrite !bind_unfold.
    destruct (all_negative_prompts p !! index) as [neg |] eqn:Hneg; cbn -[mbind].
    2: { apply lookup_ge_None in Hneg. split_and!; [reflexivity | now intros e [= <-] |].
         split; [intros [? [=]] | lia]. }
    apply lookup_lt_Some in Hneg. rewrite !bind_unfold.
    destruct (all_prompts p !! index) as [pr |] eqn:Hpr; cbn -[mbind].
    2: { apply lookup_ge_None in Hpr. split_and!; [reflexivity | now intros e [= <-] |].
         split; [intros [? [=]] | lia]. }
    apply lookup_lt_Some in Hpr.
    split_and!; [reflexivity | discriminate |].
    split; [intros _; split_and!; [lia | intros _; lia | lia | lia] | eauto].
Qed.

(** *** Fixed seeds *)

(** [fix_seed] is idempotent: the random generator never returns -1, so a
    request whose seeds were fixed is left as it is, and nothing is drawn,
    when they are fixed again. *)
Theorem fix_seed_idempotent (p p1 : Request) st st1 st2 :
  (forall s z s', randrange env s = (inr z, s') -> (0 <= z < 4294967294)%Z) ->
  fix_seed env p st = (inr p1, st1) ->
  fix_seed env p1 st2 = (inr p1, st2).
Proof.
  intros Hrange.
  assert (Hfixed : forall s st r st',
            get_fixed_seed env s st = (inr r, st') ->
            forall st2, get_fixed_seed env (as_seed r) st2 = (inr r, st2)).
  { intros s st0 r st' Hget st2'.
    assert (Hrandom : forall r st',
              (call (randrange env) ≫= fun z => mret (inl z)) st0 = (inr r, st') ->
              get_fixed_seed env (as_seed r) st2' = (inr r, st2')).
    { clear r st' Hget. intros r st'. rewrite bind_unfold. unfold call.
      destruct (randrange env (shared st0, world st0)) as [[e | z] [sh w]] eqn:Hr;
        [discriminate |].
      apply Hrange in Hr. intros [= <- _]. cbn.
      rewrite bool_decide_eq_false_2 by lia. reflexivity. }
    destruct s as [| z | l]; cbn [get_fixed_seed] in Hget.
    - now apply Hrandom in Hget.
    - case_bool_decide as Hz; [now apply Hrandom in Hget |].
      injection Hget as <- _. cbn. now rewrite bool_decide_eq_false_2.
    - injection Hget as <- _. reflexivity. }
  unfold fix_seed. rewrite bind_unfold.
  destruct (get_fixed_seed env (seed p) st) as [[e | s1] sta] eqn:H1; [discriminate |].
  rewrite bind_unfold.
  destruct (get_fixed_seed env (subseed p) sta) as [[e | s2] stb] eqn:H2; [discriminate |].
  intros [= <- _]. cbn [seed subseed].
  rewrite bind_unfold, (Hfixed _ _ _ _ H1), bind_unfold, (Hfixed _ _ _ _ H2).
  reflexivity.
Qed.

End OrchestratorMore.

Lemma process_images_inner_refuses_an_empty_list :
  let p := {| Orchestrator.prompt := Orchestrator.Many [];
              Orchestrator.negative_prompt := Orchestrator.Single "";
              Orchestrator.seed := Orchestrator.Scalar 100;
              Orchestrator.subseed := Orchestrator.Scalar 7;
              Orchestrator.subseed_strength := 0;
              Orchestrator.batch_size := 2;
              Orchestrator.n_iter := 4;
              Orchestrator.has_scripts := true;
              Orchestrator.do_not_save_grid := false |} in
  Orchestrator.process_images_inner (Orchestrator.studio_env 9) Orchestrator.studio_opts p
    (Orchestrator.start Orchestrator.idle tt)
  = (inl Orchestrator.AssertionError, Orchestrator.start Orchestrator.idle tt).
Proof.
  cbv zeta.
  apply (process_images_inner_refuses_no_prompt (Orchestrator.studio_env 9)
           Orchestrator.studio_opts). reflexivity.
Defined.

(** The second batch of the studio. *)
Lemma sampled_batches_have_prompts_in_the_studio :
  1 < Orchestrator.n_iter Orchestrator.studio_request /\
  1 * Orchestrator.batch_size Orchestrator.studio_request
  < match Orchestrator.prompt Orchestrator.studio_request with
    | Orchestrator.Many l => length l
    | Orchestrator.Single _ =>
        Orchestrator.batch_size Orchestrator.studio_request
        * Orchestrator.n_iter Orchestrator.studio_request
    end.
Proof.
  apply (sampled_batches_have_prompts (Orchestrator.studio_env 9) Orchestrator.studio_opts
           Orchestrator.studio_request Orchestrator.idle tt 1
           {| Orchestrator.batch_images := ["102"; "103"];
              Orchestrator.batch_infotexts := ["a photo"; "a photo"];
              Orchestrator.batch_comments := [] |}).
  apply list_elem_of_lookup. exists 3. reflexivity.
Defined.

(** A seed to be drawn, fixed to the 42 the studio draws. *)
Lemma fix_seed_idempotent_in_the_studio :
  let p1 := {| Orchestrator.prompt := Orchestrator.Single "a photo";
               Orchestrator.negative_prompt := Orchestrator.Single "";
               Orchestrator.seed := Orchestrator.Scalar 42;
               Orchestrator.subseed := Orchestrator.Scalar 7;
               Orchestrator.subseed_strength := 0;
               Orchestrator.batch_size := 2;
               Orchestrator.n_iter := 4;
               Orchestrator.has_scripts := true;
               Orchestrator.do_not_save_grid := false |} in
  Orchestrator.fix_seed (Orchestrator.studio_env 9) p1 (Orchestrator.start Orchestrator.idle tt)
  = (inr p1, Orchestrator.start Orchestrator.idle tt).
Proof.
  cbv zeta.
  apply (fix_seed_idempotent (Orchestrator.studio_env 9)
           {| Orchestrator.prompt := Orchestrator.Single "a photo";
              Orchestrator.negative_prompt := Orchestrator.Single "";
              Orchestrator.seed := Orchestrator.Unset;
              Orchestrator.subseed := Orchestrator.Scalar 7;
              Orchestrator.subseed_strength := 0;
              Orchestrator.batch_size := 2;
              Orchestrator.n_iter := 4;
              Orchestrator.has_scripts := true;
              Orchestrator.do_not_save_grid := false |}
           _ (Orchestrator.start Orchestrator.idle tt) (Orchestrator.start Orchestrator.idle tt)).
  - intros s z s' [= <- _]. lia.
  - reflexivity.
Defined.

(** ** Overlay compositing *)

(** C10: without a list of overlays, or at an index past its end,
    [apply_overlay] returns the image it was given. *)
Theorem apply_overlay_without_overlay {Image : Type} (ops : Overlay.ImageOps Image)
    (image : Image) (paste_loc : option (Z * Z * Z * Z)) (index : Z)
    (overlays : option (list Image)) :
  overlays = None \/
    (exists l, overlays = Some l /\ (Z.of_nat (length l) <= index)%Z) ->
  Overlay.apply_overlay ops image paste_loc index overlays = Some image.
Proof.
  intros [-> | (l & -> & Hlen)]; [reflexivity |].
  unfold Overlay.apply_overlay.
  now rewrite (proj2 (Z.leb_le _ _) Hlen).
Qed.

(** Two overlays and the index 2. *)
Lemma apply_overlay_past_the_overlays :
  (Some ["overlay 0"; "overlay 1"] = None \/
     exists l, Some ["overlay 0"; "overlay 1"] = Some l /\ (Z.of_nat (length l) <= 2)%Z) /\
  Overlay.apply_overlay Overlay.symbolic_ops "image" (Some (0, 0, 8, 8)%Z) 2
    (Some ["overlay 0"; "overlay 1"]) = Some "image".
Proof.
  assert (H : Some ["overlay 0"; "overlay 1"] = None \/
              exists l, Some ["overlay 0"; "overlay 1"] = Some l
                        /\ (Z.of_nat (length l) <= 2)%Z).
  { right. eexists. split; [reflexivity | cbn; lia]. }
  split; [exact H |].
  exact (apply_overlay_without_overlay Overlay.symbolic_ops "image"
           (Some (0, 0, 8, 8)%Z) 2 (Some ["overlay 0"; "overlay 1"]) H).
Defined.

Example apply_overlay_composites :
  Overlay.apply_overlay Overlay.symbolic_ops "image" (Some (0, 0, 8, 8)%Z) 1
    (Some ["overlay 0"; "overlay 1"])
  = Some "overlay 1 over resized image on blank".
Proof. reflexivity. Qed.

(** [apply_overlay] raises only on an index below [-len(overlays)]: a
    negative index from there on counts from the end of the overlays. *)
Theorem apply_overlay_index_error {Image : Type} (ops : Overlay.ImageOps Image)
    (image : Image) (paste_loc : option (Z * Z * Z * Z)) (index : Z)
    (overlays : option (list Image)) :
  Overlay.apply_overlay ops image paste_loc index overlays = None <->
  exists l, overlays = Some l /\ (index < - Z.of_nat (length l))%Z.
Proof.
  unfold Overlay.apply_overlay.
  destruct overlays as [l |]; [| split; [discriminate | intros (l & [=] & _)]].
  destruct (Z.leb_spec (Z.of_nat (length l)) index) as [Hge | Hlt].
  { split; [discriminate | intros (l' & [= <-] & H); lia]. }
  unfold Overlay.py_index.
  destruct (Z.leb_spec 0 index) as [Hpos | Hneg].
  - destruct (lookup_lt_is_Some_2 l (Z.to_nat index)) as [o ->]; [lia |].
    cbn. split; [discriminate | intros (l' & [= <-] & H); lia].
  - destruct (Z.leb_spec (- Z.of_nat (length l)) index) as [Hin | Hout].
    + destruct (lookup_lt_is_Some_2 l (Z.to_nat (Z.of_nat (length l) + index))) as [o ->];
        [lia |].
      cbn. split; [discriminate | intros (l' & [= <-] & H); lia].
    + cbn. split; [eauto | reflexivity].
Qed.

(** ** The result object *)

Lemma py_or_nonempty {A} (l fallback : list A) : fallback <> [] -> Result.py_or l fallback <> [].
Proof. destruct l; [trivial | discriminate]. Qed.

(** Whatever lists it is given, a result that was constructed has a first
    prompt, negative prompt, seed, subseed and infotext, so the lookups of
    [js] succeed. *)
Theorem init_lists_nonempty {Image : Type} (p : Orchestrator.Expanded)
    (images_list : list Image) (seed subseed : Result.SeedArg) (info comments : string)
    (all_prompts all_negative_prompts : list string) (all_seeds all_subseeds : list Z)
    (index_of_first_image : nat) (infotexts : list string) (self : Result.Processed Image) :
  Result.init p images_list seed info subseed all_prompts all_negative_prompts
    all_seeds all_subseeds index_of_first_image infotexts comments = inr self ->
  Result.all_prompts self <> [] /\ Result.all_negative_prompts self <> [] /\
  Result.all_seeds self <> [] /\ Result.all_subseeds self <> [] /\
  Result.infotexts self <> [] /\
  is_Some (Result.js_first_prompts self).
Proof.
  unfold Result.init.
  destruct (Result.first_prompt _) as [| self_prompt]; [discriminate |].
  destruct (Result.first_prompt _) as [| self_negative_prompt]; [discriminate |].
  destruct (Result.int_seed seed) as [| self_seed]; [discriminate |].
  destruct (Result.int_seed subseed) as [| self_subseed]; [discriminate |].
  intros [= <-]. cbn.
  assert (Hor : forall {A} (l1 l2 : list A) x,
            Result.py_or l1 (Result.py_or l2 [x]) <> []).
  { intros A l1 l2 x. apply py_or_nonempty, py_or_nonempty. discriminate. }
  split_and!; try apply Hor; [apply py_or_nonempty; discriminate |].
  unfold Result.js_first_prompts. cbn.
  pose proof (Hor _ all_prompts (Orchestrator.all_prompts p) self_prompt) as H1.
  pose proof (Hor _ all_negative_prompts (Orchestrator.all_negative_prompts p)
                self_negative_prompt) as H2.
  destruct (Result.py_or all_prompts _); [contradiction |].
  destruct (Result.py_or all_negative_prompts _); [contradiction |].
  cbn. eauto.
Qed.

(** The constructor returns unless a prompt of the request is an empty
    list or a seed argument is an empty list or the empty text; the text
    [''], which [get_fixed_seed] takes for a seed to be drawn, is a
    [ValueError] here.  The seed of the result is -1 for [None] and the first
    element for a list. *)
Theorem init_returns {Image : Type} (p : Orchestrator.Expanded)
    (images_list : list Image) (seed subseed : Result.SeedArg) (info comments : string)
    (all_prompts all_negative_prompts : list string) (all_seeds all_subseeds : list Z)
    (index_of_first_image : nat) (infotexts : list string) :
  let outcome :=
    Result.init p images_list seed info subseed all_prompts all_negative_prompts
      all_seeds all_subseeds index_of_first_image infotexts comments in
  let usable (x : Result.SeedArg) := x <> Result.EmptyText /\ x <> Result.ListSeed [] in
  let prompts_usable :=
    Orchestrator.prompt (Orchestrator.request p) <> Orchestrator.Many [] /\
    Orchestrator.negative_prompt (Orchestrator.request p) <> Orchestrator.Many [] in
  ((exists self, outcome = inr self) <-> prompts_usable /\ usable seed /\ usable subseed) /\
  (prompts_usable -> seed = Result.EmptyText -> outcome = inl Result.ValueError) /\
  (forall self, outcome = inr self ->
     (seed = Result.NoneSeed -> Result.seed self = (-1)%Z) /\
     (forall z l, seed = Result.ListSeed (z :: l) -> Result.seed self = z)).
Proof.
  cbv zeta. unfold Result.init, Result.first_prompt, Result.int_seed.
  destruct (Orchestrator.prompt (Orchestrator.request p)) as [s | [| s l]];
    destruct (Orchestrator.negative_prompt (Orchestrator.request p)) as [s' | [| s' l']];
    destruct seed as [| | z | [| z l0]]; destruct subseed as [| | z' | [| z' l0']];
    cbn [head];
    (split_and!;
     [ split;
       [ intros [self Heq]; first [ discriminate Heq | repeat split; discriminate ]
       | first [ intros ((? & ?) & (? & ?) & (? & ?)); congruence | eauto ] ]
     | intros [? ?]; congruence
     | intros self; first [ discriminate | intros [= <-]; split; cbn; congruence ] ]).
Qed.

(** [infotext] finds the entry of its index: with the batch size of the
    result that of the request, and not 0, the text is the one
    [create_infotext] makes at that index of the lists; a batch size of 0 is
    a [ZeroDivisionError]. *)
Theorem infotext_index {Image Err World : Type} (env : Orchestrator.Env Image Err World)
    (self : Result.Processed Image) (p : Orchestrator.Expanded) (index : nat)
    (st : Orchestrator.State Image World) :
  let lists :=
    {| Orchestrator.request := Orchestrator.request p;
       Orchestrator.all_prompts := Result.all_prompts self;
       Orchestrator.all_negative_prompts := Orchestrator.all_negative_prompts p;
       Orchestrator.all_seeds := Result.all_seeds self;
       Orchestrator.all_subseeds := Result.all_subseeds self |} in
  (Result.batch_size self = 0 ->
   Result.infotext env self p index st = (inl Result.ZeroDivisionError, st)) /\
  (Result.batch_size self <> 0 ->
   Orchestrator.batch_size (Orchestrator.request p) = Result.batch_size self ->
   forall text,
     (Result.infotext env self p index st).1 = inr text <->
     (Orchestrator.create_infotext env lists 0 index st).1 = inr text).
Proof.
  intros lists. unfold Result.infotext. split.
  - intros ->. reflexivity.
  - intros Hne Hsize text. rewrite bool_decide_eq_false_2 by exact Hne.
    assert (Heq : Orchestrator.create_infotext env lists
                    (index / Result.batch_size self) (index mod Result.batch_size self)
                  = Orchestrator.create_infotext env lists 0 index).
    { unfold Orchestrator.create_infotext. cbn [Orchestrator.request lists].
      replace (index mod Result.batch_size self
               + index / Result.batch_size self
                 * Orchestrator.batch_size (Orchestrator.request p))
        with (index + 0 * Orchestrator.batch_size (Orchestrator.request p)); [reflexivity |].
      rewrite Hsize. pose proof (Nat.div_mod_eq index (Result.batch_size self)). lia. }
    fold lists. rewrite Heq.
    destruct (Orchestrator.create_infotext env lists 0 index st) as [[e | t] st']; cbn;
      split; congruence.
Qed.

(** The result written to [params.txt] in the first iteration (line 478):
    no images, the seed of the request, an empty text. *)
Lemma init_lists_nonempty_for_params_txt :
  let p := Orchestrator.expand (Orchestrator.studio_env 9) Orchestrator.studio_request
             (inl 100%Z) (inl 7%Z) in
  exists self : Result.Processed string,
    Result.init p [] (Result.IntSeed 100) "" Result.NoneSeed [] [] [] [] 0 [] "" = inr self /\
    Result.all_prompts self <> [] /\ Result.all_negative_prompts self <> [] /\
    Result.all_seeds self <> [] /\ Result.all_subseeds self <> [] /\
    Result.infotexts self <> [] /\
    is_Some (Result.js_first_prompts self).
Proof.
  cbv zeta. eexists. split; [reflexivity |].
  eapply (init_lists_nonempty
            (Orchestrator.expand (Orchestrator.studio_env 9) Orchestrator.studio_request
               (inl 100%Z) (inl 7%Z))
            [] (Result.IntSeed 100) Result.NoneSeed "" "" [] [] [] [] 0 []).
  reflexivity.
Defined.

(** ** The first pass of the old high-resolution fix *)

Lemma ceil_bounds (x : R) : (x <= IZR (HiresFix.ceil x) < x + 1)%R.
Proof.
  unfold HiresFix.ceil. rewrite minus_IZR. destruct (archimed (- x)) as [H1 H2].
  split; lra.
Qed.

Lemma ceil_IZR (z : Z) : HiresFix.ceil (IZR z) = z.
Proof.
  pose proof (ceil_bounds (IZR z)) as [H1 H2].
  apply le_IZR in H1. rewrite <- plus_IZR in H2. apply lt_IZR in H2. lia.
Qed.

(** A size of 512 * 512 pixels whose sides are multiples of 64 is its own
    first pass. *)
Theorem old_hires_fix_first_pass_dimensions_fixed (width height : Z) :
  (width * height = 512 * 512)%Z ->
  (64 | width)%Z -> (64 | height)%Z ->
  HiresFix.old_hires_fix_first_pass_dimensions width height = inr (width, height).
Proof.
  intros Hwh [kw ->] [kh ->]. unfold HiresFix.old_hires_fix_first_pass_dimensions.
  cbv zeta. rewrite Hwh. cbn [Z.eqb Z.ltb Z.mul Pos.mul Z.compare].
  replace (IZR (512 * 512) / IZR (512 * 512))%R with 1%R
    by (field; apply not_0_IZR; lia).
  rewrite sqrt_1.
  replace (1 * IZR (kw * 64) / 64)%R with (IZR kw) by (rewrite mult_IZR; field).
  replace (1 * IZR (kh * 64) / 64)%R with (IZR kh) by (rewrite mult_IZR; field).
  now rewrite !ceil_IZR.
Qed.

Lemma old_hires_fix_first_pass_dimensions_fixed_256_1024 :
  HiresFix.old_hires_fix_first_pass_dimensions 256 1024 = inr (256, 1024)%Z.
Proof.
  apply (old_hires_fix_first_pass_dimensions_fixed 256 1024).
  - reflexivity.
  - exists 4%Z. reflexivity.
  - exists 16%Z. reflexivity.
Defined.
